(** * pycox: losses and label transforms, a shallow embedding

    The embedding follows [pycox/models/loss.py] and
    [pycox/preprocessing/label_transforms.py].  Tensors are lists (of lists)
    of real numbers together with the shape the code reads from them; the
    floating-point scalars of the backend are idealised as the reals of the
    Standard Library, so [exp], [ln], [Rmax] stand for the backend's [exp],
    [log] and [relu]/[max].  Exceptions are values of [result].  Where a
    property turns on rounding (the dictionary keys of [LabTransCoxTime]),
    the code is embedded a second time over binary64 floats. *)

From Stdlib Require Import String Reals Lra Lia ZArith Bool List.
From Stdlib Require Floats.
Import ListNotations.
Open Scope R_scope.

(** ** Exceptions *)

Inductive exn : Type :=
| ValueError (msg : string)      (* raised by the code itself *)
| IndexError                     (* backend: index out of bounds *)
| RuntimeError                   (* backend: reduction over no element *)
| AttributeError (attr : string) (* Python: attribute never assigned *).

Inductive result (A : Type) : Type :=
| Ok (a : A)
| Raise (e : exn).
Arguments Ok {A} a.
Arguments Raise {A} e.

Definition bind {A B} (r : result A) (k : A -> result B) : result B :=
  match r with
  | Ok a => k a
  | Raise e => Raise e
  end.

Notation "x <- e ;; k" := (bind e (fun x => k))
  (at level 61, e at next level, right associativity).

Definition fmap {A B} (f : A -> B) (r : result A) : result B :=
  x <- r ;; Ok (f x).

Definition is_ok {A} (r : result A) : Prop :=
  match r with Ok _ => True | Raise _ => False end.

Definition fails {A} (r : result A) : Prop :=
  match r with Ok _ => False | Raise _ => True end.

(** ** Tensor operations of the backend *)

Module Tensor.

(** A two-dimensional tensor: its rows and the size of dimension 1. *)
Record tensor2 : Type := mk2 { rows : list (list R); shape1 : nat }.

Definition wf2 (t : tensor2) : Prop :=
  Forall (fun r => length r = shape1 t) (rows t).

(** Elementwise operations act on tensors of one shape (the backend raises
    or broadcasts otherwise; the losses combine vectors of the batch size). *)
Fixpoint zip_with {A B C} (f : A -> B -> C) (l1 : list A) (l2 : list B) : list C :=
  match l1, l2 with
  | a :: l1', b :: l2' => f a b :: zip_with f l1' l2'
  | _, _ => []
  end.

Definition relu (x : R) : R := Rmax 0 x.

Definition vadd := zip_with Rplus.
Definition vsub := zip_with Rminus.
Definition vmul := zip_with Rmult.
Definition vneg := map Ropp.
Definition vlog := map ln.
Definition vexp := map exp.
Definition vrelu := map relu.
Definition vadds (v : list R) (c : R) := map (fun x => x + c) v.

Definition vsum (v : list R) : R := fold_right Rplus 0 v.
Definition vmean (v : list R) : R := vsum v / INR (length v).

(** [t.max()] over a vector of integers; the backend refuses no element. *)
Definition zmax (v : list Z) : result Z :=
  match v with
  | [] => Raise RuntimeError
  | x :: t => Ok (fold_left Z.max t x)
  end.

(** Row maximum, [t.max(1)[0]] on one row. *)
Definition row_max (row : list R) : R :=
  match row with
  | [] => 0
  | x :: t => fold_left Rmax t x
  end.

(** [cumsum] along a row. *)
Fixpoint cumsum_from (acc : R) (row : list R) : list R :=
  match row with
  | [] => []
  | x :: t => (acc + x) :: cumsum_from (acc + x) t
  end.
Definition cumsum (row : list R) : list R := cumsum_from 0 row.

(** [t.gather(1, index)] with one index per row: the backend accepts an
    index in [0, size) only, and no more indices than rows. *)
Fixpoint gather (M : list (list R)) (index : list Z) : result (list R) :=
  match M, index with
  | row :: M', i :: index' =>
      if ((0 <=? i) && (i <? Z.of_nat (length row)))%Z
      then v <- gather M' index' ;; Ok (nth (Z.to_nat i) row 0 :: v)
      else Raise IndexError
  | [], _ :: _ => Raise RuntimeError
  | _, [] => Ok []
  end.

(** Python indexing with an integer: an index in [-size, size) is accepted,
    a negative one counts from the end. *)
Definition py_index (size : nat) (i : Z) : result nat :=
  if ((0 <=? i) && (i <? Z.of_nat size))%Z then Ok (Z.to_nat i)
  else if ((- Z.of_nat size <=? i) && (i <? 0))%Z then Ok (Z.to_nat (i + Z.of_nat size))
  else Raise IndexError.

(** [softmax] of one row. *)
Definition softmax (row : list R) : list R :=
  let e := vexp row in map (fun x => x / vsum e) e.

(** Modelled from the spec: [pad_col] of [pycox.models.utils] is not part of
    the sources; the specification has it append a zero column to [phi]. *)
Definition pad_col (t : tensor2) : tensor2 :=
  mk2 (map (fun r => r ++ [0]) (rows t)) (S (shape1 t)).

(** A three-dimensional tensor [batch, n_risks, n_durations]. *)
Record tensor3 : Type :=
  mk3 { samples : list (list (list R)); shape3_1 : nat; shape3_2 : nat }.

Definition wf3 (t : tensor3) : Prop :=
  Forall (fun s => length s = shape3_1 t /\
                   Forall (fun r => length r = shape3_2 t) s) (samples t).

(** [t.view(batch_size, -1)]. *)
Definition flatten3 (t : tensor3) : tensor2 :=
  mk2 (map (@concat R) (samples t)) (shape3_1 t * shape3_2 t).

(** [n] consecutive pieces of [k] entries, the inverse of [concat] on one row. *)
Fixpoint chunks (k n : nat) (row : list R) : list (list R) :=
  match n with
  | O => []
  | S n' => firstn k row :: chunks k n' (skipn k row)
  end.

(** [t.view(shape)] back to three dimensions. *)
Definition view3 (n_risks n_durations : nat) (t : tensor2) : tensor3 :=
  mk3 (map (chunks n_durations n_risks) (rows t)) n_risks n_durations.

(** [t.softmax(1)]. *)
Definition softmax1 (t : tensor2) : tensor2 :=
  mk2 (map softmax (rows t)) (shape1 t).

(** [t[:, :-1]]. *)
Definition drop_last_col (t : tensor2) : tensor2 :=
  mk2 (map (@removelast R) (rows t)) (pred (shape1 t)).

(** [t[:, i, :]]. *)
Definition select_risk (t : tensor3) (i : nat) : tensor2 :=
  mk2 (map (fun s => nth i s []) (samples t)) (shape3_2 t).

Definition dot (u v : list R) : R := vsum (vmul u v).

(** [t.transpose(0, 1)]. *)
Definition transpose (t : tensor2) : tensor2 :=
  mk2 (map (fun j => map (fun r => nth j r 0) (rows t)) (seq 0 (shape1 t)))
      (length (rows t)).

(** [a.matmul(b)]; the inner sizes agree at every call of the losses. *)
Definition matmul (a b : tensor2) : tensor2 :=
  mk2 (map (fun r => map (dot r) (rows (transpose b))) (rows a)) (shape1 b).

(** [t.diag()]. *)
Definition diag (t : tensor2) : list R :=
  map (fun i => nth i (nth i (rows t) []) 0)
      (seq 0 (Nat.min (length (rows t)) (shape1 t))).

(** [v.view(1, -1)]. *)
Definition as_row (v : list R) : tensor2 := mk2 [v] (length v).

(** [torch.ones((n, 1))]. *)
Definition ones_col (n : nat) : tensor2 := mk2 (repeat [1] n) 1.

(** Elementwise operations on two tensors of one shape. *)
Definition msub (a b : tensor2) : tensor2 :=
  mk2 (zip_with vsub (rows a) (rows b)) (shape1 a).
Definition mmul (a b : tensor2) : tensor2 :=
  mk2 (zip_with vmul (rows a) (rows b)) (shape1 a).
Definition mmap (f : R -> R) (a : tensor2) : tensor2 :=
  mk2 (map (map f) (rows a)) (shape1 a).

(** [t.mean(1, keepdim=True)]: one mean per row, as a column. *)
Definition mean1_keepdim (a : tensor2) : tensor2 :=
  mk2 (map (fun r => [vmean r]) (rows a)) 1.

(** One row of a one-hot matrix. *)
Definition one_hot (size j : nat) : list R :=
  map (fun k => if Nat.eqb k j then 1 else 0) (seq 0 size).

(** [torch.zeros_like(t).scatter(1, index, 1.)] on [n] rows of [size]
    entries with one index per row: like [gather], the backend accepts an
    index in [0, size) only and no more indices than rows; a row without an
    index stays zero. *)
Fixpoint scatter_one_hot (size : nat) (n : nat) (index : list Z) : result (list (list R)) :=
  match n, index with
  | S n', i :: index' =>
      if ((0 <=? i) && (i <? Z.of_nat size))%Z
      then y <- scatter_one_hot size n' index' ;; Ok (one_hot size (Z.to_nat i) :: y)
      else Raise IndexError
  | O, _ :: _ => Raise RuntimeError
  | _, [] => Ok (repeat (repeat 0 size) n)
  end.

End Tensor.
Import Tensor.

(** ** [pycox/models/loss.py] *)

(** What a loss returns: a scalar, a vector [n] or a matrix (the rank loss
    without reduction has shape [n, 1]). *)
Inductive out : Type :=
| Scalar (x : R)
| Vec (v : list R)
| Mat (m : list (list R)).

(** [t.sum()] and [t.mean()] over every entry. *)
Definition out_entries (o : out) : list R :=
  match o with
  | Scalar x => [x]
  | Vec v => v
  | Mat m => concat m
  end.
Definition out_sum (o : out) : R := vsum (out_entries o).
Definition out_mean (o : out) : R := vmean (out_entries o).

(** [c * t] for a Python float [c]. *)
Definition out_scale (c : R) (o : out) : out :=
  match o with
  | Scalar x => Scalar (c * x)
  | Vec v => Vec (map (Rmult c) v)
  | Mat m => Mat (map (map (Rmult c)) m)
  end.

(** A row against a row, a row of one entry being broadcast. *)
Definition row_add (u v : list R) : list R :=
  match u, v with
  | [x], _ => map (Rplus x) v
  | _, [y] => map (fun a => a + y) u
  | _, _ => vadd u v
  end.

(** [a + b] with the backend's broadcasting, for the shapes the losses
    produce. *)
Definition out_add (a b : out) : out :=
  match a, b with
  | Scalar x, Scalar y => Scalar (x + y)
  | Scalar x, Vec v => Vec (map (Rplus x) v)
  | Vec v, Scalar y => Vec (map (fun a => a + y) v)
  | Scalar x, Mat m => Mat (map (map (Rplus x)) m)
  | Mat m, Scalar y => Mat (map (map (fun a => a + y)) m)
  | Vec u, Vec v => Vec (row_add u v)
  | Vec u, Mat m => Mat (map (row_add u) m)
  | Mat m, Vec v => Mat (map (fun r => row_add r v) m)
  | Mat m, Mat m' => Mat (zip_with row_add m m')
  end.

(** Python's [sum] of a list: [0 + x0 + x1 + ...]. *)
Definition py_sum (l : list out) : out := fold_left out_add l (Scalar 0).

Definition reduction_msg (reduction : string) : string :=
  "`reduction` = " ++ reduction ++ " is not valid. Use 'none', 'mean' or 'sum'.".
Definition t_idx_msg : string :=
  "'t_idx' too large. Probably need to increase output size of net.".

Definition _reduction (loss : out) (reduction : string) : result out :=
  if String.eqb reduction "none" then Ok loss
  else if String.eqb reduction "mean" then Ok (Scalar (out_mean loss))
  else if String.eqb reduction "sum" then Ok (Scalar (out_sum loss))
  else Raise (ValueError (reduction_msg reduction)).

(** The default of the keyword argument [epsilon]. *)
Definition epsilon_default : R := 1 / 10000000.

Definition nll_pmf (phi : tensor2) (idx_durations : list Z) (events : list R)
    (reduction : string) (epsilon : R) : result out :=
  m <- zmax idx_durations ;;
  if (Z.of_nat (shape1 phi) <=? m)%Z then Raise (ValueError t_idx_msg) else
  let phi := pad_col phi in
  let gamma := map row_max (rows phi) in
  let cumsum := zip_with (fun row g => cumsum (map (fun x => exp (x - g)) row))
                  (rows phi) gamma in
  let sum_ := map (fun c => last c 0) cumsum in
  g1 <- gather (rows phi) idx_durations ;;
  let part1 := vmul (vsub g1 gamma) events in
  let part2 := vneg (vlog (vadds (vrelu sum_) epsilon)) in
  g3 <- gather cumsum idx_durations ;;
  let part3 := vmul (vlog (vadds (vrelu (vsub sum_ g3)) epsilon))
                 (map (fun e => 1 - e) events) in
  let loss := vneg (vadd (vadd part1 part2) part3) in
  _reduction (Vec loss) reduction.

Definition _diff_cdf_at_time_i (pmf y : tensor2) : tensor2 :=
  let n := length (rows pmf) in
  let ones := ones_col n in
  let r := matmul (mk2 (map cumsum (rows pmf)) (shape1 pmf)) (transpose y) in
  let diag_r := as_row (diag r) in
  let r := msub (matmul ones diag_r) r in
  transpose r.

Definition _rank_loss_deephit (pmf y rank_mat : tensor2) (sigma : R)
    (reduction : string) : result out :=
  let r := _diff_cdf_at_time_i pmf y in
  let loss := mmul rank_mat (mmap (fun x => exp (- x / sigma)) r) in
  let loss := mean1_keepdim loss in
  _reduction (Mat (rows loss)) reduction.

Definition rank_loss_deephit_single (phi : tensor2) (idx_durations : list Z)
    (events : list R) (rank_mat : tensor2) (sigma : R) (reduction : string)
    : result out :=
  let pmf := softmax1 (pad_col phi) in
  y <- scatter_one_hot (shape1 pmf) (length (rows pmf)) idx_durations ;;
  _rank_loss_deephit pmf (mk2 y (shape1 pmf)) rank_mat sigma reduction.

(** [(v != c).float()] and [(v == c).float()] on integers. *)
Definition neq_float (c : Z) (v : list Z) : list R :=
  map (fun e => if Z.eqb e c then 0 else 1) v.
Definition eq_float (c : Z) (v : list Z) : list R :=
  map (fun e => if Z.eqb e c then 1 else 0) v.

(** [sm[index, events, idx_durations]] with [index = arange(batch_size)], one
    event label and one bin index per sample. *)
Fixpoint index3 (n_risks n_durations : nat) (sm : list (list (list R)))
    (events idx_durations : list Z) : result (list R) :=
  match sm, events, idx_durations with
  | s :: sm', e :: events', d :: idx' =>
      r <- py_index n_risks e ;;
      k <- py_index n_durations d ;;
      v <- index3 n_risks n_durations sm' events' idx' ;;
      Ok (nth k (nth r s []) 0 :: v)
  | _, _, _ => Ok []
  end.

(** [c[index, :, idx_durations]]: one row over the risks per sample. *)
Fixpoint index_all_risks (n_durations : nat) (c : list (list (list R)))
    (idx_durations : list Z) : result (list (list R)) :=
  match c, idx_durations with
  | s :: c', d :: idx' =>
      k <- py_index n_durations d ;;
      v <- index_all_risks n_durations c' idx' ;;
      Ok (map (fun r => nth k r 0) s :: v)
  | _, _ => Ok []
  end.

(** The joint softmax of [nll_pmf_cr] and [rank_loss_deephit_cr]:
    [pad_col(phi.view(batch_size, -1)).softmax(1)[:, :-1].view(phi.shape)]. *)
Definition joint_softmax (phi : tensor3) : tensor3 :=
  view3 (shape3_1 phi) (shape3_2 phi)
    (drop_last_col (softmax1 (pad_col (flatten3 phi)))).

(** [events.view(-1) - 1]. *)
Definition minus_one (events : list Z) : list Z := map (fun e => (e - 1)%Z) events.

Definition nll_pmf_cr (phi : tensor3) (idx_durations : list Z) (events : list Z)
    (reduction : string) (epsilon : R) : result out :=
  let events := minus_one events in
  let event_01 := neq_float (-1) events in
  let sm := joint_softmax phi in
  g <- index3 (shape3_1 sm) (shape3_2 sm) (samples sm) events idx_durations ;;
  let part1 := vmul (vlog (vadds (vrelu g) epsilon)) event_01 in
  c <- index_all_risks (shape3_2 sm) (map (map cumsum) (samples sm)) idx_durations ;;
  let part2 := vmul (vlog (vadds (vrelu (map (fun x => 1 - x) (map vsum c))) epsilon))
                 (map (fun e => 1 - e) event_01) in
  let loss := vneg (vadd part1 part2) in
  _reduction (Vec loss) reduction.

(** [y[torch.arange(batch_size), :, idx_durations] = 1.] on zeros. *)
Fixpoint assign_one_hot (n_risks n_durations : nat) (batch_size : nat)
    (idx_durations : list Z) : result (list (list (list R))) :=
  match batch_size, idx_durations with
  | S b, d :: idx' =>
      k <- py_index n_durations d ;;
      y <- assign_one_hot n_risks n_durations b idx' ;;
      Ok (repeat (one_hot n_durations k) n_risks :: y)
  | _, _ => Ok []
  end.

(** The loop of [rank_loss_deephit_cr] over [range(n_risks)]. *)
Fixpoint rank_loss_per_risk (pmf y : tensor3) (events : list Z)
    (rank_mat : tensor2) (sigma : R) (risks : list nat) : result (list out) :=
  match risks with
  | [] => Ok []
  | i :: risks' =>
      rank_loss_i <- _rank_loss_deephit (select_risk pmf i) (select_risk y i)
                       rank_mat sigma "none" ;;
      let lo := Vec (vmul (out_entries rank_loss_i) (eq_float (Z.of_nat i) events)) in
      loss <- rank_loss_per_risk pmf y events rank_mat sigma risks' ;;
      Ok (lo :: loss)
  end.

Definition rank_loss_deephit_cr (phi : tensor3) (idx_durations : list Z)
    (events : list Z) (rank_mat : tensor2) (sigma : R) (reduction : string)
    : result out :=
  let events := minus_one events in
  let batch_size := length (samples phi) in
  let n_risks := shape3_1 phi in
  let pmf := joint_softmax phi in
  y <- assign_one_hot n_risks (shape3_2 phi) batch_size idx_durations ;;
  let y := mk3 y n_risks (shape3_2 phi) in
  loss <- rank_loss_per_risk pmf y events rank_mat sigma (seq 0 n_risks) ;;
  if String.eqb reduction "none" then Ok (py_sum loss)
  else if String.eqb reduction "mean"
       then Ok (py_sum (map (fun lo => Scalar (out_mean lo)) loss))
  else if String.eqb reduction "sum"
       then Ok (py_sum (map (fun lo => Scalar (out_sum lo)) loss))
  else (* [_reduction] on the Python list: no mode is left *)
    Raise (ValueError (reduction_msg reduction)).

(** ** Methods: a state monad over the object [self]

    A method receives [self] and returns the object it leaves behind together
    with its result or exception. *)

Definition method (S A : Type) : Type := S -> S * result A.

Definition ret {S A} (a : A) : method S A := fun self => (self, Ok a).
Definition raise {S A} (e : exn) : method S A := fun self => (self, Raise e).
Definition lift {S A} (r : result A) : method S A := fun self => (self, r).
Definition getattr {S A} (field : S -> A) : method S A :=
  fun self => (self, Ok (field self)).
Definition setattr {S} (update : S -> S) : method S unit :=
  fun self => (update self, Ok tt).
Definition mbind {S A B} (m : method S A) (k : A -> method S B) : method S B :=
  fun self =>
    match m self with
    | (self', Ok a) => k a self'
    | (self', Raise e) => (self', Raise e)
    end.

Notation "x <~ m ;; k" := (mbind m (fun x => k))
  (at level 61, m at next level, right associativity).

(** ** The loss modules *)

Module LossModules.

Record NLLPMFLoss : Type := mkNLLPMFLoss { nll_reduction : string }.

Record DeepHitSingleLoss : Type :=
  mkDeepHitSingleLoss { dhs_reduction : string; dhs_alpha : R; dhs_sigma : R }.

Record DeepHitLoss : Type :=
  mkDeepHitLoss { dh_reduction : string; dh_alpha : R; dh_sigma : R }.

Definition NLLPMFLoss_forward (phi : tensor2) (idx_durations : list Z)
    (events : list R) : method NLLPMFLoss out :=
  reduction <~ getattr nll_reduction ;;
  lift (nll_pmf phi idx_durations events reduction epsilon_default).

Definition DeepHitSingleLoss_forward (phi : tensor2) (idx_durations : list Z)
    (events : list R) (rank_mat : tensor2) : method DeepHitSingleLoss out :=
  reduction <~ getattr dhs_reduction ;;
  nll <~ lift (nll_pmf phi idx_durations events reduction epsilon_default) ;;
  sigma <~ getattr dhs_sigma ;;
  reduction <~ getattr dhs_reduction ;;
  rank_loss <~ lift (rank_loss_deephit_single phi idx_durations events rank_mat
                       sigma reduction) ;;
  alpha <~ getattr dhs_alpha ;;
  ret (out_add (out_scale alpha nll) (out_scale (1 - alpha) rank_loss)).

Definition DeepHitLoss_forward (phi : tensor3) (idx_durations : list Z)
    (events : list Z) (rank_mat : tensor2) : method DeepHitLoss out :=
  reduction <~ getattr dh_reduction ;;
  nll <~ lift (nll_pmf_cr phi idx_durations events reduction epsilon_default) ;;
  sigma <~ getattr dh_sigma ;;
  reduction <~ getattr dh_reduction ;;
  rank_loss <~ lift (rank_loss_deephit_cr phi idx_durations events rank_mat
                       sigma reduction) ;;
  alpha <~ getattr dh_alpha ;;
  ret (out_add (out_scale alpha nll) (out_scale (1 - alpha) rank_loss)).

(** A training loop: [forward] on one batch after the other. *)
Fixpoint run_calls {S A} (calls : list (method S A)) (self : S) : S * list (result A) :=
  match calls with
  | [] => (self, [])
  | call :: calls' =>
      let '(self', r) := call self in
      let '(self'', rs) := run_calls calls' self' in
      (self'', r :: rs)
  end.

End LossModules.

(** ** [pycox/preprocessing/label_transforms.py] *)

Module LabelTransforms.

(** *** The scaler of [sklearn.preprocessing]

    [StandardScaler] is a library class: [fit_transform] stores the mean and
    the standard deviation of the column (a zero deviation is replaced by
    one) and returns the centred and scaled column, each step under its
    flag. *)
Record StandardScaler : Type :=
  mkScaler { with_mean : bool; with_std : bool;
             mean_ : option R; scale_ : option R }.

Definition variance (x : list R) : R :=
  vmean (map (fun v => (v - vmean x) * (v - vmean x)) x).

Definition handle_zeros_in_scale (s : R) : R :=
  if Req_dec_T s 0 then 1 else s.

Definition scaler_transform (sc : StandardScaler) (x : list R) : result (list R) :=
  match mean_ sc, scale_ sc with
  | Some m, Some s =>
      let x := if with_mean sc then map (fun v => v - m) x else x in
      let x := if with_std sc then map (fun v => v / s) x else x in
      Ok x
  | _, _ => Raise (AttributeError "mean_")
  end.

Definition scaler_fit_transform (x : list R) : method StandardScaler (list R) :=
  match x with
  | [] => raise (ValueError "Found array with 0 sample(s)")
  | _ =>
      _ <~ setattr (fun sc => mkScaler (with_mean sc) (with_std sc)
                       (Some (vmean x))
                       (Some (handle_zeros_in_scale (sqrt (variance x))))) ;;
      sc <~ getattr (fun sc => sc) ;;
      lift (scaler_transform sc x)
  end.

(** *** A Python [dict] keyed by floats, the newest binding first. *)
Definition dict : Type := list (R * R).

Definition dict_set (d : dict) (k v : R) : dict := (k, v) :: d.

Fixpoint dict_get (d : dict) (k : R) : option R :=
  match d with
  | [] => None
  | (k', v) :: d' => if Req_dec_T k' k then Some v else dict_get d' k
  end.

(** *** [LabTransCoxTime] *)
Record LabTransCoxTime : Type :=
  mkLabTransCoxTime { log_duration : bool;
                      duration_scaler : StandardScaler;
                      _inverse_duration_map : option dict }.

(** [__init__(log_duration, with_mean, with_std)]. *)
Definition LabTransCoxTime_init (log_duration with_mean with_std : bool)
    : LabTransCoxTime :=
  mkLabTransCoxTime log_duration (mkScaler with_mean with_std None None) None.

Definition log1p (x : R) : R := ln (1 + x).

(** The property [map_scaled_to_orig]: [np.vectorize(dict.get)], where [get]
    answers [None] on a key the dictionary does not hold. *)
Definition map_scaled_to_orig : method LabTransCoxTime (list R -> list (option R)) :=
  m <~ getattr _inverse_duration_map ;;
  match m with
  | None => raise (ValueError "Need to fit the models before you can call this method")
  | Some d => ret (map (dict_get d))
  end.

(** The [duration_scaler] is an object of its own inside [self]. *)
Definition on_scaler {A} (m : method StandardScaler A) : method LabTransCoxTime A :=
  fun self =>
    let '(sc, r) := m (duration_scaler self) in
    (mkLabTransCoxTime (log_duration self) sc (_inverse_duration_map self), r).

Definition fit_transform (durations events : list R)
    : method LabTransCoxTime (list R * list R) :=
  let train_durations := durations in
  log_d <~ getattr log_duration ;;
  let durations := if (log_d : bool) then map log1p durations else durations in
  durations <~ on_scaler (scaler_fit_transform durations) ;;
  let inverse := fold_left (fun d os => dict_set d (snd os) (fst os))
                   (combine train_durations durations) [] in
  _ <~ setattr (fun self => mkLabTransCoxTime (log_duration self)
                   (duration_scaler self) (Some inverse)) ;;
  ret (durations, events).

(** *** [LabTransDiscreteSurv] *)

(** The argument [cuts]: an [int], a tuple [('str', int)] or an array. *)
Inductive cuts_arg : Type :=
| CutsInt (n : Z)
| CutsScheme (scheme : string) (n : Z)
| CutsArray (a : list R).

Record LabTransDiscreteSurv : Type :=
  mkLabTransDiscreteSurv { _predefinded_cuts : bool;
                           _cuts : cuts_arg;
                           min_ : R;
                           cuts : option (list R);
                           idu : option (list R);
                           (* the warnings issued so far, kept with the object *)
                           warnings : list string }.

(** [__init__(cuts, min_)]; [cuts[0]] of an empty array raises. *)
Definition LabTransDiscreteSurv_init (cuts : cuts_arg) (min_ : R)
    : result LabTransDiscreteSurv :=
  match cuts with
  | CutsInt n => Ok (mkLabTransDiscreteSurv false (CutsScheme "equidistant" n)
                       min_ None None [])
  | CutsScheme s n => Ok (mkLabTransDiscreteSurv false cuts min_ None None [])
  | CutsArray [] => Raise IndexError
  | CutsArray (_ :: _) => Ok (mkLabTransDiscreteSurv true cuts min_ None None [])
  end.

Definition fit_warning : string :=
  "Calling fit method, when 'cuts' are allready definded. Leaving cuts unchanges.".

Section DiscreteSurv.

(** [pycox.preprocessing.discretization] is not part of the sources: [make_cuts]
    and the [transform] of an [IdxDiscUnknownC] built on some cuts are taken
    as they come. *)
Variable make_cuts : cuts_arg -> list R -> list R -> R -> result (list R).
Variable IdxDiscUnknownC_transform :
  list R -> list R -> list R -> result (list Z * list R).

Definition fit (durations events : list R) : method LabTransDiscreteSurv unit :=
  predefined <~ getattr _predefinded_cuts ;;
  if (predefined : bool) then
    setattr (fun self => mkLabTransDiscreteSurv (_predefinded_cuts self)
               (_cuts self) (min_ self) (cuts self) (idu self)
               (warnings self ++ [fit_warning]))
  else
    spec <~ getattr _cuts ;;
    lo <~ getattr min_ ;;
    c <~ lift (make_cuts spec durations events lo) ;;
    _ <~ setattr (fun self => mkLabTransDiscreteSurv (_predefinded_cuts self)
                    (_cuts self) (min_ self) (Some c) (idu self) (warnings self)) ;;
    setattr (fun self => mkLabTransDiscreteSurv (_predefinded_cuts self)
               (_cuts self) (min_ self) (cuts self) (Some c) (warnings self)).

Definition transform (durations events : list R)
    : method LabTransDiscreteSurv (list Z * list R) :=
  i <~ getattr idu ;;
  match i with
  | None => raise (AttributeError "idu")
  | Some c => lift (IdxDiscUnknownC_transform c durations events)
  end.

End DiscreteSurv.

End LabelTransforms.


(** ** Quantities the statements speak about *)

Module Terms.

(** Row [i] of the zero-padded [phi], its maximum [gamma_i], the cumulative
    sum [cumsum_i] of [exp(phi - gamma_i)] over the [K+1] columns and its
    final entry [sum_i]. *)
Definition padded_row (phi : tensor2) (i : nat) : list R :=
  nth i (rows phi) [] ++ [0].
Definition gamma_at (phi : tensor2) (i : nat) : R := row_max (padded_row phi i).
Definition cumsum_at (phi : tensor2) (i : nat) : list R :=
  cumsum (map (fun x => exp (x - gamma_at phi i)) (padded_row phi i)).
Definition sum_at (phi : tensor2) (i : nat) : R := last (cumsum_at phi i) 0.

(** The event term and the censored term of the negative log-likelihood of
    sample [i] observed in bin [d]. *)
Definition event_loss (phi : tensor2) (epsilon : R) (i d : nat) : R :=
  - (nth d (padded_row phi i) 0 - gamma_at phi i
     - ln (relu (sum_at phi i) + epsilon)).
Definition censored_loss (phi : tensor2) (epsilon : R) (i d : nat) : R :=
  - (ln (relu (sum_at phi i - nth d (cumsum_at phi i) 0) + epsilon)
     - ln (relu (sum_at phi i) + epsilon)).

(** Inputs of [nll_pmf] of matching shapes: a batch of at least one sample,
    one index and one event indicator per sample. *)
Definition batch_ok (phi : tensor2) (idx_durations : list Z) (events : list R) : Prop :=
  wf2 phi /\ rows phi <> [] /\
  length idx_durations = length (rows phi) /\
  length events = length (rows phi).

(** Sample [i] of the joint softmax of [nll_pmf_cr], one row per risk. *)
Definition sm_at (phi : tensor3) (i : nat) : list (list R) :=
  nth i (samples (joint_softmax phi)) [].

(** The event term of [nll_pmf_cr] for risk row [r] and bin [d], and its
    censored term for bin [d]. *)
Definition cr_event_loss (phi : tensor3) (epsilon : R) (i r d : nat) : R :=
  - ln (relu (nth d (nth r (sm_at phi i) []) 0) + epsilon).
Definition cr_censored_loss (phi : tensor3) (epsilon : R) (i d : nat) : R :=
  - ln (relu (1 - vsum (map (fun row => nth d (cumsum row) 0) (sm_at phi i)))
        + epsilon).

(** The mask of [nll_pmf_cr] marks an internal label as censored when
    [event_01] is zero there. *)
Definition treated_as_censored (label : Z) : Prop :=
  neq_float (-1) [label] = [0].

(** Inputs of [nll_pmf_cr] of matching shapes, with at least one risk, every
    bin index in [0, K) and every event label in [0, n_risks]. *)
Definition batch_cr_ok (phi : tensor3) (idx_durations events : list Z) : Prop :=
  (1 <= shape3_1 phi)%nat /\
  length idx_durations = length (samples phi) /\
  length events = length (samples phi) /\
  Forall (fun d => (0 <= d < Z.of_nat (shape3_2 phi))%Z) idx_durations /\
  Forall (fun e => (0 <= e <= Z.of_nat (shape3_1 phi))%Z) events.

End Terms.
Import Terms.

(** The three reduction modes the losses accept. *)
Definition valid_reduction (reduction : string) : Prop :=
  (reduction = "none" \/ reduction = "mean" \/ reduction = "sum")%string.

(** A batch of one sample over two bins, with zero logits. *)
Definition phi_zero : tensor2 := mk2 [[0; 0]] 2.

(** A batch of one sample, one risk and two bins, with zero logits. *)
Definition phi3_zero : tensor3 := mk3 [[[0; 0]]] 1 2.

(** The one-hot matrix of the observed bins [T], over [size] bins. *)
Definition one_hot_matrix (size : nat) (T : list nat) : tensor2 :=
  mk2 (map (one_hot size) T) size.

(** [F_i(t)]: the cumulative pmf of sample [i] at bin [t]. *)
Definition cdf_at (pmf : tensor2) (i t : nat) : R :=
  nth t (cumsum (nth i (rows pmf) [])) 0.

(** The example of the specification: two samples over two bins. *)
Definition pmf_example : tensor2 := mk2 [[3/10; 7/10]; [5/10; 5/10]] 2.
Definition y_example : tensor2 := one_hot_matrix 2 [1%nat; 0%nat].

(** The reduction modes of a loss agree: its ['sum'] output is the sum, and
    its ['mean'] output the mean, of its ['none'] output (an exception of
    the one is the exception of the other). *)
Definition modes_consistent (loss : string -> result out) : Prop :=
  loss "sum"%string = fmap (fun o => Scalar (out_sum o)) (loss "none"%string) /\
  loss "mean"%string = fmap (fun o => Scalar (out_mean o)) (loss "none"%string).

(** The per-risk losses of [rank_loss_deephit_cr]: each is a vector of one length [n]. *)
Definition vectors_of_length (n : nat) (loss : list out) : Prop :=
  Forall (fun lo => exists v, lo = Vec v /\ length v = n) loss.


(** What a fitted scaler with mean [m] and deviation [s] does to one value,
    each step under its flag. *)
Definition scale_value (with_mean with_std : bool) (m s : R) (v : R) : R :=
  let v := if with_mean then v - m else v in
  if with_std then v / s else v.

(** Three training durations, one of them twice. *)
Definition durations_example : list R := [1; 5/2; 4; 4].

(** A batch of one sample, one risk and one bin, with the logit -30. *)
Definition phi3_low : tensor3 := mk3 [[[-30]]] 1 1.

(** ** The remaining methods of [label_transforms.py] *)

Module LabelTransformsMethods.
Import LabelTransforms.

(** [StandardScaler.transform]: the scaler must be fitted, and the column
    must hold a sample. *)
Definition scaler_transform_method (x : list R) : method StandardScaler (list R) :=
  sc <~ getattr (fun sc => sc) ;;
  match mean_ sc, scale_ sc with
  | Some _, Some _ =>
      match x with
      | [] => raise (ValueError "Found array with 0 sample(s)")
      | _ => lift (scaler_transform sc x)
      end
  | _, _ => raise (AttributeError "mean_")
  end.

(** [LabTransCoxTime.transform]. *)
Definition LabTransCoxTime_transform (durations events : list R)
    : method LabTransCoxTime (list R * list R) :=
  log_d <~ getattr log_duration ;;
  let durations := if (log_d : bool) then map log1p durations else durations in
  durations <~ on_scaler (scaler_transform_method durations) ;;
  ret (durations, events).

(** [LabTransCoxTime.fit]: [fit_transform], the result dropped. *)
Definition LabTransCoxTime_fit (durations events : list R)
    : method LabTransCoxTime unit :=
  _ <~ fit_transform durations events ;;
  ret tt.

Section DiscreteSurvMethods.

Variable make_cuts : cuts_arg -> list R -> list R -> R -> result (list R).
Variable IdxDiscUnknownC_transform :
  list R -> list R -> list R -> result (list Z * list R).

(** [LabTransDiscreteSurv.fit_transform]. *)
Definition LabTransDiscreteSurv_fit_transform (durations events : list R)
    : method LabTransDiscreteSurv (list Z * list R) :=
  _ <~ fit make_cuts durations events ;;
  transform IdxDiscUnknownC_transform durations events.

End DiscreteSurvMethods.

(** The index mapper of an instance is built on its current cuts. *)
Definition mapper_on_cuts (self : LabTransDiscreteSurv) : Prop :=
  idu self = cuts self.

End LabelTransformsMethods.

(** ** Further quantities the statements speak about *)

Module MoreTerms.

(** A bin index counted from the end, as Python reads a negative index. *)
Definition from_end (size : nat) (d : Z) : Z :=
  if (d <? 0)%Z then (d + Z.of_nat size)%Z else d.

(** The [n] by [n] matrix of zeros. *)
Definition zeros (n : nat) : tensor2 := mk2 (repeat (repeat 0 n) n) n.

(** Every entry of a loss output. *)
Definition all_entries (P : R -> Prop) (o : out) : Prop :=
  Forall P (out_entries o).

(** A batch for [rank_loss_deephit_single]: at least one sample, one index
    per sample. *)
Definition batch_rank_ok (phi : tensor2) (idx_durations : list Z) : Prop :=
  rows phi <> [] /\ length idx_durations = length (rows phi).

End MoreTerms.
Import MoreTerms.

Module CoxTimeTerms.
Import LabelTransforms.

(** What fitting on [durations] makes of one duration [x]: the optional
    [log1p], then the centring and scaling by the mean and the deviation of
    the (log) training durations. *)
Definition pre_scale (self : LabTransCoxTime) (x : R) : R :=
  if log_duration self then log1p x else x.

Definition fitted_value (self : LabTransCoxTime) (durations : list R) (x : R) : R :=
  let y := map (pre_scale self) durations in
  scale_value (with_mean (duration_scaler self)) (with_std (duration_scaler self))
    (vmean y) (handle_zeros_in_scale (sqrt (variance y))) (pre_scale self x).

(** The instance [fit_transform] leaves behind. *)
Definition fitted (self : LabTransCoxTime) (durations : list R) : LabTransCoxTime :=
  let y := map (pre_scale self) durations in
  mkLabTransCoxTime (log_duration self)
    (mkScaler (with_mean (duration_scaler self)) (with_std (duration_scaler self))
       (Some (vmean y)) (Some (handle_zeros_in_scale (sqrt (variance y)))))
    (Some (fold_left (fun d os => dict_set d (snd os) (fst os))
             (combine durations (map (fitted_value self durations) durations)) [])).

(** What [fit] leaves behind on an instance without pre-supplied cuts once
    [make_cuts] has returned [c]. *)
Definition with_cuts (self : LabTransDiscreteSurv) (c : list R) : LabTransDiscreteSurv :=
  mkLabTransDiscreteSurv (_predefinded_cuts self) (_cuts self) (min_ self)
    (Some c) (Some c) (warnings self).

End CoxTimeTerms.
Import CoxTimeTerms.

(** An integer Python refuses as an index into [size] entries. *)
Definition out_of_bounds (size : nat) (i : Z) : Prop :=
  (i < - Z.of_nat size \/ Z.of_nat size <= i)%Z.

(** ** [LabTransCoxTime] over binary64

    The inverse map of [fit_transform] is a dictionary keyed by the scaled
    durations, which numpy holds as float64: whether two keys are one key is
    a fact of rounding.  Here the same code is embedded with the durations
    as binary64 floats and the arithmetic of the backend. *)

Module CoxTimeFloat.
Import Floats.

Definition fzero : float := 0%float.
Definition fone : float := 1%float.

(** [x.sum()], [len(x)] as a float, [x.mean()] and [x.var()]. *)
Definition fsum (x : list float) : float := fold_left PrimFloat.add x fzero.
Definition flen (x : list float) : float :=
  PrimFloat.of_uint63 (Uint63.of_Z (Z.of_nat (length x))).
Definition fmean (x : list float) : float := PrimFloat.div (fsum x) (flen x).
Definition fvariance (x : list float) : float :=
  let m := fmean x in
  fmean (map (fun v => let c := PrimFloat.sub v m in PrimFloat.mul c c) x).

(** The scaler of [sklearn.preprocessing], on one column of floats. *)
Record StandardScaler64 : Type :=
  mkScaler64 { with_mean64 : bool; with_std64 : bool;
               mean64 : option float; scale64 : option float }.

Definition handle_zeros_in_scale64 (s : float) : float :=
  if PrimFloat.eqb s fzero then fone else s.

Definition scaler_fit_transform64 (x : list float)
    : method StandardScaler64 (list float) :=
  match x with
  | [] => raise (ValueError "Found array with 0 sample(s)")
  | _ =>
      let m := fmean x in
      let s := handle_zeros_in_scale64 (PrimFloat.sqrt (fvariance x)) in
      _ <~ setattr (fun sc => mkScaler64 (with_mean64 sc) (with_std64 sc)
                       (Some m) (Some s)) ;;
      sc <~ getattr (fun sc => sc) ;;
      let x := if with_mean64 sc then map (fun v => PrimFloat.sub v m) x else x in
      let x := if with_std64 sc then map (fun v => PrimFloat.div v s) x else x in
      ret x
  end.

(** A Python [dict] keyed by floats, the newest binding first: two keys are
    one key when they are equal as floats ([0.0 == -0.0]; a [nan] equals no
    key). *)
Definition fdict : Type := list (float * float).

Definition fdict_set (d : fdict) (k v : float) : fdict := (k, v) :: d.

Fixpoint fdict_get (d : fdict) (k : float) : option float :=
  match d with
  | [] => None
  | (k', v) :: d' => if PrimFloat.eqb k' k then Some v else fdict_get d' k
  end.

Record LabTransCoxTime64 : Type :=
  mkLabTransCoxTime64 { log_duration64 : bool;
                        duration_scaler64 : StandardScaler64;
                        inverse_duration_map64 : option fdict }.

Definition LabTransCoxTime64_init (log_duration with_mean with_std : bool)
    : LabTransCoxTime64 :=
  mkLabTransCoxTime64 log_duration (mkScaler64 with_mean with_std None None) None.

Definition on_scaler64 {A} (m : method StandardScaler64 A)
    : method LabTransCoxTime64 A :=
  fun self =>
    let '(sc, r) := m (duration_scaler64 self) in
    (mkLabTransCoxTime64 (log_duration64 self) sc (inverse_duration_map64 self), r).

Definition map_scaled_to_orig64
    : method LabTransCoxTime64 (list float -> list (option float)) :=
  m <~ getattr inverse_duration_map64 ;;
  match m with
  | None => raise (ValueError "Need to fit the models before you can call this method")
  | Some d => ret (map (fdict_get d))
  end.

Section Backend.

(** [np.log1p] and the conversion [astype('float32')] of the backend. *)
Variable log1p64 : float -> float.
Variable to_float32 : float -> float.

Definition fit_transform64 (durations events : list float)
    : method LabTransCoxTime64 (list float * list float) :=
  let train_durations := durations in
  let events := map to_float32 events in
  log_d <~ getattr log_duration64 ;;
  let durations := if (log_d : bool) then map log1p64 durations else durations in
  durations <~ on_scaler64 (scaler_fit_transform64 durations) ;;
  let inverse := fold_left (fun d os => fdict_set d (snd os) (fst os))
                   (combine train_durations durations) [] in
  _ <~ setattr (fun self => mkLabTransCoxTime64 (log_duration64 self)
                   (duration_scaler64 self) (Some inverse)) ;;
  ret (durations, events).

End Backend.

(** Sample [i] keeps its transformed value to itself: the value equals
    itself (it is no [nan]) and equals the value of no sample of another
    duration. *)
Definition separated (durations scaled : list float) (i : nat) : Prop :=
  PrimFloat.eqb (nth i scaled fzero) (nth i scaled fzero) = true /\
  forall j, (j < length durations)%nat ->
    PrimFloat.eqb (nth j scaled fzero) (nth i scaled fzero) = true ->
    nth j durations fzero = nth i durations fzero.

(** The floats nearest to 1e-20 and 2e-20, as Python reads these literals. *)
Definition f1e_20 : float := 0x1.79ca10c924223p-67%float.
Definition f2e_20 : float := 0x1.79ca10c924223p-66%float.

(** Training durations far apart in magnitude, [[1e-20, 2e-20, 1e10]], what
    the inverse map answers on their transformed values, and four ordinary
    durations. *)
Definition durations_collide : list float := [f1e_20; f2e_20; 1e10%float].
Definition looked_up_collide : list (option float) :=
  [Some f2e_20; Some f2e_20; Some 1e10%float].
Definition durations_plain : list float := [1; 2.5; 4; 4]%float.

End CoxTimeFloat.

(** ** Terms of the revised statements *)

Module RevisedTerms.

(** The probability the joint softmax of [nll_pmf_cr] gives the observed
    outcome of sample [i]: the mass of bin [d] in the row of the risk for a
    label [e >= 1], the mass past bin [d] for the label 0.  These are the
    arguments [nll_pmf_cr] clamps, floors and takes the logarithm of. *)
Definition outcome_probability (phi : tensor3) (i : nat) (e : Z) (d : nat) : R :=
  if Z.eqb e 0
  then 1 - vsum (map (fun row => nth d (cumsum row) 0) (sm_at phi i))
  else nth d (nth (Z.to_nat (e - 1)) (sm_at phi i) []) 0.

(** An [n] by [n] matrix, as [pair_rank_mat] builds [rank_mat] for a batch
    of [n] samples. *)
Definition square (n : nat) (m : tensor2) : Prop :=
  wf2 m /\ length (rows m) = n /\ shape1 m = n.

(** A batch of two samples over two bins, and a rank matrix for it. *)
Definition phi_two : tensor2 := mk2 [[0; 0]; [0; 0]] 2.
Definition rank_mat_two : tensor2 := mk2 [[0; 1]; [0; 0]] 2.

End RevisedTerms.
Import RevisedTerms.
(** * Properties *)

(** ** Lists *)

Lemma length_zip_with {A B C} (f : A -> B -> C) l1 l2 :
  length (zip_with f l1 l2) = Nat.min (length l1) (length l2).
Proof.
  revert l2; induction l1 as [|a l1 IH]; intros [|b l2]; simpl; auto.
Qed.

Lemma nth_zip_with {A B C} (f : A -> B -> C) l1 l2 i d d1 d2 :
  (i < length l1)%nat -> (i < length l2)%nat ->
  nth i (zip_with f l1 l2) d = f (nth i l1 d1) (nth i l2 d2).
Proof.
  revert l2 i; induction l1 as [|a l1 IH]; intros [|b l2] [|i]; simpl;
    try lia; auto.
  intros; apply IH; lia.
Qed.

Lemma nth_map_in {A B} (f : A -> B) l i d d' :
  (i < length l)%nat -> nth i (map f l) d = f (nth i l d').
Proof.
  revert i; induction l as [|a l IH]; intros [|i]; simpl; try lia; auto.
  intros; apply IH; lia.
Qed.

(** Side conditions on the lengths of mapped and zipped vectors. *)
Ltac lens := repeat (rewrite ?length_map, ?length_zip_with); lia.

Lemma zmax_bound (t : list Z) (x b : Z) :
  (x < b)%Z -> Forall (fun d => (d < b)%Z) t -> (fold_left Z.max t x < b)%Z.
Proof.
  revert x; induction t as [|y t IH]; simpl; intros x Hx Ht; auto.
  inversion Ht; subst. apply IH; auto. lia.
Qed.

Lemma zmax_ge (t : list Z) (x : Z) :
  (x <= fold_left Z.max t x)%Z /\ Forall (fun d => (d <= fold_left Z.max t x)%Z) t.
Proof.
  revert x; induction t as [|y t IH]; simpl; intros x.
  - split; [lia | constructor].
  - destruct (IH (Z.max x y)) as [H1 H2]. split; [lia|].
    constructor; [lia | assumption].
Qed.

(** [gather] succeeds exactly on indices inside their rows. *)
Lemma gather_ok (M : list (list R)) (index : list Z) :
  length index = length M ->
  (forall i, (i < length M)%nat ->
     (0 <= nth i index 0 < Z.of_nat (length (nth i M [])))%Z) ->
  gather M index =
    Ok (zip_with (fun row d => nth (Z.to_nat d) row 0) M index).
Proof.
  revert index; induction M as [|row M IH]; intros [|d index] Hlen Hin;
    simpl in *; try discriminate; auto.
  assert (H0 := Hin 0%nat ltac:(lia)). simpl in H0.
  replace ((0 <=? d)%Z && (d <? Z.of_nat (length row))%Z) with true
    by (symmetry; apply andb_true_iff; split; [apply Z.leb_le | apply Z.ltb_lt]; lia).
  rewrite IH; auto.
  intros i Hi. apply (Hin (S i)). lia.
Qed.

Lemma gather_negative (M : list (list R)) (index : list Z) :
  length index = length M ->
  Exists (fun d => (d < 0)%Z) index ->
  gather M index = Raise IndexError.
Proof.
  revert index; induction M as [|row M IH]; intros [|d index] Hlen Hex;
    simpl in *; try discriminate; try (inversion Hex; fail).
  destruct ((0 <=? d)%Z && (d <? Z.of_nat (length row))%Z) eqn:E; auto.
  inversion Hex; subst.
  - apply andb_true_iff in E. destruct E as [E _]. apply Z.leb_le in E. lia.
  - rewrite IH; auto.
Qed.

(** ** [nll_pmf] *)

Lemma reduction_none (loss : out) : _reduction loss "none" = Ok loss.
Proof. reflexivity. Qed.

Lemma zmax_in_range (idx : list Z) (K : nat) :
  idx <> [] -> Forall (fun d => (d < Z.of_nat K)%Z) idx ->
  exists m, zmax idx = Ok m /\ (Z.of_nat K <=? m)%Z = false.
Proof.
  destruct idx as [|x t]; [congruence|]. intros _ H. inversion H; subst.
  eexists; split; [reflexivity|]. apply Z.leb_gt. apply zmax_bound; auto.
Qed.

Lemma rows_pad_col (phi : tensor2) (i : nat) :
  (i < length (rows phi))%nat ->
  nth i (rows (pad_col phi)) [] = padded_row phi i.
Proof.
  intros Hi. unfold pad_col, padded_row; simpl.
  apply (nth_map_in (fun r => r ++ [0])); auto.
Qed.

Lemma length_cumsum_from acc row : length (cumsum_from acc row) = length row.
Proof. revert acc; induction row; simpl; intros; auto. Qed.

Lemma length_cumsum row : length (cumsum row) = length row.
Proof. apply length_cumsum_from. Qed.

(** On a batch with every index inside [0, K), [nll_pmf] reduces the vector
    of the per-sample expressions below. *)
Lemma nll_pmf_value (phi : tensor2) (idx : list Z) (events : list R) (eps : R) :
  batch_ok phi idx events ->
  Forall (fun d => (0 <= d < Z.of_nat (shape1 phi))%Z) idx ->
  exists loss,
    (forall reduction,
       nll_pmf phi idx events reduction eps = _reduction (Vec loss) reduction) /\
    length loss = length (rows phi) /\
    forall i, (i < length (rows phi))%nat ->
      let d := Z.to_nat (nth i idx 0%Z) in
      let e := nth i events 0 in
      nth i loss 0 =
        - ((nth d (padded_row phi i) 0 - gamma_at phi i) * e
           + - ln (relu (sum_at phi i) + eps)
           + ln (relu (sum_at phi i - nth d (cumsum_at phi i) 0) + eps) * (1 - e)).
Proof.
  intros (Hwf & Hne & Hli & Hle) Hidx.
  assert (Hidx_ne : idx <> []).
  { intro E; subst; simpl in Hli. destruct (rows phi); [congruence|discriminate]. }
  destruct (zmax_in_range idx (shape1 phi) Hidx_ne) as (m & Hm & Hlt).
  { eapply Forall_impl; [|exact Hidx]. simpl; intros; lia. }
  assert (Hstart : forall reduction,
            nll_pmf phi idx events reduction eps =
            (let phi := pad_col phi in
             let gamma := map row_max (rows phi) in
             let cumsum := zip_with (fun row g => cumsum (map (fun x => exp (x - g)) row))
                             (rows phi) gamma in
             let sum_ := map (fun c => last c 0) cumsum in
             g1 <- gather (rows phi) idx ;;
             let part1 := vmul (vsub g1 gamma) events in
             let part2 := vneg (vlog (vadds (vrelu sum_) eps)) in
             g3 <- gather cumsum idx ;;
             let part3 := vmul (vlog (vadds (vrelu (vsub sum_ g3)) eps))
                            (map (fun e => 1 - e) events) in
             let loss := vneg (vadd (vadd part1 part2) part3) in
             _reduction (Vec loss) reduction)).
  { intros reduction. unfold nll_pmf. rewrite Hm. cbn [bind]. rewrite Hlt.
    reflexivity. }
  assert (Hrow : forall i, (i < length (rows phi))%nat ->
            length (nth i (rows phi) []) = shape1 phi).
  { intros i Hi. unfold wf2 in Hwf. rewrite Forall_forall in Hwf.
    apply Hwf. apply nth_In; auto. }
  assert (Hnth : forall i, (i < length (rows phi))%nat ->
            (0 <= nth i idx 0 < Z.of_nat (shape1 phi))%Z).
  { intros i Hi. rewrite Forall_forall in Hidx. apply Hidx.
    apply nth_In. lia. }
  assert (Hlp : length (rows (pad_col phi)) = length (rows phi))
    by (simpl; apply length_map).
  set (gamma := map row_max (rows (pad_col phi))).
  set (cs := zip_with (fun row g => cumsum (map (fun x => exp (x - g)) row))
               (rows (pad_col phi)) gamma).
  assert (Hlg : length gamma = length (rows phi))
    by (unfold gamma; rewrite length_map; auto).
  assert (Hlcs : length cs = length (rows phi))
    by (unfold cs; rewrite length_zip_with; lia).
  assert (Hg : forall i, (i < length (rows phi))%nat ->
            nth i gamma 0 = gamma_at phi i).
  { intros i Hi. unfold gamma.
    rewrite (nth_map_in row_max _ i 0 []) by lia.
    rewrite rows_pad_col by auto. reflexivity. }
  assert (Hcs : forall i, (i < length (rows phi))%nat ->
            nth i cs [] = cumsum_at phi i).
  { intros i Hi. unfold cs.
    rewrite (nth_zip_with _ _ _ i [] [] 0) by lia.
    rewrite rows_pad_col, Hg by auto. reflexivity. }
  assert (Hg1 : gather (rows (pad_col phi)) idx =
                Ok (zip_with (fun row d => nth (Z.to_nat d) row 0)
                      (rows (pad_col phi)) idx)).
  { apply gather_ok; [lia|].
    intros i Hi. rewrite rows_pad_col by lia. unfold padded_row.
    rewrite length_app, Hrow by lia. simpl. specialize (Hnth i ltac:(lia)). lia. }
  assert (Hg3 : gather cs idx =
                Ok (zip_with (fun row d => nth (Z.to_nat d) row 0) cs idx)).
  { apply gather_ok; [lia|].
    intros i Hi. rewrite Hcs by lia. unfold cumsum_at, padded_row.
    rewrite length_cumsum, length_map, length_app, Hrow by lia.
    simpl. specialize (Hnth i ltac:(lia)). lia. }
  eexists; split.
  { intros reduction. rewrite Hstart. cbv zeta. fold gamma. fold cs.
    rewrite Hg1. cbn [bind]. rewrite Hg3. cbn [bind]. reflexivity. }
  assert (Hlsum : length (map (fun c => last c 0) cs) = length (rows phi))
    by (rewrite length_map; lia).
  assert (Hlg1 : length (zip_with (fun row d => nth (Z.to_nat d) row 0)
                           (rows (pad_col phi)) idx) = length (rows phi))
    by (rewrite length_zip_with; lia).
  assert (Hlg3 : length (zip_with (fun row d => nth (Z.to_nat d) row 0) cs idx)
                 = length (rows phi))
    by (rewrite length_zip_with; lia).
  unfold vneg, vadd, vmul, vsub, vlog, vadds, vrelu.
  split.
  - repeat (rewrite ?length_map, ?length_zip_with). lia.
  - intros i Hi. cbv zeta.
    rewrite (nth_map_in Ropp _ i 0 0)
      by lens.
    f_equal.
    rewrite (nth_zip_with Rplus _ _ i 0 0 0)
      by lens.
    rewrite (nth_zip_with Rplus _ _ i 0 0 0)
      by lens.
    rewrite (nth_zip_with Rmult _ events i 0 0 0)
      by lens.
    rewrite (nth_zip_with Rminus _ gamma i 0 0 0)
      by lens.
    rewrite (nth_zip_with _ (rows (pad_col phi)) idx i 0 [] 0%Z) by lia.
    rewrite (nth_zip_with Rmult _ (map _ events) i 0 0 0)
      by lens.
    rewrite (nth_map_in Ropp _ i 0 0)
      by lens.
    rewrite !(nth_map_in ln _ i 0 0)
      by lens.
    rewrite !(nth_map_in (fun x => x + eps) _ i 0 0)
      by lens.
    rewrite !(nth_map_in relu _ i 0 0)
      by lens.
    rewrite (nth_zip_with Rminus _ _ i 0 0 0)
      by lens.
    rewrite (nth_zip_with _ cs idx i 0 [] 0%Z) by lia.
    rewrite !(nth_map_in (fun c => last c 0) _ i 0 []) by lia.
    rewrite (nth_map_in (fun e => 1 - e) events i 0 0) by lia.
    rewrite rows_pad_col, Hg, Hcs by lia.
    reflexivity.
Qed.

(** C1: without reduction [nll_pmf] returns one loss per sample; for a sample
    with event indicator 1 it is [-(phi[i, idx_i] - gamma_i - log(sum_i))],
    for a sample with event indicator 0 it is
    [-(log(sum_i - cumsum_i[idx_i]) - log(sum_i))], where [gamma_i] is the
    maximum of the zero-padded row, [cumsum_i] the cumulative sum of
    [exp(phi - gamma_i)] over the [K+1] columns and [sum_i] its final entry;
    what enters a logarithm is clamped at zero and has [epsilon] added. *)
Theorem nll_pmf_per_sample (phi : tensor2) (idx : list Z) (events : list R) (eps : R) :
  batch_ok phi idx events ->
  Forall (fun d => (0 <= d < Z.of_nat (shape1 phi))%Z) idx ->
  exists loss,
    nll_pmf phi idx events "none" eps = Ok (Vec loss) /\
    length loss = length (rows phi) /\
    forall i, (i < length (rows phi))%nat ->
      (nth i events 0 = 1 ->
       nth i loss 0 = event_loss phi eps i (Z.to_nat (nth i idx 0%Z))) /\
      (nth i events 0 = 0 ->
       nth i loss 0 = censored_loss phi eps i (Z.to_nat (nth i idx 0%Z))).
Proof.
  intros Hb Hidx.
  destruct (nll_pmf_value phi idx events eps Hb Hidx) as (loss & Hred & Hlen & Hval).
  exists loss. split; [rewrite Hred; reflexivity|]. split; [exact Hlen|].
  intros i Hi. specialize (Hval i Hi). cbv zeta in Hval.
  unfold event_loss, censored_loss.
  split; intros He; rewrite Hval, He; ring.
Qed.

Lemma nll_pmf_per_sample_witness :
  exists loss,
    nll_pmf phi_zero [1%Z] [1] "none" epsilon_default = Ok (Vec loss) /\
    length loss = length (rows phi_zero) /\
    forall i, (i < length (rows phi_zero))%nat ->
      (nth i [1] 0 = 1 ->
       nth i loss 0 = event_loss phi_zero epsilon_default i (Z.to_nat (nth i [1%Z] 0%Z))) /\
      (nth i [1] 0 = 0 ->
       nth i loss 0 = censored_loss phi_zero epsilon_default i (Z.to_nat (nth i [1%Z] 0%Z))).
Proof.
  apply (nll_pmf_per_sample phi_zero [1%Z] [1] epsilon_default).
  - unfold batch_ok, wf2, phi_zero; simpl.
    repeat split; [repeat constructor | discriminate].
  - repeat constructor; simpl; lia.
Defined.

(** ** The guard of [nll_pmf] *)

Lemma zmax_too_large (idx : list Z) (b : Z) :
  Exists (fun d => (b <= d)%Z) idx ->
  exists m, zmax idx = Ok m /\ (b <=? m)%Z = true.
Proof.
  destruct idx as [|x t]; intros H; [inversion H|].
  eexists; split; [reflexivity|]. apply Z.leb_le.
  destruct (zmax_ge t x) as [H1 H2].
  inversion H; subst; [lia|].
  rewrite Forall_forall in H2. rewrite Exists_exists in H3.
  destruct H3 as (d & Hin & Hd). specialize (H2 d Hin). lia.
Qed.

Lemma reduction_valid_ok (loss : out) (reduction : string) :
  valid_reduction reduction -> is_ok (_reduction loss reduction).
Proof.
  intros [H | [H | H]]; subst; exact I.
Qed.

(** The three ways a call of [nll_pmf] on a batch can end. *)
Lemma nll_pmf_cases (phi : tensor2) (idx : list Z) (events : list R)
    (reduction : string) (eps : R) :
  batch_ok phi idx events ->
  (Exists (fun d => (Z.of_nat (shape1 phi) <= d)%Z) idx /\
   nll_pmf phi idx events reduction eps = Raise (ValueError t_idx_msg))
  \/ (Forall (fun d => (d < Z.of_nat (shape1 phi))%Z) idx /\
      Exists (fun d => (d < 0)%Z) idx /\
      nll_pmf phi idx events reduction eps = Raise IndexError)
  \/ (Forall (fun d => (0 <= d < Z.of_nat (shape1 phi))%Z) idx /\
      exists loss,
        nll_pmf phi idx events reduction eps = _reduction (Vec loss) reduction).
Proof.
  intros Hb.
  destruct (Exists_dec (fun d => (Z.of_nat (shape1 phi) <= d)%Z) idx) as [Hbig | Hsmall].
  { intros d. apply Z_le_dec. }
  - left. split; [exact Hbig|].
    destruct (zmax_too_large _ _ Hbig) as (m & Hm & Hle).
    unfold nll_pmf. rewrite Hm. cbn [bind]. rewrite Hle. reflexivity.
  - right.
    assert (Hlt : Forall (fun d => (d < Z.of_nat (shape1 phi))%Z) idx).
    { apply Forall_forall. intros d Hin.
      destruct (Z_lt_dec d (Z.of_nat (shape1 phi))); auto.
      exfalso. apply Hsmall. apply Exists_exists. exists d. split; [auto|lia]. }
    destruct (Exists_dec (fun d => (d < 0)%Z) idx) as [Hneg | Hpos].
    { intros d. apply Z_lt_dec. }
    + left. split; [exact Hlt|]. split; [exact Hneg|].
      destruct Hb as (Hwf & Hne & Hli & Hle).
      assert (Hidx_ne : idx <> []).
      { intro E; subst. inversion Hneg. }
      destruct (zmax_in_range idx (shape1 phi) Hidx_ne Hlt) as (m & Hm & Hmlt).
      unfold nll_pmf. rewrite Hm. cbn [bind]. rewrite Hmlt. cbv zeta.
      rewrite gather_negative; [reflexivity | | exact Hneg].
      simpl. rewrite length_map. exact Hli.
    + right.
      assert (Hin : Forall (fun d => (0 <= d < Z.of_nat (shape1 phi))%Z) idx).
      { apply Forall_forall. intros d Hd. rewrite Forall_forall in Hlt.
        specialize (Hlt d Hd). split; [|exact Hlt].
        destruct (Z_le_dec 0 d); auto.
        exfalso. apply Hpos. apply Exists_exists. exists d. split; [auto|lia]. }
      split; [exact Hin|].
      destruct (nll_pmf_value phi idx events eps Hb Hin) as (loss & Hred & _).
      exists loss. apply Hred.
Qed.

(** C4, as stated, fails on a negative index: on one sample over two bins
    with index [-1] no entry reaches [phi.shape[1]], the guard lets the call
    pass, and [gather] raises the backend's index error. *)
Lemma nll_pmf_negative_index_fails :
  ~ (fails (nll_pmf phi_zero [(-1)%Z] [1] "mean" epsilon_default) <->
     Exists (fun d => (Z.of_nat (shape1 phi_zero) <= d)%Z) [(-1)%Z]).
Proof.
  intros [H _].
  assert (Hf : fails (nll_pmf phi_zero [(-1)%Z] [1] "mean" epsilon_default)).
  { unfold nll_pmf. cbn [zmax fold_left bind]. simpl Z.leb. cbv iota zeta.
    rewrite gather_negative; [exact I | reflexivity |].
    constructor. lia. }
  specialize (H Hf). inversion H as [? ? Hd | ? ? Hd]; subst.
  - simpl in Hd. lia.
  - inversion Hd.
Qed.

(** C4, amended: on a batch of at least one sample, with matching shapes and
    a valid reduction mode, [nll_pmf] raises its own error exactly when some
    entry of [idx_durations] is at least [phi.shape[1]], and it fails at all
    exactly when some entry is at least [phi.shape[1]] or negative; so with
    every entry in [0, phi.shape[1]) no error is raised. *)
Theorem nll_pmf_fails_iff (phi : tensor2) (idx : list Z) (events : list R)
    (reduction : string) (eps : R) :
  batch_ok phi idx events ->
  valid_reduction reduction ->
  (nll_pmf phi idx events reduction eps = Raise (ValueError t_idx_msg) <->
   Exists (fun d => (Z.of_nat (shape1 phi) <= d)%Z) idx) /\
  (fails (nll_pmf phi idx events reduction eps) <->
   Exists (fun d => (Z.of_nat (shape1 phi) <= d \/ d < 0)%Z) idx) /\
  (Forall (fun d => (0 <= d < Z.of_nat (shape1 phi))%Z) idx ->
   is_ok (nll_pmf phi idx events reduction eps)).
Proof.
  intros Hb Hred.
  destruct (nll_pmf_cases phi idx events reduction eps Hb)
    as [[Hbig E] | [(Hlt & Hneg & E) | (Hin & loss & E)]]; rewrite E.
  - split; [tauto|]. split.
    + split; [intros _ | intros _; exact I].
      eapply Exists_impl; [|exact Hbig]. simpl; intros; lia.
    + intros Hall. exfalso. rewrite Exists_exists in Hbig.
      destruct Hbig as (d & Hd & Hge). rewrite Forall_forall in Hall.
      specialize (Hall d Hd). lia.
  - split.
    + split; [discriminate|]. intros Hbig. exfalso.
      rewrite Exists_exists in Hbig. destruct Hbig as (d & Hd & Hge).
      rewrite Forall_forall in Hlt. specialize (Hlt d Hd). lia.
    + split.
      * split; [intros _ | intros _; exact I].
        eapply Exists_impl; [|exact Hneg]. simpl; intros; lia.
      * intros Hall. exfalso. rewrite Exists_exists in Hneg.
        destruct Hneg as (d & Hd & Hge). rewrite Forall_forall in Hall.
        specialize (Hall d Hd). lia.
  - assert (Hok := reduction_valid_ok (Vec loss) reduction Hred).
    destruct (_reduction (Vec loss) reduction) as [o|e]; [|destruct Hok].
    split.
    + split; [discriminate|]. intros Hbig. exfalso.
      rewrite Exists_exists in Hbig. destruct Hbig as (d & Hd & Hge).
      rewrite Forall_forall in Hin. specialize (Hin d Hd). lia.
    + split; [|intros _; exact I].
      split; [intros []|]. intros Hbad. exfalso.
      rewrite Exists_exists in Hbad. destruct Hbad as (d & Hd & Hge).
      rewrite Forall_forall in Hin. specialize (Hin d Hd). lia.
Qed.

Lemma nll_pmf_fails_iff_witness :
  (nll_pmf phi_zero [2%Z] [1] "mean" epsilon_default = Raise (ValueError t_idx_msg) <->
   Exists (fun d => (Z.of_nat (shape1 phi_zero) <= d)%Z) [2%Z]) /\
  (fails (nll_pmf phi_zero [2%Z] [1] "mean" epsilon_default) <->
   Exists (fun d => (Z.of_nat (shape1 phi_zero) <= d \/ d < 0)%Z) [2%Z]) /\
  (Forall (fun d => (0 <= d < Z.of_nat (shape1 phi_zero))%Z) [2%Z] ->
   is_ok (nll_pmf phi_zero [2%Z] [1] "mean" epsilon_default)).
Proof.
  apply (nll_pmf_fails_iff phi_zero [2%Z] [1] "mean" epsilon_default).
  - unfold batch_ok, wf2, phi_zero; simpl.
    repeat split; [repeat constructor | discriminate].
  - right; left; reflexivity.
Defined.

(** ** [nll_pmf_cr] *)

Lemma py_index_in_range (size : nat) (i : Z) :
  (0 <= i < Z.of_nat size)%Z -> py_index size i = Ok (Z.to_nat i).
Proof.
  intros H. unfold py_index.
  replace ((0 <=? i)%Z && (i <? Z.of_nat size)%Z) with true; auto.
  symmetry; apply andb_true_iff; split; [apply Z.leb_le | apply Z.ltb_lt]; lia.
Qed.

Lemma py_index_last (size : nat) :
  (1 <= size)%nat -> py_index size (-1) = Ok (size - 1)%nat.
Proof.
  intros H. unfold py_index.
  replace ((0 <=? -1)%Z && (-1 <? Z.of_nat size)%Z) with false by reflexivity.
  replace ((- Z.of_nat size <=? -1)%Z && (-1 <? 0)%Z) with true.
  - f_equal. lia.
  - symmetry; apply andb_true_iff; split; [apply Z.leb_le; lia | reflexivity].
Qed.

Lemma py_index_too_large (size : nat) (i : Z) :
  (Z.of_nat size <= i)%Z -> py_index size i = Raise IndexError.
Proof.
  intros H. unfold py_index.
  replace ((0 <=? i)%Z && (i <? Z.of_nat size)%Z) with false.
  - replace ((- Z.of_nat size <=? i)%Z && (i <? 0)%Z) with false; auto.
    symmetry; apply andb_false_iff; right; apply Z.ltb_ge; lia.
  - symmetry; apply andb_false_iff; right; apply Z.ltb_ge; lia.
Qed.

Lemma py_index_error (size : nat) (i : Z) (e : exn) :
  py_index size i = Raise e -> e = IndexError.
Proof.
  unfold py_index.
  destruct ((0 <=? i)%Z && (i <? Z.of_nat size)%Z); [discriminate|].
  destruct ((- Z.of_nat size <=? i)%Z && (i <? 0)%Z); [discriminate|].
  congruence.
Qed.

(** The row of risk the label [e - 1] selects: a censored sample ([e = 0])
    wraps to the last risk. *)
Lemma py_index_label (n_risks : nat) (e : Z) :
  (1 <= n_risks)%nat -> (0 <= e <= Z.of_nat n_risks)%Z ->
  py_index n_risks (e - 1) =
    Ok (if Z.eqb e 0 then (n_risks - 1)%nat else Z.to_nat (e - 1)).
Proof.
  intros Hn He. destruct (Z.eqb_spec e 0) as [-> | Hne].
  - apply py_index_last; auto.
  - apply py_index_in_range. lia.
Qed.

Lemma index3_error n_risks n_durations sm events idx e :
  index3 n_risks n_durations sm events idx = Raise e -> e = IndexError.
Proof.
  revert events idx; induction sm as [|s sm IH]; intros [|ev events] [|d idx];
    simpl; try discriminate.
  destruct (py_index n_risks ev) eqn:E1; cbn [bind];
    [| intros H; inversion H; subst; eapply py_index_error; eauto].
  destruct (py_index n_durations d) eqn:E2; cbn [bind];
    [| intros H; inversion H; subst; eapply py_index_error; eauto].
  destruct (index3 n_risks n_durations sm events idx) eqn:E3; cbn [bind];
    [discriminate|].
  intros H; inversion H; subst. eapply IH; eauto.
Qed.

Lemma index_all_risks_error n_durations c idx e :
  index_all_risks n_durations c idx = Raise e -> e = IndexError.
Proof.
  revert idx; induction c as [|s c IH]; intros [|d idx]; simpl; try discriminate.
  destruct (py_index n_durations d) eqn:E2; cbn [bind];
    [| intros H; inversion H; subst; eapply py_index_error; eauto].
  destruct (index_all_risks n_durations c idx) eqn:E3; cbn [bind];
    [discriminate|].
  intros H; inversion H; subst. eapply IH; eauto.
Qed.

Lemma index3_too_large n_risks n_durations sm events idx :
  length idx = length sm -> length events = length sm ->
  Exists (fun d => (Z.of_nat n_durations <= d)%Z) idx ->
  index3 n_risks n_durations sm events idx = Raise IndexError.
Proof.
  revert events idx; induction sm as [|s sm IH]; intros [|ev events] [|d idx];
    simpl; try discriminate; intros Hl1 Hl2 Hex; try (inversion Hex; fail).
  destruct (py_index n_risks ev) eqn:E1; cbn [bind];
    [| f_equal; eapply py_index_error; eauto].
  inversion Hex; subst.
  - rewrite py_index_too_large by auto. reflexivity.
  - destruct (py_index n_durations d) eqn:E2; cbn [bind];
      [| f_equal; eapply py_index_error; eauto].
    rewrite IH; auto.
Qed.

Lemma index3_ok n_risks n_durations sm events idx :
  (1 <= n_risks)%nat ->
  length idx = length sm -> length events = length sm ->
  Forall (fun d => (0 <= d < Z.of_nat n_durations)%Z) idx ->
  Forall (fun e => (0 <= e <= Z.of_nat n_risks)%Z) events ->
  exists g,
    index3 n_risks n_durations sm (minus_one events) idx = Ok g /\
    length g = length sm /\
    forall i, (i < length sm)%nat ->
      nth i g 0 =
        nth (Z.to_nat (nth i idx 0%Z))
            (nth (if Z.eqb (nth i events 0%Z) 0 then (n_risks - 1)%nat
                  else Z.to_nat (nth i events 0%Z - 1))
                 (nth i sm []) []) 0.
Proof.
  intros Hn.
  revert events idx; induction sm as [|s sm IH]; intros [|ev events] [|d idx];
    simpl; try discriminate; intros Hl1 Hl2 Hd He.
  - exists []. repeat split; auto. intros; lia.
  - inversion Hd; subst. inversion He; subst.
    destruct (IH events idx) as (g & Hg & Hlg & Hv); auto.
    rewrite py_index_label by auto. cbn [bind].
    rewrite py_index_in_range by auto. cbn [bind].
    fold (minus_one events). rewrite Hg. cbn [bind].
    eexists; split; [reflexivity|]. split; [simpl; lia|].
    intros [|i] Hi; simpl; [reflexivity|]. apply Hv. lia.
Qed.

Lemma index_all_risks_ok n_durations c idx :
  length idx = length c ->
  Forall (fun d => (0 <= d < Z.of_nat n_durations)%Z) idx ->
  exists v,
    index_all_risks n_durations c idx = Ok v /\
    length v = length c /\
    forall i, (i < length c)%nat ->
      nth i v [] = map (fun r => nth (Z.to_nat (nth i idx 0%Z)) r 0) (nth i c []).
Proof.
  revert idx; induction c as [|s c IH]; intros [|d idx];
    simpl; try discriminate; intros Hl Hd.
  - exists []. repeat split; auto. intros; lia.
  - inversion Hd; subst.
    destruct (IH idx) as (v & Hv & Hlv & Hval); auto.
    rewrite py_index_in_range by auto. cbn [bind].
    rewrite Hv. cbn [bind].
    eexists; split; [reflexivity|]. split; [simpl; lia|].
    intros [|i] Hi; simpl; [reflexivity|]. apply Hval. lia.
Qed.

Lemma length_joint_softmax (phi : tensor3) :
  length (samples (joint_softmax phi)) = length (samples phi).
Proof.
  unfold joint_softmax, view3, drop_last_col, softmax1, pad_col, flatten3; simpl.
  rewrite !length_map. reflexivity.
Qed.

(** On a batch with every index and label in range, [nll_pmf_cr] reduces the
    vector that holds the censored term for a label 0 and the event term of
    risk row [e - 1] for a label [e] in [1, n_risks]. *)
Lemma nll_pmf_cr_value (phi : tensor3) (idx events : list Z) (eps : R) :
  batch_cr_ok phi idx events ->
  exists loss,
    (forall reduction,
       nll_pmf_cr phi idx events reduction eps = _reduction (Vec loss) reduction) /\
    length loss = length (samples phi) /\
    forall i, (i < length (samples phi))%nat ->
      nth i loss 0 =
        if Z.eqb (nth i events 0%Z) 0
        then cr_censored_loss phi eps i (Z.to_nat (nth i idx 0%Z))
        else cr_event_loss phi eps i (Z.to_nat (nth i events 0%Z - 1))
               (Z.to_nat (nth i idx 0%Z)).
Proof.
  intros (Hn & Hli & Hle & Hd & He).
  pose proof (length_joint_softmax phi) as Hls.
  destruct (index3_ok (shape3_1 phi) (shape3_2 phi) (samples (joint_softmax phi))
              events idx) as (g & Hg & Hlg & Hgv); auto; try lia.
  destruct (index_all_risks_ok (shape3_2 phi)
              (map (map cumsum) (samples (joint_softmax phi))) idx)
    as (c & Hc & Hlc & Hcv); auto.
  { rewrite length_map. lia. }
  rewrite length_map in Hlc.
  eexists; split.
  { intros reduction. unfold nll_pmf_cr. cbv zeta.
    change (shape3_1 (joint_softmax phi)) with (shape3_1 phi).
    change (shape3_2 (joint_softmax phi)) with (shape3_2 phi).
    rewrite Hg. cbn [bind]. rewrite Hc. cbn [bind]. reflexivity. }
  assert (Hlm : length (minus_one events) = length (samples phi))
    by (unfold minus_one; rewrite length_map; lia).
  unfold vneg, vadd, vmul, vlog, vadds, vrelu, neq_float.
  split.
  - repeat (rewrite ?length_map, ?length_zip_with). lia.
  - intros i Hi.
    rewrite (nth_map_in Ropp _ i 0 0)
      by lens.
    rewrite (nth_zip_with Rplus _ _ i 0 0 0)
      by lens.
    rewrite !(nth_zip_with Rmult _ _ i 0 0 0)
      by lens.
    rewrite !(nth_map_in ln _ i 0 0)
      by lens.
    rewrite !(nth_map_in (fun x => x + eps) _ i 0 0)
      by lens.
    rewrite !(nth_map_in relu _ i 0 0)
      by lens.
    rewrite (nth_map_in (fun x => 1 - x) _ i 0 0)
      by lens.
    rewrite (nth_map_in vsum c i 0 []) by lia.
    rewrite (nth_map_in (fun e => 1 - e) _ i 0 0)
      by lens.
    rewrite (nth_map_in (fun e => if Z.eqb e (-1) then 0 else 1) _ i 0 0%Z) by lia.
    unfold minus_one. rewrite (nth_map_in (fun e => (e - 1)%Z) events i 0%Z 0%Z) by lia.
    rewrite Hgv by lia. rewrite Hcv by (rewrite length_map; lia).
    rewrite (nth_map_in (map cumsum) _ i [] []) by lia.
    rewrite map_map.
    unfold cr_censored_loss, cr_event_loss, sm_at.
    destruct (Z.eqb_spec (nth i events 0%Z) 0) as [E0 | E0].
    + rewrite E0. simpl Z.eqb. cbv iota. ring.
    + destruct (Z.eqb_spec (nth i events 0%Z - 1) (-1)) as [E1 | E1]; [lia|].
      ring.
Qed.

(** C5, as stated, fails: the event label 1 is remapped to the internal label
    0, and the mask of [nll_pmf_cr] does not treat it as censored. *)
Lemma internal_label_zero_not_censored :
  ~ (treated_as_censored (nth 0 (minus_one [1%Z]) 0%Z) <->
     nth 0 (minus_one [1%Z]) 0%Z = 0%Z).
Proof.
  simpl. intros [_ H]. specialize (H eq_refl).
  unfold treated_as_censored in H. simpl in H.
  injection H as H. lra.
Qed.

(** C5, amended: [nll_pmf_cr] remaps the event labels by subtracting 1, so
    that the censoring label 0 becomes the internal label -1 and risk [r]
    becomes [r - 1]; a sample is treated as censored exactly when its
    internal label is -1: its loss is then the censored term, and otherwise
    the event term of the risk row its internal label names. *)
Theorem nll_pmf_cr_internal_labels (phi : tensor3) (idx events : list Z) (eps : R) :
  batch_cr_ok phi idx events ->
  (forall e : Z, treated_as_censored (e - 1) <-> (e - 1 = -1)%Z) /\
  exists loss,
    nll_pmf_cr phi idx events "none" eps = Ok (Vec loss) /\
    forall i, (i < length (samples phi))%nat ->
      let label := nth i (minus_one events) (-1)%Z in
      let d := Z.to_nat (nth i idx 0%Z) in
      (label = (-1)%Z -> nth i loss 0 = cr_censored_loss phi eps i d) /\
      (label <> (-1)%Z -> nth i loss 0 = cr_event_loss phi eps i (Z.to_nat label) d).
Proof.
  intros Hb. split.
  - intros e. unfold treated_as_censored, neq_float. simpl.
    destruct (Z.eqb_spec (e - 1) (-1)) as [E | E].
    + tauto.
    + split; [|tauto]. intros H. injection H as H. lra.
  - destruct (nll_pmf_cr_value phi idx events eps Hb) as (loss & Hred & Hlen & Hval).
    exists loss. split; [rewrite Hred; reflexivity|].
    intros i Hi. cbv zeta.
    destruct Hb as (_ & _ & Hle & _).
    unfold minus_one.
    rewrite (nth_map_in (fun e => (e - 1)%Z) events i (-1)%Z 0%Z) by lia.
    rewrite (Hval i Hi).
    destruct (Z.eqb_spec (nth i events 0%Z) 0) as [E | E].
    + split; [reflexivity | intros; lia].
    + split; [intros; lia | reflexivity].
Qed.

Lemma nll_pmf_cr_internal_labels_witness :
  (forall e : Z, treated_as_censored (e - 1) <-> (e - 1 = -1)%Z) /\
  exists loss,
    nll_pmf_cr phi3_zero [0%Z] [1%Z] "none" epsilon_default = Ok (Vec loss) /\
    forall i, (i < length (samples phi3_zero))%nat ->
      let label := nth i (minus_one [1%Z]) (-1)%Z in
      let d := Z.to_nat (nth i [0%Z] 0%Z) in
      (label = (-1)%Z -> nth i loss 0 = cr_censored_loss phi3_zero epsilon_default i d) /\
      (label <> (-1)%Z ->
       nth i loss 0 = cr_event_loss phi3_zero epsilon_default i (Z.to_nat label) d).
Proof.
  apply (nll_pmf_cr_internal_labels phi3_zero [0%Z] [1%Z] epsilon_default).
  unfold batch_cr_ok, phi3_zero; simpl.
  repeat split; try lia; repeat constructor; simpl; lia.
Defined.

(** ** No guard in [nll_pmf_cr] *)

Lemma nll_pmf_guard (phi : tensor2) (idx : list Z) (events : list R)
    (reduction : string) (eps : R) :
  Exists (fun d => (Z.of_nat (shape1 phi) <= d)%Z) idx ->
  nll_pmf phi idx events reduction eps = Raise (ValueError t_idx_msg).
Proof.
  intros Hbig. destruct (zmax_too_large _ _ Hbig) as (m & Hm & Hle).
  unfold nll_pmf. rewrite Hm. cbn [bind]. rewrite Hle. reflexivity.
Qed.

Lemma reduction_error (loss : out) (reduction : string) (e : exn) :
  _reduction loss reduction = Raise e -> e = ValueError (reduction_msg reduction).
Proof.
  unfold _reduction.
  destruct (String.eqb reduction "none"); [discriminate|].
  destruct (String.eqb reduction "mean"); [discriminate|].
  destruct (String.eqb reduction "sum"); [discriminate|].
  congruence.
Qed.

Lemma reduction_msg_not_t_idx (reduction : string) :
  reduction_msg reduction <> t_idx_msg.
Proof.
  unfold reduction_msg, t_idx_msg. simpl. discriminate.
Qed.

(** C10: when some index reaches the number of bins, [nll_pmf_cr] never
    raises the explicit error of [nll_pmf] (which [nll_pmf] does raise on
    such indices); on a batch of matching shapes the call ends with the
    index error of the backend, raised while indexing the softmax. *)
Theorem nll_pmf_cr_no_index_guard (phi : tensor3) (idx events : list Z)
    (reduction : string) (eps : R) :
  Exists (fun d => (Z.of_nat (shape3_2 phi) <= d)%Z) idx ->
  nll_pmf_cr phi idx events reduction eps <> Raise (ValueError t_idx_msg) /\
  (length idx = length (samples phi) -> length events = length (samples phi) ->
   nll_pmf_cr phi idx events reduction eps = Raise IndexError) /\
  (forall (phi2 : tensor2) (events2 : list R),
     shape1 phi2 = shape3_2 phi ->
     nll_pmf phi2 idx events2 reduction eps = Raise (ValueError t_idx_msg)).
Proof.
  intros Hbig. split; [|split].
  - unfold nll_pmf_cr. cbv zeta.
    destruct (index3 _ _ _ _ _) as [g|e] eqn:E1; cbn [bind].
    2: { apply index3_error in E1. subst. discriminate. }
    destruct (index_all_risks _ _ _) as [c|e] eqn:E2; cbn [bind].
    2: { apply index_all_risks_error in E2. subst. discriminate. }
    intros H. apply reduction_error in H.
    apply (reduction_msg_not_t_idx reduction). congruence.
  - intros Hl1 Hl2. unfold nll_pmf_cr. cbv zeta.
    change (shape3_1 (joint_softmax phi)) with (shape3_1 phi).
    change (shape3_2 (joint_softmax phi)) with (shape3_2 phi).
    rewrite index3_too_large; auto.
    + rewrite length_joint_softmax; auto.
    + unfold minus_one. rewrite length_map, length_joint_softmax; auto.
  - intros phi2 events2 Hs. apply nll_pmf_guard. rewrite Hs. exact Hbig.
Qed.

Lemma nll_pmf_cr_no_index_guard_witness :
  nll_pmf_cr phi3_zero [2%Z] [1%Z] "mean" epsilon_default <> Raise (ValueError t_idx_msg) /\
  (length [2%Z] = length (samples phi3_zero) ->
   length [1%Z] = length (samples phi3_zero) ->
   nll_pmf_cr phi3_zero [2%Z] [1%Z] "mean" epsilon_default = Raise IndexError) /\
  (forall (phi2 : tensor2) (events2 : list R),
     shape1 phi2 = shape3_2 phi3_zero ->
     nll_pmf phi2 [2%Z] events2 "mean" epsilon_default = Raise (ValueError t_idx_msg)).
Proof.
  apply (nll_pmf_cr_no_index_guard phi3_zero [2%Z] [1%Z] "mean" epsilon_default).
  constructor. simpl. lia.
Defined.

(** ** [_diff_cdf_at_time_i] *)

Lemma nth_map_seq {A} (f : nat -> A) (n i : nat) (d : A) :
  (i < n)%nat -> nth i (map f (seq 0 n)) d = f i.
Proof.
  intros H. rewrite (nth_map_in f _ i d 0%nat) by (rewrite length_seq; lia).
  rewrite seq_nth by lia. reflexivity.
Qed.

Lemma map_nth_seq (l : list R) :
  map (fun k => nth k l 0) (seq 0 (length l)) = l.
Proof.
  apply (nth_ext _ _ 0 0).
  - rewrite length_map, length_seq. reflexivity.
  - intros i Hi. rewrite length_map, length_seq in Hi.
    apply (nth_map_seq (fun k => nth k l 0)). exact Hi.
Qed.

Lemma length_one_hot (size j : nat) : length (one_hot size j) = size.
Proof. unfold one_hot. rewrite length_map, length_seq. reflexivity. Qed.

(** The product with a one-hot row picks one entry. *)
Lemma dot_one_hot_from (v : list R) (s j : nat) :
  dot v (map (fun k => if Nat.eqb k j then 1 else 0) (seq s (length v))) =
    if (s <=? j)%nat && (j <? s + length v)%nat then nth (j - s) v 0 else 0.
Proof.
  revert s; induction v as [|x v IH]; intros s.
  - simpl. destruct (s <=? j)%nat eqn:E1; simpl; auto.
    destruct (j <? s + 0)%nat eqn:E2; auto.
    apply Nat.leb_le in E1. apply Nat.ltb_lt in E2. lia.
  - simpl length. simpl seq. simpl map. unfold dot, vmul in *. simpl zip_with.
    simpl vsum. rewrite IH.
    destruct (Nat.eqb_spec s j) as [-> | Hne].
    + replace (j <=? j)%nat with true by (symmetry; apply Nat.leb_le; lia).
      replace (j <? j + S (length v))%nat with true
        by (symmetry; apply Nat.ltb_lt; lia).
      replace (S j <=? j)%nat with false by (symmetry; apply Nat.leb_gt; lia).
      rewrite Nat.sub_diag. simpl. ring.
    + destruct (s <=? j)%nat eqn:E1.
      * apply Nat.leb_le in E1.
        replace (S s <=? j)%nat with true by (symmetry; apply Nat.leb_le; lia).
        replace (j <? s + S (length v))%nat with (j <? S s + length v)%nat
          by (f_equal; lia).
        replace (j - s)%nat with (S (j - S s)) by lia.
        cbn [andb nth]. destruct (j <? S s + length v)%nat; ring.
      * apply Nat.leb_gt in E1.
        replace (S s <=? j)%nat with false by (symmetry; apply Nat.leb_gt; lia).
        simpl. ring.
Qed.

Lemma dot_one_hot (v : list R) (j : nat) :
  (j < length v)%nat -> dot v (one_hot (length v) j) = nth j v 0.
Proof.
  intros H. unfold one_hot. rewrite dot_one_hot_from. simpl.
  replace (j <? length v)%nat with true by (symmetry; apply Nat.ltb_lt; lia).
  rewrite Nat.sub_0_r. reflexivity.
Qed.

Lemma length_rows_transpose (t : tensor2) :
  length (rows (transpose t)) = shape1 t.
Proof. simpl. rewrite length_map, length_seq. reflexivity. Qed.

Lemma transpose_row (t : tensor2) (j : nat) :
  (j < shape1 t)%nat ->
  nth j (rows (transpose t)) [] = map (fun r => nth j r 0) (rows t).
Proof.
  intros H. simpl.
  apply (nth_map_seq (fun j => map (fun r => nth j r 0) (rows t))). exact H.
Qed.

Lemma matmul_entry (a b : tensor2) (i j : nat) :
  (i < length (rows a))%nat -> (j < shape1 b)%nat ->
  nth j (nth i (rows (matmul a b)) []) 0 =
    dot (nth i (rows a) []) (map (fun r => nth j r 0) (rows b)).
Proof.
  intros Hi Hj. unfold matmul. cbn [rows].
  rewrite (nth_map_in _ (rows a) i [] []) by exact Hi.
  rewrite (nth_map_in (dot (nth i (rows a) [])) _ j 0 [])
    by (rewrite length_rows_transpose; exact Hj).
  rewrite transpose_row by exact Hj. reflexivity.
Qed.

(** Column [j] of the transposed one-hot matrix is the one-hot row of [j]. *)
Lemma one_hot_column (size : nat) (T : list nat) (j : nat) :
  (j < length T)%nat ->
  map (fun r => nth j r 0) (rows (transpose (one_hot_matrix size T))) =
    one_hot size (nth j T 0%nat).
Proof.
  intros Hj. unfold transpose, one_hot_matrix. cbn [rows shape1].
  rewrite map_map.
  etransitivity; [|apply (map_nth_seq (one_hot size (nth j T 0%nat)))].
  rewrite length_one_hot. apply map_ext. intros k.
  rewrite (nth_map_in (fun r => nth k r 0) _ j 0 [])
    by (rewrite length_map; exact Hj).
  rewrite (nth_map_in (one_hot size) T j [] 0%nat) by exact Hj.
  reflexivity.
Qed.

Lemma matmul_row_length (a b : tensor2) (i : nat) :
  (i < length (rows a))%nat ->
  length (nth i (rows (matmul a b)) []) = shape1 b.
Proof.
  intros Hi. unfold matmul. cbn [rows].
  rewrite (nth_map_in _ (rows a) i [] []) by exact Hi.
  rewrite length_map. apply length_rows_transpose.
Qed.

Lemma length_rows_matmul (a b : tensor2) :
  length (rows (matmul a b)) = length (rows a).
Proof. unfold matmul. cbn [rows]. apply length_map. Qed.

Lemma msub_entry (a b : tensor2) (i j : nat) :
  (i < length (rows a))%nat -> (i < length (rows b))%nat ->
  (j < length (nth i (rows a) []))%nat -> (j < length (nth i (rows b) []))%nat ->
  nth j (nth i (rows (msub a b)) []) 0 =
    nth j (nth i (rows a) []) 0 - nth j (nth i (rows b) []) 0.
Proof.
  intros Ha Hb Hja Hjb. unfold msub, vsub. cbn [rows].
  rewrite (nth_zip_with _ (rows a) (rows b) i [] [] []) by assumption.
  apply nth_zip_with; assumption.
Qed.

Lemma nth_repeat_in {A} (a d : A) (n i : nat) :
  (i < n)%nat -> nth i (repeat a n) d = a.
Proof.
  revert i; induction n as [|n IH]; intros [|i] H; simpl; try lia; auto.
  apply IH. lia.
Qed.

Section DiffCdf.

Variable pmf : tensor2.
Variable T : list nat.
Hypothesis pmf_wf : wf2 pmf.
Hypothesis T_length : length T = length (rows pmf).
Hypothesis T_bins : Forall (fun t => (t < shape1 pmf)%nat) T.

Let n := length (rows pmf).
Let y := one_hot_matrix (shape1 pmf) T.
Let r0 := matmul (mk2 (map cumsum (rows pmf)) (shape1 pmf)) (transpose y).

Lemma r0_entry (i j : nat) :
  (i < n)%nat -> (j < n)%nat ->
  nth j (nth i (rows r0) []) 0 = cdf_at pmf i (nth j T 0%nat).
Proof.
  intros Hi Hj. unfold r0.
  rewrite matmul_entry.
  2: { cbn [rows]. rewrite length_map. exact Hi. }
  2: { cbn [shape1 transpose y one_hot_matrix rows]. rewrite length_map.
       rewrite T_length. exact Hj. }
  cbn [rows]. rewrite (nth_map_in cumsum _ i [] []) by exact Hi.
  unfold y. rewrite one_hot_column by (rewrite T_length; exact Hj).
  assert (Hlen : length (cumsum (nth i (rows pmf) [])) = shape1 pmf).
  { rewrite length_cumsum. unfold wf2 in pmf_wf. rewrite Forall_forall in pmf_wf.
    apply pmf_wf. apply nth_In. exact Hi. }
  rewrite <- Hlen at 1. rewrite dot_one_hot.
  - reflexivity.
  - rewrite Hlen. rewrite Forall_forall in T_bins. apply T_bins.
    apply nth_In. rewrite T_length. exact Hj.
Qed.

Lemma r0_shape : length (rows r0) = n /\ shape1 r0 = n.
Proof.
  unfold r0. split.
  - rewrite length_rows_matmul. cbn [rows]. apply length_map.
  - cbn [matmul shape1 transpose y one_hot_matrix rows].
    rewrite length_map. exact T_length.
Qed.

Lemma diag_r0 : length (diag r0) = n /\
  forall j, (j < n)%nat -> nth j (diag r0) 0 = cdf_at pmf j (nth j T 0%nat).
Proof.
  destruct r0_shape as [H1 H2]. unfold diag. rewrite H1, H2, Nat.min_id.
  split.
  - rewrite length_map, length_seq. reflexivity.
  - intros j Hj.
    rewrite (nth_map_seq (fun i => nth i (nth i (rows r0) []) 0)) by exact Hj.
    apply r0_entry; exact Hj.
Qed.

(** [R_ij = F_i(T_i) - F_j(T_i)], entry by entry. *)
Lemma diff_cdf_entries :
  length (rows (_diff_cdf_at_time_i pmf y)) = n /\
  forall i j, (i < n)%nat -> (j < n)%nat ->
    nth j (nth i (rows (_diff_cdf_at_time_i pmf y)) []) 0 =
      cdf_at pmf i (nth i T 0%nat) - cdf_at pmf j (nth i T 0%nat).
Proof.
  destruct r0_shape as [Hr1 Hr2]. destruct diag_r0 as [Hd1 Hd2].
  unfold _diff_cdf_at_time_i. cbv zeta. fold n. fold r0.
  set (ones := matmul (ones_col n) (as_row (diag r0))).
  assert (Hones_len : length (rows ones) = n).
  { unfold ones. rewrite length_rows_matmul. cbn [rows ones_col].
    apply repeat_length. }
  assert (Hones_row : forall i, (i < n)%nat -> length (nth i (rows ones) []) = n).
  { intros i Hi. unfold ones. rewrite matmul_row_length.
    - cbn [shape1 as_row]. exact Hd1.
    - cbn [rows ones_col]. rewrite repeat_length. exact Hi. }
  assert (Hones : forall i j, (i < n)%nat -> (j < n)%nat ->
            nth j (nth i (rows ones) []) 0 = nth j (diag r0) 0).
  { intros i j Hi Hj. unfold ones. rewrite matmul_entry.
    - cbn [rows ones_col as_row map]. rewrite nth_repeat_in by exact Hi.
      unfold dot, vmul. simpl. ring.
    - cbn [rows ones_col]. rewrite repeat_length. exact Hi.
    - cbn [shape1 as_row]. rewrite Hd1. exact Hj. }
  assert (Hr0_row : forall i, (i < n)%nat -> length (nth i (rows r0) []) = n).
  { intros i Hi. unfold r0 at 1. rewrite matmul_row_length.
    - cbn [shape1 transpose y one_hot_matrix rows]. rewrite length_map. exact T_length.
    - cbn [rows]. rewrite length_map. exact Hi. }
  assert (Hshape : shape1 (msub ones r0) = n).
  { unfold msub, ones. cbn [shape1 matmul as_row]. exact Hd1. }
  split.
  - rewrite length_rows_transpose. exact Hshape.
  - intros i j Hi Hj.
    rewrite transpose_row by (rewrite Hshape; exact Hi).
    rewrite (nth_map_in (fun r => nth i r 0) _ j 0 []).
    2: { unfold msub. cbn [rows]. rewrite length_zip_with. lia. }
    rewrite msub_entry; try lia.
    2: { rewrite Hones_row by exact Hj. exact Hi. }
    2: { rewrite Hr0_row by exact Hj. exact Hi. }
    rewrite Hones, Hd2, r0_entry by assumption. reflexivity.
Qed.

End DiffCdf.

(** C2: for a pmf matrix and the one-hot matrix [y] of the observed bins
    [T], [_diff_cdf_at_time_i(pmf, y)] is the square matrix [R] with
    [R_ij = F_i(T_i) - F_j(T_i)], [F] being the row-wise cumulative sum of
    [pmf]. *)
Theorem diff_cdf_at_time_i_spec (pmf : tensor2) (T : list nat) :
  wf2 pmf ->
  length T = length (rows pmf) ->
  Forall (fun t => (t < shape1 pmf)%nat) T ->
  let R := _diff_cdf_at_time_i pmf (one_hot_matrix (shape1 pmf) T) in
  length (rows R) = length (rows pmf) /\
  forall i j, (i < length (rows pmf))%nat -> (j < length (rows pmf))%nat ->
    nth j (nth i (rows R) []) 0 =
      cdf_at pmf i (nth i T 0%nat) - cdf_at pmf j (nth i T 0%nat).
Proof.
  intros Hwf Hlen Hbins. exact (diff_cdf_entries pmf T Hwf Hlen Hbins).
Qed.

Lemma diff_cdf_at_time_i_spec_witness :
  let R := _diff_cdf_at_time_i pmf_example (one_hot_matrix (shape1 pmf_example) [1; 0]%nat) in
  length (rows R) = length (rows pmf_example) /\
  forall i j, (i < length (rows pmf_example))%nat ->
              (j < length (rows pmf_example))%nat ->
    nth j (nth i (rows R) []) 0 =
      cdf_at pmf_example i (nth i [1; 0]%nat 0%nat)
      - cdf_at pmf_example j (nth i [1; 0]%nat 0%nat).
Proof.
  apply (diff_cdf_at_time_i_spec pmf_example [1; 0]%nat).
  - repeat constructor.
  - reflexivity.
  - repeat constructor.
Defined.

(** The example of the specification, computed: with
    [pmf = [[0.3, 0.7], [0.5, 0.5]]] and [y] one-hot at the bins [1, 0] the
    cumulative sums are [[0.3, 1], [0.5, 1]] and [R = [[0, 0], [0.2, 0]]]. *)
Example diff_cdf_example :
  rows (_diff_cdf_at_time_i pmf_example y_example) = [[0; 0]; [2/10; 0]].
Proof.
  unfold _diff_cdf_at_time_i, pmf_example, y_example, one_hot_matrix, matmul,
    transpose, msub, diag, as_row, ones_col, one_hot, dot, vmul, vsub, vsum,
    cumsum.
  simpl.
  repeat match goal with
         | |- _ :: _ = _ :: _ => apply f_equal2
         | |- @eq R _ _ => lra
         | |- [] = [] => reflexivity
         end.
Qed.

(** ** Reduction modes *)

Lemma reduction_consistent (o : out) : modes_consistent (_reduction o).
Proof. split; reflexivity. Qed.

Lemma nll_pmf_consistent phi idx events eps :
  modes_consistent (fun reduction => nll_pmf phi idx events reduction eps).
Proof.
  unfold modes_consistent, nll_pmf.
  destruct (zmax idx) as [m|e]; cbn [bind fmap]; [|split; reflexivity].
  destruct (Z.of_nat (shape1 phi) <=? m)%Z; [split; reflexivity|].
  cbv zeta.
  destruct (gather (rows (pad_col phi)) idx) as [g1|e]; cbn [bind];
    [|split; reflexivity].
  destruct (gather _ idx) as [g3|e]; cbn [bind]; split; reflexivity.
Qed.

Lemma nll_pmf_cr_consistent phi idx events eps :
  modes_consistent (fun reduction => nll_pmf_cr phi idx events reduction eps).
Proof.
  unfold modes_consistent, nll_pmf_cr. cbv zeta.
  destruct (index3 _ _ _ _ _) as [g|e]; cbn [bind fmap]; [|split; reflexivity].
  destruct (index_all_risks _ _ _) as [c|e]; cbn [bind]; split; reflexivity.
Qed.

Lemma rank_loss_deephit_consistent pmf y rank_mat sigma :
  modes_consistent (_rank_loss_deephit pmf y rank_mat sigma).
Proof. unfold _rank_loss_deephit. cbv zeta. apply reduction_consistent. Qed.

Lemma rank_loss_deephit_single_consistent phi idx events rank_mat sigma :
  modes_consistent (rank_loss_deephit_single phi idx events rank_mat sigma).
Proof.
  unfold modes_consistent, rank_loss_deephit_single. cbv zeta.
  destruct (scatter_one_hot _ _ idx) as [y|e]; cbn [bind fmap];
    [|split; reflexivity].
  apply rank_loss_deephit_consistent.
Qed.

(** *** The sums of [rank_loss_deephit_cr] *)

Lemma vsum_map_plus0 (v : list R) : vsum (map (Rplus 0) v) = vsum v.
Proof. induction v as [|x v IH]; simpl; [reflexivity | rewrite IH; ring]. Qed.

Lemma vsum_vadd (u v : list R) :
  length u = length v -> vsum (vadd u v) = vsum u + vsum v.
Proof.
  revert v; induction u as [|x u IH]; intros [|y v] H; simpl in *;
    try discriminate; [ring|].
  unfold vadd in IH. rewrite IH by lia. ring.
Qed.

Lemma row_add_same_length (u v : list R) :
  length u = length v -> row_add u v = vadd u v.
Proof.
  destruct u as [|x [|x' u]]; destruct v as [|y [|y' v]]; simpl;
    try discriminate; try reflexivity.
Qed.

Lemma fold_vectors (n : nat) (loss : list out) (a : list R) :
  vectors_of_length n loss -> length a = n ->
  exists s, fold_left out_add loss (Vec a) = Vec s /\ length s = n /\
            vsum s = vsum a + vsum (map out_sum loss).
Proof.
  revert a; induction loss as [|lo loss IH]; intros a Hv Ha.
  - exists a. simpl. repeat split; auto; try ring.
  - inversion Hv as [|? ? (v & -> & Hlv) Hrest]; subst.
    simpl fold_left. rewrite row_add_same_length by lia.
    destruct (IH (vadd a v) Hrest) as (s & Hs & Hls & Hsum).
    { unfold vadd. rewrite length_zip_with. lia. }
    exists s. split; [exact Hs|]. split; [exact Hls|].
    rewrite Hsum, vsum_vadd by lia. simpl. unfold out_sum at 2. simpl. ring.
Qed.

Lemma fold_scalars (xs : list R) (a : R) :
  fold_left out_add (map Scalar xs) (Scalar a) = Scalar (a + vsum xs).
Proof.
  revert a; induction xs as [|x xs IH]; intros a; simpl.
  - f_equal. ring.
  - rewrite IH. f_equal. ring.
Qed.

Lemma py_sum_sums (n : nat) (loss : list out) :
  vectors_of_length n loss ->
  py_sum (map (fun lo => Scalar (out_sum lo)) loss) = Scalar (out_sum (py_sum loss)).
Proof.
  intros Hv. unfold py_sum.
  rewrite <- (map_map out_sum Scalar), fold_scalars.
  destruct loss as [|lo loss].
  - simpl. f_equal; try (unfold out_sum; simpl; ring).
  - inversion Hv as [|? ? (v & -> & Hlv) Hrest]; subst.
    simpl fold_left.
    destruct (fold_vectors (length v) loss (map (Rplus 0) v) Hrest)
      as (s & Hs & Hls & Hsum).
    { apply length_map. }
    rewrite Hs. f_equal. unfold out_sum at 2. simpl out_entries.
    rewrite Hsum, vsum_map_plus0. simpl. unfold out_sum at 1. simpl. ring.
Qed.

Lemma vsum_map_div (xs : list R) (c : R) :
  vsum (map (fun x => x / c) xs) = vsum xs / c.
Proof.
  induction xs as [|x xs IH]; simpl.
  - unfold Rdiv. ring.
  - rewrite IH. unfold Rdiv. ring.
Qed.

Lemma py_sum_means (n : nat) (loss : list out) :
  vectors_of_length n loss ->
  py_sum (map (fun lo => Scalar (out_mean lo)) loss) = Scalar (out_mean (py_sum loss)).
Proof.
  intros Hv. unfold py_sum.
  rewrite <- (map_map out_mean Scalar), fold_scalars.
  destruct loss as [|lo loss].
  - simpl. f_equal. unfold out_mean, vmean. simpl. unfold Rdiv. rewrite Rinv_1. ring.
  - inversion Hv as [|? ? (v & -> & Hlv) Hrest]; subst.
    simpl fold_left.
    destruct (fold_vectors (length v) loss (map (Rplus 0) v) Hrest)
      as (s & Hs & Hls & Hsum).
    { apply length_map. }
    rewrite Hs. f_equal. unfold out_mean at 2, vmean. simpl out_entries.
    rewrite Hsum, vsum_map_plus0, Hls.
    assert (Hm : map out_mean loss = map (fun x => x / INR (length v)) (map out_sum loss)).
    { rewrite map_map. clear - Hrest. induction Hrest as [|lo loss (w & -> & Hw) _ IH].
      - reflexivity.
      - simpl. rewrite IH. f_equal. unfold out_mean, out_sum, vmean. simpl.
        rewrite Hw. reflexivity. }
    simpl map. simpl vsum. rewrite Hm, vsum_map_div.
    unfold out_mean at 1, vmean. simpl out_entries. unfold Rdiv. ring.
Qed.

Lemma concat_singletons {A} (f : list R -> A) (l : list (list R)) :
  concat (map (fun r => [f r]) l) = map f l.
Proof. induction l as [|r l IH]; simpl; [reflexivity | rewrite IH; reflexivity]. Qed.

Lemma length_rows_diff_cdf (pmf y : tensor2) :
  length (rows (_diff_cdf_at_time_i pmf y)) =
    Nat.min (length (rows pmf)) (length (rows y)).
Proof.
  unfold _diff_cdf_at_time_i. cbv zeta.
  rewrite length_rows_transpose.
  unfold msub, matmul, as_row, diag. cbn [shape1 rows transpose].
  rewrite !length_map, length_seq. reflexivity.
Qed.

Lemma rank_loss_none_length pmf y rank_mat sigma o :
  _rank_loss_deephit pmf y rank_mat sigma "none" = Ok o ->
  length (out_entries o) =
    Nat.min (length (rows rank_mat))
            (Nat.min (length (rows pmf)) (length (rows y))).
Proof.
  unfold _rank_loss_deephit. cbv zeta. rewrite reduction_none.
  pose proof (length_rows_diff_cdf pmf y) as Hr.
  set (r := _diff_cdf_at_time_i pmf y) in *. clearbody r.
  intros H. injection H as <-.
  unfold mean1_keepdim, mmul, mmap. cbn [out_entries rows].
  rewrite concat_singletons, length_map, length_zip_with, length_map.
  rewrite Hr. reflexivity.
Qed.

Lemma rank_loss_per_risk_vectors pmf y events rank_mat sigma risks loss :
  rank_loss_per_risk pmf y events rank_mat sigma risks = Ok loss ->
  vectors_of_length
    (Nat.min (Nat.min (length (rows rank_mat))
                      (Nat.min (length (samples pmf)) (length (samples y))))
             (length events)) loss.
Proof.
  revert loss; induction risks as [|i risks IH]; intros loss;
    cbn [rank_loss_per_risk].
  - intros H. injection H as <-. constructor.
  - destruct (_rank_loss_deephit (select_risk pmf i) (select_risk y i)
                rank_mat sigma "none") as [o|e] eqn:E; cbn [bind];
      [|discriminate].
    destruct (rank_loss_per_risk pmf y events rank_mat sigma risks)
      as [rest|e]; cbn [bind]; [|discriminate].
    intros H. injection H as <-. constructor.
    + eexists; split; [reflexivity|].
      unfold vmul, eq_float. rewrite length_zip_with, length_map.
      rewrite (rank_loss_none_length _ _ _ _ _ E).
      unfold select_risk. cbn [rows]. rewrite !length_map. reflexivity.
    + apply IH. reflexivity.
Qed.

Lemma rank_loss_deephit_cr_consistent phi idx events rank_mat sigma :
  modes_consistent (rank_loss_deephit_cr phi idx events rank_mat sigma).
Proof.
  unfold modes_consistent, rank_loss_deephit_cr. cbv zeta.
  destruct (assign_one_hot _ _ _ idx) as [y|e]; cbn [bind fmap];
    [|split; reflexivity].
  match goal with
  | |- context [rank_loss_per_risk ?a ?b ?c ?d ?e ?f] =>
      destruct (rank_loss_per_risk a b c d e f) as [loss|err] eqn:E
  end; cbn [bind]; [|split; reflexivity].
  apply rank_loss_per_risk_vectors in E.
  simpl String.eqb. cbv iota. cbn [fmap bind].
  split; f_equal.
  - eapply py_sum_sums; eauto.
  - eapply py_sum_means; eauto.
Qed.

(** C8: for each of [nll_pmf], [nll_pmf_cr], [rank_loss_deephit_single] and
    [rank_loss_deephit_cr] and every input, the ['sum'] output is the sum of
    the ['none'] output and the ['mean'] output is its mean (over the reals,
    so exactly). *)
Theorem reduction_modes_consistent :
  (forall phi idx events eps,
     modes_consistent (fun reduction => nll_pmf phi idx events reduction eps)) /\
  (forall phi idx events eps,
     modes_consistent (fun reduction => nll_pmf_cr phi idx events reduction eps)) /\
  (forall phi idx events rank_mat sigma,
     modes_consistent (rank_loss_deephit_single phi idx events rank_mat sigma)) /\
  (forall phi idx events rank_mat sigma,
     modes_consistent (rank_loss_deephit_cr phi idx events rank_mat sigma)).
Proof.
  split; [|split; [|split]]; intros.
  - apply nll_pmf_consistent.
  - apply nll_pmf_cr_consistent.
  - apply rank_loss_deephit_single_consistent.
  - apply rank_loss_deephit_cr_consistent.
Qed.

(** ** The loss modules *)

Import LossModules.

Lemma NLLPMFLoss_forward_frame phi idx events (self : NLLPMFLoss) :
  fst (NLLPMFLoss_forward phi idx events self) = self.
Proof. reflexivity. Qed.

Lemma DeepHitSingleLoss_forward_frame phi idx events rank_mat (self : DeepHitSingleLoss) :
  fst (DeepHitSingleLoss_forward phi idx events rank_mat self) = self.
Proof.
  unfold DeepHitSingleLoss_forward, mbind, getattr, lift, ret.
  destruct (nll_pmf phi idx events (dhs_reduction self) epsilon_default);
    [|reflexivity].
  destruct (rank_loss_deephit_single phi idx events rank_mat (dhs_sigma self)
              (dhs_reduction self)); reflexivity.
Qed.

Lemma DeepHitLoss_forward_frame phi idx events rank_mat (self : DeepHitLoss) :
  fst (DeepHitLoss_forward phi idx events rank_mat self) = self.
Proof.
  unfold DeepHitLoss_forward, mbind, getattr, lift, ret.
  destruct (nll_pmf_cr phi idx events (dh_reduction self) epsilon_default);
    [|reflexivity].
  destruct (rank_loss_deephit_cr phi idx events rank_mat (dh_sigma self)
              (dh_reduction self)); reflexivity.
Qed.

Lemma run_calls_frame {S A} (calls : list (method S A)) (self : S) :
  Forall (fun call => forall s, fst (call s) = s) calls ->
  fst (run_calls calls self) = self.
Proof.
  revert self; induction calls as [|call calls IH]; intros self H; simpl.
  - reflexivity.
  - inversion H as [|? ? Hc Hrest]; subst.
    specialize (Hc self). destruct (call self) as [self' r]. simpl in Hc. subst.
    specialize (IH self Hrest). destruct (run_calls calls self) as [self'' rs].
    exact IH.
Qed.

(** C9: [forward] of [NLLPMFLoss], [DeepHitSingleLoss] and [DeepHitLoss]
    leaves the module as it found it, whatever the batch and whether the
    call returns or raises: [reduction], [alpha] and [sigma] are unchanged,
    after one call and after any sequence of calls. *)
Theorem forward_leaves_module_unchanged :
  (forall (self : NLLPMFLoss) phi idx events,
     fst (NLLPMFLoss_forward phi idx events self) = self) /\
  (forall (self : DeepHitSingleLoss) phi idx events rank_mat,
     let self' := fst (DeepHitSingleLoss_forward phi idx events rank_mat self) in
     dhs_reduction self' = dhs_reduction self /\
     dhs_alpha self' = dhs_alpha self /\ dhs_sigma self' = dhs_sigma self) /\
  (forall (self : DeepHitLoss) phi idx events rank_mat,
     let self' := fst (DeepHitLoss_forward phi idx events rank_mat self) in
     dh_reduction self' = dh_reduction self /\
     dh_alpha self' = dh_alpha self /\ dh_sigma self' = dh_sigma self) /\
  (forall (self : DeepHitSingleLoss) batches,
     fst (run_calls
            (map (fun b => DeepHitSingleLoss_forward (fst (fst (fst b)))
                             (snd (fst (fst b))) (snd (fst b)) (snd b)) batches)
            self) = self) /\
  (forall (self : DeepHitLoss) batches,
     fst (run_calls
            (map (fun b => DeepHitLoss_forward (fst (fst (fst b)))
                             (snd (fst (fst b))) (snd (fst b)) (snd b)) batches)
            self) = self).
Proof.
  split; [|split; [|split; [|split]]].
  - intros. apply NLLPMFLoss_forward_frame.
  - intros. subst self'. rewrite DeepHitSingleLoss_forward_frame. auto.
  - intros. subst self'. rewrite DeepHitLoss_forward_frame. auto.
  - intros. apply run_calls_frame. apply Forall_forall.
    intros call Hin. apply in_map_iff in Hin. destruct Hin as (b & <- & _).
    intros s. apply DeepHitSingleLoss_forward_frame.
  - intros. apply run_calls_frame. apply Forall_forall.
    intros call Hin. apply in_map_iff in Hin. destruct Hin as (b & <- & _).
    intros s. apply DeepHitLoss_forward_frame.
Qed.

(** ** [LabTransDiscreteSurv] *)

Import LabelTransforms.

(** C6 on the code: an instance built on a pre-supplied array of cuts warns
    in [fit] and keeps [_cuts], but [fit] returns before the index mapper is
    built and [__init__] does not build it either, so the [transform] that
    follows raises on the attribute [idu]. *)
Theorem fit_predefined_cuts_builds_no_mapper
    (make_cuts : cuts_arg -> list R -> list R -> R -> result (list R))
    (idu_transform : list R -> list R -> list R -> result (list Z * list R))
    (c : R) (cs : list R) (lo : R) (durations events : list R) :
  exists self,
    LabTransDiscreteSurv_init (CutsArray (c :: cs)) lo = Ok self /\
    let '(self', r) := fit make_cuts durations events self in
    r = Ok tt /\
    warnings self' = [fit_warning] /\
    _cuts self' = CutsArray (c :: cs) /\
    idu self' = None /\
    transform idu_transform durations events self'
      = (self', Raise (AttributeError "idu")).
Proof.
  eexists. split; [reflexivity|].
  unfold fit, mbind, getattr, setattr. simpl.
  repeat split; reflexivity.
Qed.

(** On the path [fit] takes without pre-supplied cuts the mapper is built and
    [transform] reaches it. *)
Lemma fit_computed_cuts_builds_mapper
    (make_cuts : cuts_arg -> list R -> list R -> R -> result (list R))
    (idu_transform : list R -> list R -> list R -> result (list Z * list R))
    (n : Z) (lo : R) (durations events : list R) (c : list R) :
  make_cuts (CutsScheme "equidistant" n) durations events lo = Ok c ->
  exists self,
    LabTransDiscreteSurv_init (CutsInt n) lo = Ok self /\
    let '(self', r) := fit make_cuts durations events self in
    r = Ok tt /\ warnings self' = [] /\ idu self' = Some c /\
    transform idu_transform durations events self'
      = (self', idu_transform c durations events).
Proof.
  intros Hc. eexists. split; [reflexivity|].
  unfold fit, mbind, getattr, setattr, lift. simpl. rewrite Hc.
  repeat split; reflexivity.
Qed.

(** ** [LabTransCoxTime] *)

Lemma handle_zeros_nonzero (s : R) : handle_zeros_in_scale s <> 0.
Proof.
  unfold handle_zeros_in_scale. destruct (Req_dec_T s 0); [lra | assumption].
Qed.

Lemma scale_value_injective wm ws m s (u v : R) :
  s <> 0 -> scale_value wm ws m s u = scale_value wm ws m s v -> u = v.
Proof.
  intros Hs. unfold scale_value.
  assert (Hdiv : forall a b, a / s = b / s -> a = b).
  { intros a b H. unfold Rdiv in H.
    apply Rmult_eq_reg_r in H; [exact H|]. apply Rinv_neq_0_compat. exact Hs. }
  destruct wm, ws; intros H; try (apply Hdiv in H); lra.
Qed.

Lemma log1p_injective (u v : R) :
  -1 < u -> -1 < v -> log1p u = log1p v -> u = v.
Proof.
  intros Hu Hv H. unfold log1p in H. apply ln_inv in H; lra.
Qed.

Lemma scaler_fit_transform_value (sc : StandardScaler) (x : list R) :
  x <> [] ->
  exists m s, s <> 0 /\
    scaler_fit_transform x sc =
      (mkScaler (with_mean sc) (with_std sc) (Some m) (Some s),
       Ok (map (scale_value (with_mean sc) (with_std sc) m s) x)).
Proof.
  intros Hx. exists (vmean x), (handle_zeros_in_scale (sqrt (variance x))).
  split; [apply handle_zeros_nonzero|].
  destruct x as [|x0 x]; [congruence|].
  unfold scaler_fit_transform, mbind, setattr, getattr, lift, scaler_transform.
  cbn [mean_ scale_ with_mean with_std].
  f_equal. f_equal. unfold scale_value.
  destruct (with_mean sc), (with_std sc); rewrite ?map_map, ?map_id; reflexivity.
Qed.

(** The dictionary comprehension, as a list of bindings. *)
Lemma inverse_map_bindings (pairs : list (R * R)) (acc : dict) :
  fold_left (fun d os => dict_set d (snd os) (fst os)) pairs acc =
    rev (map (fun os => (snd os, fst os)) pairs) ++ acc.
Proof.
  revert acc; induction pairs as [|p pairs IH]; intros acc; simpl.
  - reflexivity.
  - rewrite IH. unfold dict_set. rewrite <- app_assoc. reflexivity.
Qed.

Lemma dict_get_some (d : dict) (k v : R) :
  dict_get d k = Some v -> In (k, v) d.
Proof.
  induction d as [|[k' v'] d IH]; simpl; [discriminate|].
  destruct (Req_dec_T k' k) as [-> | Hne].
  - intros H. injection H as ->. left. reflexivity.
  - intros H. right. apply IH. exact H.
Qed.

Lemma dict_get_bound (d : dict) (k v : R) :
  In (k, v) d -> dict_get d k <> None.
Proof.
  induction d as [|[k' v'] d IH]; simpl; [tauto|].
  destruct (Req_dec_T k' k) as [-> | Hne]; [discriminate|].
  intros [H | H]; [congruence | apply IH; exact H].
Qed.

(** A dictionary that binds [t x] to [x] for each training value [x] looks a
    transformed training value up exactly when [t] separates the training
    values, and holds no other key. *)
Lemma inverse_lookup (t : R -> R) (train : list R) :
  (forall u v, In u train -> In v train -> t u = t v -> u = v) ->
  let d := fold_left (fun d os => dict_set d (snd os) (fst os))
             (combine train (map t train)) [] in
  map (dict_get d) (map t train) = map Some train /\
  forall k, ~ In k (map t train) -> dict_get d k = None.
Proof.
  intros Hinj d.
  assert (Hd : forall k v, In (k, v) d <-> In v train /\ k = t v).
  { intros k v. unfold d. rewrite inverse_map_bindings, app_nil_r.
    rewrite <- in_rev, in_map_iff. split.
    - intros ([o s] & Heq & Hin). simpl in Heq. injection Heq as <- <-.
      clear - Hin. induction train as [|x train IH]; simpl in Hin; [tauto|].
      destruct Hin as [H | H].
      + injection H as <- <-. split; [left|]; reflexivity.
      + destruct (IH H) as [H1 H2]. split; [right|]; assumption.
    - intros [Hin ->]. exists (v, t v). split; [reflexivity|].
      clear - Hin. induction train as [|x train IH]; simpl in *; [tauto|].
      destruct Hin as [-> | H]; [left; reflexivity | right; apply IH; exact H]. }
  split.
  - rewrite map_map. apply map_ext_in. intros x Hx.
    destruct (dict_get d (t x)) as [v|] eqn:E.
    + apply dict_get_some in E. apply Hd in E. destruct E as [Hv Ht].
      f_equal. symmetry. apply Hinj; assumption.
    + exfalso. apply (dict_get_bound d (t x) x); [|exact E].
      apply Hd. split; [exact Hx | reflexivity].
  - intros k Hk. destruct (dict_get d k) as [v|] eqn:E; [|reflexivity].
    exfalso. apply Hk. apply dict_get_some in E. apply Hd in E.
    destruct E as [Hv ->]. apply in_map. exact Hv.
Qed.

(** What [fit_transform] leaves behind and returns, in terms of the fitted
    mean [m] and deviation [s]. *)
Lemma fit_transform_value (self : LabTransCoxTime) (durations events : list R) :
  durations <> [] ->
  exists m s, s <> 0 /\
    let wm := with_mean (duration_scaler self) in
    let ws := with_std (duration_scaler self) in
    let t := fun x => scale_value wm ws m s
                        (if log_duration self then log1p x else x) in
    fit_transform durations events self =
      (mkLabTransCoxTime (log_duration self)
         (mkScaler wm ws (Some m) (Some s))
         (Some (fold_left (fun d os => dict_set d (snd os) (fst os))
                  (combine durations (map t durations)) [])),
       Ok (map t durations, events)).
Proof.
  intros Hne.
  set (pre := fun x : R => if log_duration self then log1p x else x).
  assert (Hpre : (if log_duration self then map log1p durations else durations)
                 = map pre durations).
  { unfold pre. destruct (log_duration self); [reflexivity|].
    symmetry. apply map_id. }
  destruct (scaler_fit_transform_value (duration_scaler self) (map pre durations))
    as (m & s & Hs & Hfit).
  { destruct durations; [congruence | discriminate]. }
  exists m, s. split; [exact Hs|]. cbv zeta.
  unfold fit_transform, mbind, getattr, on_scaler, setattr, ret.
  rewrite Hpre, Hfit. cbn [log_duration duration_scaler _inverse_duration_map].
  rewrite map_map. reflexivity.
Qed.

(** Over the reals, where the scaling separates the durations: after
    [fit_transform] on training durations (above -1 when the logarithm is
    taken), [map_scaled_to_orig] applied to the transformed durations
    returns the training durations themselves, and applied to a value that
    is not a transformed training duration it returns [None]. *)
Theorem fit_transform_round_trip (self : LabTransCoxTime) (durations events : list R) :
  durations <> [] ->
  (log_duration self = true -> Forall (fun x => -1 < x) durations) ->
  exists self' scaled f,
    fit_transform durations events self = (self', Ok (scaled, events)) /\
    map_scaled_to_orig self' = (self', Ok f) /\
    f scaled = map Some durations /\
    forall x, ~ In x scaled -> f [x] = [None].
Proof.
  intros Hne Hlog.
  destruct (fit_transform_value self durations events Hne) as (m & s & Hs & Hfit).
  cbv zeta in Hfit.
  set (t := fun x => scale_value (with_mean (duration_scaler self))
                       (with_std (duration_scaler self)) m s
                       (if log_duration self then log1p x else x)) in *.
  assert (Hinj : forall u v, In u durations -> In v durations -> t u = t v -> u = v).
  { intros u v Hu Hv H. unfold t in H. apply scale_value_injective in H; [|exact Hs].
    destruct (log_duration self); [|exact H].
    specialize (Hlog eq_refl). rewrite Forall_forall in Hlog.
    apply log1p_injective; auto. }
  destruct (inverse_lookup t durations Hinj) as [Hround Hunseen].
  eexists. exists (map t durations). eexists.
  split; [exact Hfit|]. split; [reflexivity|]. split.
  - exact Hround.
  - intros x Hx. simpl. rewrite (Hunseen x Hx). reflexivity.
Qed.

Lemma fit_transform_round_trip_witness :
  exists self' scaled f,
    fit_transform durations_example [1; 0; 1; 1]
      (LabTransCoxTime_init false true true) = (self', Ok (scaled, [1; 0; 1; 1])) /\
    map_scaled_to_orig self' = (self', Ok f) /\
    f scaled = map Some durations_example /\
    forall x, ~ In x scaled -> f [x] = [None].
Proof.
  apply (fit_transform_round_trip (LabTransCoxTime_init false true true)
           durations_example [1; 0; 1; 1]).
  - discriminate.
  - simpl. discriminate.
Defined.

(** ** One risk: [nll_pmf_cr] against [nll_pmf] *)

Lemma nth_cumsum_from (acc : R) (l : list R) (d : nat) :
  (d < length l)%nat ->
  nth d (cumsum_from acc l) 0 = acc + vsum (firstn (S d) l).
Proof.
  revert acc d; induction l as [|x l IH]; intros acc [|d] H; simpl in *; try lia.
  - destruct l; simpl; ring.
  - rewrite IH by lia. simpl. ring.
Qed.

Lemma nth_cumsum (l : list R) (d : nat) :
  (d < length l)%nat -> nth d (cumsum l) 0 = vsum (firstn (S d) l).
Proof.
  intros H. unfold cumsum. rewrite nth_cumsum_from by exact H. ring.
Qed.

Lemma last_cumsum_from (acc : R) (l : list R) :
  l <> [] -> last (cumsum_from acc l) 0 = acc + vsum l.
Proof.
  revert acc; induction l as [|x l IH]; intros acc H; [congruence|].
  destruct l as [|y l].
  - simpl. ring.
  - change (cumsum_from acc (x :: y :: l))
      with ((acc + x) :: cumsum_from (acc + x) (y :: l)).
    change (last ((acc + x) :: cumsum_from (acc + x) (y :: l)) 0)
      with (last (cumsum_from (acc + x) (y :: l)) 0).
    rewrite IH by discriminate. simpl. ring.
Qed.

Lemma last_cumsum (l : list R) : l <> [] -> last (cumsum l) 0 = vsum l.
Proof.
  intros H. unfold cumsum. rewrite last_cumsum_from by exact H. ring.
Qed.

Lemma vsum_app (u v : list R) : vsum (u ++ v) = vsum u + vsum v.
Proof. induction u as [|x u IH]; simpl; [ring | rewrite IH; ring]. Qed.

Lemma vsum_map_shift (g : R) (l : list R) :
  vsum (map (fun x => exp (x - g)) l) = vsum (map exp l) * exp (- g).
Proof.
  induction l as [|x l IH]; simpl; [ring|].
  rewrite IH. unfold Rminus. rewrite exp_plus. ring.
Qed.

Lemma vsum_map_exp_div (c : R) (l : list R) :
  vsum (map (fun x => exp x / c) l) = vsum (map exp l) / c.
Proof.
  induction l as [|x l IH]; simpl.
  - unfold Rdiv. ring.
  - rewrite IH. unfold Rdiv. ring.
Qed.

Lemma vsum_exp_nonneg (l : list R) : 0 <= vsum (map exp l).
Proof.
  induction l as [|x l IH]; simpl; [lra|].
  pose proof (exp_pos x). lra.
Qed.

Lemma vsum_exp_prefix (n : nat) (l : list R) :
  vsum (map exp (firstn n l)) <= vsum (map exp l).
Proof.
  revert n; induction l as [|x l IH]; intros [|n]; simpl; try lra.
  - pose proof (exp_pos x). pose proof (vsum_exp_nonneg l). lra.
  - specialize (IH n). lra.
Qed.

Lemma relu_pos (x : R) : 0 < x -> relu x = x.
Proof. intros H. unfold relu. apply Rmax_right. lra. Qed.

(** The terms of both losses on one row [r] of logits, for a bin [d] of the
    row: [S] is the partition sum over the padded row, [A] the mass up to
    [d]. *)
Section OneRow.

Variable r : list R.
Variable d : nat.
Variable g : R.
Hypothesis d_in_row : (d < length r)%nat.

Let p := r ++ [0].
Let S := vsum (map exp p).
Let A := vsum (map exp (firstn (Datatypes.S d) r)).

Lemma partition_sum_pos : 0 < S /\ A < S.
Proof.
  unfold S, A, p. rewrite map_app, vsum_app.
  change (vsum (map exp [0])) with (exp 0 + 0).
  pose proof (vsum_exp_prefix (Datatypes.S d) r).
  pose proof (vsum_exp_nonneg (firstn (Datatypes.S d) r)).
  pose proof (exp_pos 0). lra.
Qed.

Lemma shifted_sum : last (cumsum (map (fun x => exp (x - g)) p)) 0 = S * exp (- g).
Proof.
  rewrite last_cumsum.
  - apply vsum_map_shift.
  - unfold p. destruct r; discriminate.
Qed.

Lemma shifted_cumsum :
  nth d (cumsum (map (fun x => exp (x - g)) p)) 0 = A * exp (- g).
Proof.
  rewrite nth_cumsum.
  - rewrite firstn_map. unfold p. rewrite firstn_app.
    replace (Datatypes.S d - length r)%nat with 0%nat by lia.
    simpl firstn at 2. rewrite app_nil_r. apply vsum_map_shift.
  - rewrite length_map. unfold p. rewrite length_app. simpl. lia.
Qed.

Lemma softmax_row : removelast (softmax p) = map (fun x => exp x / S) r.
Proof.
  unfold softmax, vexp. fold S. unfold p.
  rewrite !map_app. simpl. rewrite removelast_last, map_map. reflexivity.
Qed.

Lemma softmax_entry : nth d (map (fun x => exp x / S) r) 0 = exp (nth d r 0) / S.
Proof. apply (nth_map_in (fun x => exp x / S) r d 0 0). exact d_in_row. Qed.

Lemma softmax_cumsum : nth d (cumsum (map (fun x => exp x / S) r)) 0 = A / S.
Proof.
  rewrite nth_cumsum by (rewrite length_map; exact d_in_row).
  rewrite firstn_map. apply vsum_map_exp_div.
Qed.

(** The two event terms agree without the floor. *)
Lemma event_terms_agree :
  ln (relu (exp (nth d r 0) / S) + 0) =
    nth d p 0 - g - ln (relu (S * exp (- g)) + 0).
Proof.
  destruct partition_sum_pos as [HS _].
  pose proof (exp_pos (nth d r 0)) as He. pose proof (exp_pos (- g)) as Hg.
  assert (Hq : 0 < exp (nth d r 0) / S) by (apply Rdiv_lt_0_compat; lra).
  assert (Hm : 0 < S * exp (- g)) by (apply Rmult_lt_0_compat; lra).
  rewrite !relu_pos by assumption. rewrite !Rplus_0_r.
  unfold Rdiv. rewrite ln_mult by (try apply Rinv_0_lt_compat; lra).
  rewrite ln_Rinv by lra. rewrite ln_mult by lra. rewrite !ln_exp.
  unfold p. rewrite app_nth1 by exact d_in_row. ring.
Qed.

(** The two censored terms agree without the floor. *)
Lemma censored_terms_agree :
  ln (relu (1 - (A / S + 0)) + 0) =
    ln (relu (S * exp (- g) - A * exp (- g)) + 0) - ln (relu (S * exp (- g)) + 0).
Proof.
  destruct partition_sum_pos as [HS HA].
  pose proof (exp_pos (- g)) as Hg.
  assert (Hm : 0 < S * exp (- g)) by (apply Rmult_lt_0_compat; lra).
  assert (Hd : 0 < S * exp (- g) - A * exp (- g)).
  { replace (S * exp (- g) - A * exp (- g)) with ((S - A) * exp (- g)) by ring.
    apply Rmult_lt_0_compat; lra. }
  assert (Hq : 0 < 1 - (A / S + 0)).
  { replace (1 - (A / S + 0)) with ((S - A) / S) by (field; lra).
    apply Rdiv_lt_0_compat; lra. }
  rewrite !relu_pos by assumption. rewrite !Rplus_0_r.
  replace (1 - A / S) with ((S - A) * / S) by (field; lra).
  replace (S * exp (- g) - A * exp (- g)) with ((S - A) * exp (- g)) by ring.
  rewrite !ln_mult by (try apply Rinv_0_lt_compat; lra).
  rewrite ln_Rinv by lra. ring.
Qed.

End OneRow.

(** With one risk, sample [i] is one row [r]; its padded row in the
    reshaped [phi] is [r ++ [0]] and its joint softmax is the softmax of that
    padded row without the last entry. *)
Lemma single_risk_sample (phi : tensor3) (i : nat) :
  wf3 phi -> shape3_1 phi = 1%nat -> (i < length (samples phi))%nat ->
  exists r,
    length r = shape3_2 phi /\
    padded_row (flatten3 phi) i = r ++ [0] /\
    sm_at phi i = [map (fun x => exp x / vsum (map exp (r ++ [0]))) r].
Proof.
  intros Hwf H1 Hi.
  unfold wf3 in Hwf. rewrite Forall_forall in Hwf.
  destruct (Hwf (nth i (samples phi) []) (nth_In _ _ Hi)) as [Hls Hrows].
  rewrite H1 in Hls.
  destruct (nth i (samples phi) []) as [|r [|r' s]] eqn:Es; try discriminate.
  inversion Hrows as [|? ? Hr _]; subst.
  exists r. split; [exact Hr|].
  assert (Hpad : padded_row (flatten3 phi) i = r ++ [0]).
  { unfold padded_row, flatten3. cbn [rows].
    rewrite (nth_map_in (@concat R) _ i [] []) by exact Hi.
    rewrite Es. simpl. rewrite app_nil_r. reflexivity. }
  split; [exact Hpad|].
  unfold sm_at, joint_softmax, view3, drop_last_col, softmax1. cbn [samples rows].
  assert (Hlp : length (rows (pad_col (flatten3 phi))) = length (samples phi)).
  { unfold pad_col, flatten3. cbn [rows]. rewrite !length_map. reflexivity. }
  rewrite (nth_map_in _ _ i [] []) by (rewrite !length_map, Hlp; exact Hi).
  rewrite (nth_map_in (@removelast R) _ i [] [])
    by (rewrite !length_map, Hlp; exact Hi).
  rewrite (nth_map_in softmax _ i [] []) by (rewrite Hlp; exact Hi).
  rewrite rows_pad_col by (unfold flatten3; cbn [rows]; rewrite length_map; exact Hi).
  rewrite Hpad, softmax_row, H1. cbn [chunks].
  rewrite firstn_all2 by (rewrite length_map; lia). reflexivity.
Qed.

Lemma single_risk_shapes (phi : tensor3) (idx events : list Z) :
  wf3 phi -> shape3_1 phi = 1%nat -> samples phi <> [] ->
  length idx = length (samples phi) -> length events = length (samples phi) ->
  Forall (fun d => (0 <= d < Z.of_nat (shape3_2 phi))%Z) idx ->
  Forall (fun e => e = 0%Z \/ e = 1%Z) events ->
  batch_cr_ok phi idx events /\
  batch_ok (flatten3 phi) idx (map IZR events) /\
  Forall (fun d => (0 <= d < Z.of_nat (shape1 (flatten3 phi)))%Z) idx.
Proof.
  intros Hwf H1 Hne Hli Hle Hidx Hev.
  assert (Hs : shape1 (flatten3 phi) = shape3_2 phi).
  { unfold flatten3. cbn [shape1]. rewrite H1. lia. }
  split; [|split].
  - unfold batch_cr_ok. rewrite H1. repeat split; auto.
    eapply Forall_impl; [|exact Hev]. simpl. intros e [-> | ->]; lia.
  - unfold batch_ok. repeat split.
    + unfold wf2. rewrite Hs. unfold flatten3. cbn [rows].
      apply Forall_forall. intros row Hin. apply in_map_iff in Hin.
      destruct Hin as (s & <- & Hin).
      unfold wf3 in Hwf. rewrite Forall_forall in Hwf.
      destruct (Hwf s Hin) as [Hls Hrows]. rewrite H1 in Hls.
      destruct s as [|r [|r' s]]; try discriminate.
      inversion Hrows; subst. simpl. rewrite app_nil_r. assumption.
    + unfold flatten3. cbn [rows]. destruct (samples phi); [congruence|discriminate].
    + unfold flatten3. cbn [rows]. rewrite length_map. exact Hli.
    + unfold flatten3. cbn [rows]. rewrite !length_map. exact Hle.
  - rewrite Hs. exact Hidx.
Qed.

(** Over the reals and without the floor ([epsilon = 0]): with one risk,
    indices in [0, K) and event labels in {0, 1}, [nll_pmf_cr] equals
    [nll_pmf] on [phi] reshaped to [batch, K], for every reduction mode. *)
Theorem nll_pmf_cr_single_risk_no_floor (phi : tensor3) (idx events : list Z)
    (reduction : string) :
  wf3 phi -> shape3_1 phi = 1%nat -> samples phi <> [] ->
  length idx = length (samples phi) -> length events = length (samples phi) ->
  Forall (fun d => (0 <= d < Z.of_nat (shape3_2 phi))%Z) idx ->
  Forall (fun e => e = 0%Z \/ e = 1%Z) events ->
  nll_pmf_cr phi idx events reduction 0 =
    nll_pmf (flatten3 phi) idx (map IZR events) reduction 0.
Proof.
  intros Hwf H1 Hne Hli Hle Hidx Hev.
  destruct (single_risk_shapes phi idx events Hwf H1 Hne Hli Hle Hidx Hev)
    as (Hcr & Hb & Hidx2).
  destruct (nll_pmf_cr_value phi idx events 0 Hcr) as (l1 & Hred1 & Hlen1 & Hval1).
  destruct (nll_pmf_value (flatten3 phi) idx (map IZR events) 0 Hb Hidx2)
    as (l2 & Hred2 & Hlen2 & Hval2).
  assert (Hrows : length (rows (flatten3 phi)) = length (samples phi))
    by (unfold flatten3; cbn [rows]; apply length_map).
  rewrite Hred1, Hred2. f_equal. f_equal.
  apply (nth_ext _ _ 0 0); [lia|].
  intros i Hi. rewrite Hlen1 in Hi.
  rewrite (Hval1 i Hi). rewrite (Hval2 i) by lia. cbv zeta.
  destruct (single_risk_sample phi i Hwf H1 Hi) as (r & Hr & Hpad & Hsm).
  assert (Hd : (Z.to_nat (nth i idx 0%Z) < length r)%nat).
  { rewrite Forall_forall in Hidx.
    assert (Hin : In (nth i idx 0%Z) idx) by (apply nth_In; lia).
    specialize (Hidx _ Hin). lia. }
  set (d := Z.to_nat (nth i idx 0%Z)) in *.
  rewrite (nth_map_in IZR events i 0 0%Z) by lia.
  assert (He : nth i events 0%Z = 0%Z \/ nth i events 0%Z = 1%Z).
  { rewrite Forall_forall in Hev. apply Hev. apply nth_In. lia. }
  unfold cr_censored_loss, cr_event_loss, sum_at, cumsum_at, gamma_at.
  rewrite Hsm, Hpad.
  set (g := row_max (r ++ [0])).
  destruct He as [E | E]; rewrite E.
  - simpl Z.eqb. cbv iota. cbn [map vsum fold_right].
    rewrite softmax_cumsum by exact Hd.
    rewrite (censored_terms_agree r d g).
    rewrite !(shifted_sum r d), shifted_cumsum by exact Hd. ring.
  - simpl Z.eqb. cbv iota. simpl Z.sub. simpl Z.to_nat. cbn [nth].
    rewrite (softmax_entry r d Hd).
    rewrite (event_terms_agree r d g Hd).
    rewrite !(shifted_sum r d) by exact Hd. ring.
Qed.

Lemma nll_pmf_cr_single_risk_no_floor_witness :
  nll_pmf_cr phi3_zero [0%Z] [1%Z] "mean" 0 =
    nll_pmf (flatten3 phi3_zero) [0%Z] (map IZR [1%Z]) "mean" 0.
Proof.
  apply (nll_pmf_cr_single_risk_no_floor phi3_zero [0%Z] [1%Z] "mean").
  - repeat constructor.
  - reflexivity.
  - discriminate.
  - reflexivity.
  - reflexivity.
  - repeat constructor; simpl; lia.
  - constructor; [right; reflexivity | constructor].
Defined.

Lemma exp_24_large : 10000000 < exp 24.
Proof.
  assert (H1 : 2 < exp 1) by (pose proof (exp_ineq1 1); lra).
  assert (H2 : 4 < exp 2).
  { replace 2 with (1 + 1) by lra. rewrite exp_plus. nra. }
  assert (H4 : 16 < exp 4).
  { replace 4 with (2 + 2) by lra. rewrite exp_plus. nra. }
  assert (H8 : 256 < exp 8).
  { replace 8 with (4 + 4) by lra. rewrite exp_plus. nra. }
  assert (H16 : 65536 < exp 16).
  { replace 16 with (8 + 8) by lra. rewrite exp_plus. nra. }
  replace 24 with (16 + 8) by lra. rewrite exp_plus. nra.
Qed.

(** A logarithm over the floor [epsilon] is above -24. *)
Lemma ln_floor_bound (x : R) : - 24 < ln (relu x + epsilon_default).
Proof.
  assert (Hr : 0 <= relu x) by (unfold relu; apply Rmax_l).
  assert (He : exp (Ropp 24) < epsilon_default).
  { rewrite exp_Ropp. unfold epsilon_default.
    pose proof exp_24_large as H. unfold Rdiv. rewrite Rmult_1_l.
    apply Rinv_lt_contravar; [|exact H].
    apply Rmult_lt_0_compat; lra. }
  replace (-24) with (Ropp 24) by lra.
  rewrite <- (ln_exp (Ropp 24)) at 1.
  apply ln_increasing; [apply exp_pos | lra].
Qed.

(** C3, as stated, fails: on one sample with one risk, one bin and the logit
    -30, observed as an event, [nll_pmf] returns a loss above 30 and
    [nll_pmf_cr] a loss below 24; the two differ by more than 6, far beyond
    a rounding tolerance. *)
Lemma nll_pmf_cr_differs_from_nll_pmf :
  exists a b,
    nll_pmf (flatten3 phi3_low) [0%Z] (map IZR [1%Z]) "none" epsilon_default
      = Ok (Vec [a]) /\
    nll_pmf_cr phi3_low [0%Z] [1%Z] "none" epsilon_default = Ok (Vec [b]) /\
    b + 6 < a.
Proof.
  assert (Hsh : batch_cr_ok phi3_low [0%Z] [1%Z] /\
                batch_ok (flatten3 phi3_low) [0%Z] (map IZR [1%Z]) /\
                Forall (fun d => (0 <= d < Z.of_nat (shape1 (flatten3 phi3_low)))%Z)
                  [0%Z]).
  { apply single_risk_shapes; try reflexivity; try discriminate.
    - repeat constructor.
    - repeat constructor; simpl; lia.
    - constructor; [right; reflexivity | constructor]. }
  destruct Hsh as (Hcr & Hb & Hidx).
  destruct (nll_pmf_value _ _ _ epsilon_default Hb Hidx) as (l2 & Hred2 & Hlen2 & Hval2).
  destruct (nll_pmf_cr_value _ _ _ epsilon_default Hcr) as (l1 & Hred1 & Hlen1 & Hval1).
  destruct l2 as [|a [|? ?]]; try discriminate.
  destruct l1 as [|b [|? ?]]; try discriminate.
  exists a, b. rewrite Hred2, Hred1. split; [reflexivity|]. split; [reflexivity|].
  specialize (Hval2 0%nat ltac:(simpl; lia)). specialize (Hval1 0%nat ltac:(simpl; lia)).
  cbv zeta in Hval2. cbn [nth map] in Hval2, Hval1.
  simpl Z.eqb in Hval1. cbv iota in Hval1.
  unfold cr_event_loss in Hval1.
  pose proof (ln_floor_bound
                (nth (Z.to_nat 0) (nth (Z.to_nat (1 - 1)) (sm_at phi3_low 0) []) 0))
    as Hfloor.
  assert (Hpad : padded_row (flatten3 phi3_low) 0 = [-30; 0]) by reflexivity.
  assert (Hg : gamma_at (flatten3 phi3_low) 0 = 0).
  { unfold gamma_at. rewrite Hpad. unfold row_max. simpl fold_left.
    apply Rmax_right. lra. }
  assert (Hsum : 1 < sum_at (flatten3 phi3_low) 0).
  { unfold sum_at, cumsum_at. rewrite Hg, Hpad. simpl.
    rewrite !Rminus_0_r, exp_0. pose proof (exp_pos (-30)). lra. }
  assert (Hln : 0 < ln (relu (sum_at (flatten3 phi3_low) 0) + epsilon_default)).
  { rewrite <- ln_1. apply ln_increasing; [lra|].
    rewrite relu_pos by lra. unfold epsilon_default. lra. }
  rewrite Hpad, Hg in Hval2. simpl nth in Hval2.
  rewrite Hval1, Hval2. lra.
Qed.

(** * Further properties of the code *)

Import LabelTransformsMethods.

(** ** Errors of [_reduction] and their order in [nll_pmf] *)

Lemma valid_reduction_dec (reduction : string) :
  {valid_reduction reduction} + {~ valid_reduction reduction}.
Proof.
  unfold valid_reduction.
  destruct (string_dec reduction "none"); [left; tauto|].
  destruct (string_dec reduction "mean"); [left; tauto|].
  destruct (string_dec reduction "sum"); [left; tauto|].
  right. tauto.
Qed.

Lemma reduction_invalid (loss : out) (reduction : string) :
  ~ valid_reduction reduction ->
  _reduction loss reduction = Raise (ValueError (reduction_msg reduction)).
Proof.
  intros H. unfold _reduction, valid_reduction in *.
  destruct (String.eqb_spec reduction "none"); [tauto|].
  destruct (String.eqb_spec reduction "mean"); [tauto|].
  destruct (String.eqb_spec reduction "sum"); [tauto|].
  reflexivity.
Qed.

(** X1: [_reduction] raises exactly on a mode other than ['none'], ['mean']
    and ['sum'], and then with the [ValueError] that names the mode. *)
Theorem reduction_fails_iff (loss : out) (reduction : string) :
  (fails (_reduction loss reduction) <-> ~ valid_reduction reduction) /\
  (forall e, _reduction loss reduction = Raise e ->
             e = ValueError (reduction_msg reduction)).
Proof.
  split; [|apply reduction_error].
  destruct (valid_reduction_dec reduction) as [Hv | Hn].
  - pose proof (reduction_valid_ok loss reduction Hv) as Hok.
    destruct (_reduction loss reduction); simpl in *; tauto.
  - rewrite (reduction_invalid loss reduction Hn). simpl. tauto.
Qed.

(** X2: [nll_pmf] checks the indices before the reduction mode: on a batch
    with every index in [0, K) an invalid mode raises the [ValueError] of
    [_reduction], while an index that reaches [phi.shape[1]] raises the
    ['t_idx'] error whatever the mode is. *)
Theorem nll_pmf_invalid_reduction (phi : tensor2) (idx : list Z) (events : list R)
    (reduction : string) (eps : R) :
  batch_ok phi idx events ->
  Forall (fun d => (0 <= d < Z.of_nat (shape1 phi))%Z) idx ->
  ~ valid_reduction reduction ->
  nll_pmf phi idx events reduction eps = Raise (ValueError (reduction_msg reduction)) /\
  forall idx', Exists (fun d => (Z.of_nat (shape1 phi) <= d)%Z) idx' ->
    nll_pmf phi idx' events reduction eps = Raise (ValueError t_idx_msg).
Proof.
  intros Hb Hidx Hn. split.
  - destruct (nll_pmf_value phi idx events eps Hb Hidx) as (loss & Hred & _).
    rewrite Hred. apply reduction_invalid. exact Hn.
  - intros idx' Hbig. apply nll_pmf_guard. exact Hbig.
Qed.

Lemma nll_pmf_invalid_reduction_witness :
  nll_pmf phi_zero [1%Z] [1] "max" epsilon_default
    = Raise (ValueError (reduction_msg "max")) /\
  forall idx', Exists (fun d => (Z.of_nat (shape1 phi_zero) <= d)%Z) idx' ->
    nll_pmf phi_zero idx' [1] "max" epsilon_default = Raise (ValueError t_idx_msg).
Proof.
  apply (nll_pmf_invalid_reduction phi_zero [1%Z] [1] "max" epsilon_default).
  - unfold batch_ok, wf2, phi_zero; simpl.
    repeat split; [repeat constructor | discriminate].
  - repeat constructor; simpl; lia.
  - unfold valid_reduction. intros [H | [H | H]]; discriminate.
Defined.

(** ** The sign and the range of the likelihood losses *)

Lemma exp_entry_le_prefix (r : list R) (d : nat) :
  (d < length r)%nat -> exp (nth d r 0) <= vsum (map exp (firstn (S d) r)).
Proof.
  revert d; induction r as [|x r IH]; intros [|d] H; simpl in *; try lia.
  - pose proof (vsum_exp_nonneg (firstn 0 r)). simpl in *. lra.
  - specialize (IH d ltac:(lia)). pose proof (exp_pos x).
    change (vsum (map exp (firstn (S d) r))) with
      (fold_right Rplus 0 (map exp (firstn (S d) r))) in IH.
    destruct r; simpl in *; lra.
Qed.

Lemma Forall_of_nth (P : R -> Prop) (l : list R) :
  (forall i, (i < length l)%nat -> P (nth i l 0)) -> Forall P l.
Proof.
  intros H. apply Forall_forall. intros x Hin.
  destruct (In_nth l x 0 Hin) as (i & Hi & <-). apply H. exact Hi.
Qed.

(** X3: with event indicators in {0, 1}, indices in [0, K) and a floor
    [epsilon >= 0], every per-sample loss of [nll_pmf] is positive. *)
Theorem nll_pmf_loss_positive (phi : tensor2) (idx : list Z) (events : list R) (eps : R) :
  batch_ok phi idx events ->
  Forall (fun d => (0 <= d < Z.of_nat (shape1 phi))%Z) idx ->
  Forall (fun e => e = 0 \/ e = 1) events ->
  0 <= eps ->
  exists loss,
    nll_pmf phi idx events "none" eps = Ok (Vec loss) /\
    length loss = length (rows phi) /\
    Forall (fun x => 0 < x) loss.
Proof.
  intros Hb Hidx Hev Heps.
  destruct (nll_pmf_value phi idx events eps Hb Hidx) as (loss & Hred & Hlen & Hval).
  exists loss. split; [rewrite Hred; reflexivity|]. split; [exact Hlen|].
  apply Forall_of_nth. intros i Hi. rewrite Hlen in Hi.
  rewrite (Hval i Hi). cbv zeta.
  destruct Hb as (Hwf & Hne & Hli & Hle).
  set (r := nth i (rows phi) []).
  assert (Hr : length r = shape1 phi).
  { unfold wf2 in Hwf. rewrite Forall_forall in Hwf. apply Hwf.
    apply nth_In. exact Hi. }
  assert (Hd : (Z.to_nat (nth i idx 0%Z) < length r)%nat).
  { rewrite Forall_forall in Hidx.
    assert (Hin : In (nth i idx 0%Z) idx) by (apply nth_In; lia).
    specialize (Hidx _ Hin). lia. }
  set (d := Z.to_nat (nth i idx 0%Z)) in *.
  assert (He : nth i events 0 = 0 \/ nth i events 0 = 1).
  { rewrite Forall_forall in Hev. apply Hev. apply nth_In. lia. }
  unfold sum_at, cumsum_at, gamma_at, padded_row. fold r.
  set (g := row_max (r ++ [0])).
  rewrite !(shifted_sum r d) by exact Hd.
  rewrite (shifted_cumsum r d g Hd).
  destruct (partition_sum_pos r d) as [HS HA].
  pose proof (exp_entry_le_prefix r d Hd) as Hentry.
  pose proof (exp_pos (nth d r 0)) as Hpos.
  pose proof (exp_pos (- g)) as Hg.
  set (S := vsum (map exp (r ++ [0]))) in *.
  set (A := vsum (map exp (firstn (Datatypes.S d) r))) in *.
  assert (Hm : 0 < S * exp (- g)) by (apply Rmult_lt_0_compat; lra).
  assert (Hc : 0 < A * exp (- g)) by (apply Rmult_lt_0_compat; lra).
  assert (Hdiff : 0 < S * exp (- g) - A * exp (- g)).
  { replace (S * exp (- g) - A * exp (- g)) with ((S - A) * exp (- g)) by ring.
    apply Rmult_lt_0_compat; lra. }
  rewrite !relu_pos by assumption.
  destruct He as [E | E]; rewrite E.
  - assert (Hlt : ln (S * exp (- g) - A * exp (- g) + eps) < ln (S * exp (- g) + eps))
      by (apply ln_increasing; lra).
    lra.
  - rewrite app_nth1 by exact Hd.
    assert (Hlt : nth d r 0 - g < ln (S * exp (- g) + eps)).
    { rewrite <- (ln_exp (nth d r 0 - g)) at 1.
      apply ln_increasing; [apply exp_pos|].
      unfold Rminus at 1. rewrite exp_plus.
      assert (exp (nth d r 0) * exp (- g) < S * exp (- g))
        by (apply Rmult_lt_compat_r; lra).
      lra. }
    lra.
Qed.

Lemma nll_pmf_loss_positive_witness :
  exists loss,
    nll_pmf phi_zero [1%Z] [1] "none" epsilon_default = Ok (Vec loss) /\
    length loss = length (rows phi_zero) /\
    Forall (fun x => 0 < x) loss.
Proof.
  apply (nll_pmf_loss_positive phi_zero [1%Z] [1] epsilon_default).
  - unfold batch_ok, wf2, phi_zero; simpl.
    repeat split; [repeat constructor | discriminate].
  - repeat constructor; simpl; lia.
  - constructor; [right; reflexivity | constructor].
  - unfold epsilon_default. lra.
Defined.

Lemma ln_over_floor (x eps : R) : 0 < eps -> ln eps <= ln (relu x + eps).
Proof.
  intros He.
  assert (Hr : 0 <= relu x) by (unfold relu; apply Rmax_l).
  destruct (Req_dec (relu x) 0) as [E | E].
  - rewrite E, Rplus_0_l. lra.
  - left. apply ln_increasing; lra.
Qed.

(** X4: with a floor [epsilon > 0], no per-sample loss of [nll_pmf_cr]
    exceeds [-log(epsilon)], whatever the logits are: the loss saturates. *)
Theorem nll_pmf_cr_loss_bounded (phi : tensor3) (idx events : list Z) (eps : R) :
  batch_cr_ok phi idx events ->
  0 < eps ->
  exists loss,
    nll_pmf_cr phi idx events "none" eps = Ok (Vec loss) /\
    length loss = length (samples phi) /\
    Forall (fun x => x <= - ln eps) loss.
Proof.
  intros Hb He.
  destruct (nll_pmf_cr_value phi idx events eps Hb) as (loss & Hred & Hlen & Hval).
  exists loss. split; [rewrite Hred; reflexivity|]. split; [exact Hlen|].
  apply Forall_of_nth. intros i Hi. rewrite Hlen in Hi.
  rewrite (Hval i Hi).
  destruct (Z.eqb (nth i events 0%Z) 0); unfold cr_censored_loss, cr_event_loss.
  - pose proof (ln_over_floor
                  (1 - vsum (map (fun row => nth (Z.to_nat (nth i idx 0%Z)) (cumsum row) 0)
                               (sm_at phi i))) eps He).
    lra.
  - pose proof (ln_over_floor
                  (nth (Z.to_nat (nth i idx 0%Z))
                       (nth (Z.to_nat (nth i events 0%Z - 1)) (sm_at phi i) []) 0)
                  eps He).
    lra.
Qed.

Lemma nll_pmf_cr_loss_bounded_witness :
  exists loss,
    nll_pmf_cr phi3_low [0%Z] [1%Z] "none" epsilon_default = Ok (Vec loss) /\
    length loss = length (samples phi3_low) /\
    Forall (fun x => x <= - ln epsilon_default) loss.
Proof.
  apply (nll_pmf_cr_loss_bounded phi3_low [0%Z] [1%Z] epsilon_default).
  - unfold batch_cr_ok, phi3_low; simpl.
    repeat split; try lia; repeat constructor; simpl; lia.
  - unfold epsilon_default. lra.
Defined.

(** X5: [nll_pmf] has no such bound: for every [B >= 0], one sample over one
    bin with the logit [-B], observed as an event, has a loss of at least
    [B]. *)
Theorem nll_pmf_loss_unbounded (B eps : R) :
  0 <= B -> 0 <= eps ->
  exists a,
    nll_pmf (mk2 [[- B]] 1) [0%Z] [1] "none" eps = Ok (Vec [a]) /\ B <= a.
Proof.
  intros HB Heps.
  set (phi := mk2 [[- B]] 1).
  assert (Hb : batch_ok phi [0%Z] [1]).
  { unfold batch_ok, wf2, phi; simpl.
    repeat split; [repeat constructor | discriminate]. }
  assert (Hidx : Forall (fun d => (0 <= d < Z.of_nat (shape1 phi))%Z) [0%Z]).
  { repeat constructor; simpl; lia. }
  destruct (nll_pmf_value phi [0%Z] [1] eps Hb Hidx) as (loss & Hred & Hlen & Hval).
  destruct loss as [|a [|? ?]]; try discriminate.
  exists a. split; [rewrite Hred; reflexivity|].
  specialize (Hval 0%nat ltac:(simpl; lia)). cbv zeta in Hval.
  cbn [nth] in Hval.
  assert (Hpad : padded_row phi 0 = [- B; 0]) by reflexivity.
  assert (Hg : gamma_at phi 0 = 0).
  { unfold gamma_at. rewrite Hpad. unfold row_max. simpl fold_left.
    apply Rmax_right. lra. }
  assert (Hsum : 1 < sum_at phi 0).
  { unfold sum_at, cumsum_at. rewrite Hg, Hpad. simpl.
    rewrite !Rminus_0_r, exp_0. pose proof (exp_pos (- B)). lra. }
  assert (Hln : 0 < ln (relu (sum_at phi 0) + eps)).
  { rewrite <- ln_1. apply ln_increasing; [lra|].
    rewrite relu_pos by lra. lra. }
  rewrite Hpad, Hg in Hval. simpl nth in Hval.
  rewrite Hval. lra.
Qed.

Lemma nll_pmf_loss_unbounded_witness :
  exists a,
    nll_pmf (mk2 [[- 100]] 1) [0%Z] [1] "none" epsilon_default = Ok (Vec [a]) /\
    100 <= a.
Proof.
  apply (nll_pmf_loss_unbounded 100 epsilon_default).
  - lra.
  - unfold epsilon_default. lra.
Defined.

(** ** Negative indices in [nll_pmf_cr] *)

Lemma py_index_from_end (size : nat) (d : Z) :
  (- Z.of_nat size <= d < Z.of_nat size)%Z ->
  py_index size d = py_index size (from_end size d) /\
  (0 <= from_end size d < Z.of_nat size)%Z.
Proof.
  intros H. unfold from_end. destruct (Z.ltb_spec d 0) as [Hneg | Hpos].
  - split; [|lia].
    rewrite (py_index_in_range size (d + Z.of_nat size)) by lia.
    unfold py_index.
    replace ((0 <=? d)%Z && (d <? Z.of_nat size)%Z) with false
      by (symmetry; apply andb_false_iff; left; apply Z.leb_gt; lia).
    replace ((- Z.of_nat size <=? d)%Z && (d <? 0)%Z) with true
      by (symmetry; apply andb_true_iff; split;
          [apply Z.leb_le | apply Z.ltb_lt]; lia).
    reflexivity.
  - split; [reflexivity | lia].
Qed.

Lemma index3_from_end n_risks n_durations sm events idx :
  Forall (fun d => (- Z.of_nat n_durations <= d < Z.of_nat n_durations)%Z) idx ->
  index3 n_risks n_durations sm events idx =
    index3 n_risks n_durations sm events (map (from_end n_durations) idx).
Proof.
  revert events idx; induction sm as [|s sm IH]; intros [|e events] [|d idx] H;
    simpl; try reflexivity.
  inversion H; subst.
  destruct (py_index_from_end n_durations d) as [<- _]; [assumption|].
  rewrite (IH events idx) by assumption. reflexivity.
Qed.

Lemma index_all_risks_from_end n_durations c idx :
  Forall (fun d => (- Z.of_nat n_durations <= d < Z.of_nat n_durations)%Z) idx ->
  index_all_risks n_durations c idx =
    index_all_risks n_durations c (map (from_end n_durations) idx).
Proof.
  revert idx; induction c as [|s c IH]; intros [|d idx] H; simpl; try reflexivity.
  inversion H; subst.
  destruct (py_index_from_end n_durations d) as [<- _]; [assumption|].
  rewrite (IH idx) by assumption. reflexivity.
Qed.

(** X6: [nll_pmf_cr] reads a negative bin index from the end: with every
    index in [-K, K) it returns what it returns on the indices [d + K] put
    for the negative [d], where [nll_pmf] on a negative index fails. *)
Theorem nll_pmf_cr_negative_index (phi : tensor3) (idx events : list Z)
    (reduction : string) (eps : R) :
  Forall (fun d => (- Z.of_nat (shape3_2 phi) <= d < Z.of_nat (shape3_2 phi))%Z) idx ->
  nll_pmf_cr phi idx events reduction eps =
    nll_pmf_cr phi (map (from_end (shape3_2 phi)) idx) events reduction eps /\
  Forall (fun d => (0 <= d < Z.of_nat (shape3_2 phi))%Z)
    (map (from_end (shape3_2 phi)) idx).
Proof.
  intros H. split.
  - unfold nll_pmf_cr. cbv zeta.
    change (shape3_2 (joint_softmax phi)) with (shape3_2 phi).
    rewrite <- index3_from_end by exact H.
    rewrite <- index_all_risks_from_end by exact H.
    reflexivity.
  - apply Forall_forall. intros d' Hin. apply in_map_iff in Hin.
    destruct Hin as (d & <- & Hd). rewrite Forall_forall in H.
    apply py_index_from_end. apply H. exact Hd.
Qed.

Lemma nll_pmf_cr_negative_index_witness :
  nll_pmf_cr phi3_zero [(-1)%Z] [1%Z] "mean" epsilon_default =
    nll_pmf_cr phi3_zero (map (from_end (shape3_2 phi3_zero)) [(-1)%Z]) [1%Z]
      "mean" epsilon_default /\
  Forall (fun d => (0 <= d < Z.of_nat (shape3_2 phi3_zero))%Z)
    (map (from_end (shape3_2 phi3_zero)) [(-1)%Z]).
Proof.
  apply (nll_pmf_cr_negative_index phi3_zero [(-1)%Z] [1%Z] "mean" epsilon_default).
  repeat constructor; simpl; lia.
Defined.

(** ** [rank_loss_deephit_single] *)

Lemma scatter_ok (size n : nat) (idx : list Z) :
  length idx = n ->
  Forall (fun d => (0 <= d < Z.of_nat size)%Z) idx ->
  exists y, scatter_one_hot size n idx = Ok y /\ length y = n.
Proof.
  revert idx; induction n as [|n IH]; intros [|d idx] Hl H; simpl in *;
    try discriminate.
  - exists []. split; reflexivity.
  - inversion H; subst.
    replace ((0 <=? d)%Z && (d <? Z.of_nat size)%Z) with true
      by (symmetry; apply andb_true_iff; split;
          [apply Z.leb_le | apply Z.ltb_lt]; lia).
    destruct (IH idx) as (y & Hy & Hly); [lia | assumption |].
    rewrite Hy. cbn [bind]. eexists; split; [reflexivity|]. simpl. lia.
Qed.

Lemma scatter_out_of_range (size n : nat) (idx : list Z) :
  length idx = n ->
  Exists (fun d => (d < 0 \/ Z.of_nat size <= d)%Z) idx ->
  scatter_one_hot size n idx = Raise IndexError.
Proof.
  revert idx; induction n as [|n IH]; intros [|d idx] Hl H; simpl in *;
    try discriminate; try (inversion H; fail).
  destruct ((0 <=? d)%Z && (d <? Z.of_nat size)%Z) eqn:E; [|reflexivity].
  apply andb_true_iff in E. destruct E as [E1 E2].
  apply Z.leb_le in E1. apply Z.ltb_lt in E2.
  inversion H; subst; [lia|].
  rewrite IH; [reflexivity | lia | assumption].
Qed.

Lemma rank_loss_deephit_valid pmf y rank_mat sigma reduction :
  valid_reduction reduction ->
  is_ok (_rank_loss_deephit pmf y rank_mat sigma reduction).
Proof.
  intros H. unfold _rank_loss_deephit. cbv zeta.
  apply reduction_valid_ok. exact H.
Qed.

(** X8: [rank_loss_deephit_single] has no guard of its own: on a batch of
    [n >= 1] samples with one index per sample, an [n] by [n] [rank_mat] and
    a valid mode it fails exactly when some index is negative or above
    [phi.shape[1]], so it accepts the index [phi.shape[1]] of the padded
    column, which [nll_pmf] refuses. *)
Theorem rank_loss_deephit_single_fails_iff (phi : tensor2) (idx : list Z)
    (events : list R) (rank_mat : tensor2) (sigma : R) (reduction : string) :
  wf2 phi -> rows phi <> [] ->
  square (length (rows phi)) rank_mat ->
  length idx = length (rows phi) ->
  valid_reduction reduction ->
  (fails (rank_loss_deephit_single phi idx events rank_mat sigma reduction) <->
   Exists (fun d => (d < 0 \/ Z.of_nat (shape1 phi) < d)%Z) idx).
Proof.
  intros _ _ _ Hl Hv. unfold rank_loss_deephit_single. cbv zeta.
  assert (Hrows : length (rows (softmax1 (pad_col phi))) = length (rows phi)).
  { unfold softmax1, pad_col. cbn [rows]. rewrite !length_map. reflexivity. }
  change (shape1 (softmax1 (pad_col phi))) with (S (shape1 phi)).
  rewrite Hrows.
  destruct (Exists_dec (fun d => (d < 0 \/ Z.of_nat (shape1 phi) < d)%Z) idx)
    as [Hbad | Hgood].
  { intros d. destruct (Z_lt_dec d 0); [left; tauto|].
    destruct (Z_lt_dec (Z.of_nat (shape1 phi)) d); [left; tauto | right; tauto]. }
  - rewrite scatter_out_of_range; [simpl; tauto | exact Hl |].
    eapply Exists_impl; [|exact Hbad]. simpl. intros; lia.
  - destruct (scatter_ok (S (shape1 phi)) (length (rows phi)) idx Hl)
      as (y & Hy & Hly).
    { apply Forall_forall. intros d Hd.
      destruct (Z_lt_dec d 0) as [Hn | Hn].
      - exfalso. apply Hgood. apply Exists_exists. exists d. tauto.
      - destruct (Z_lt_dec (Z.of_nat (shape1 phi)) d) as [Hb | Hb].
        + exfalso. apply Hgood. apply Exists_exists. exists d. tauto.
        + lia. }
    rewrite Hy. cbn [bind].
    pose proof (rank_loss_deephit_valid (softmax1 (pad_col phi))
                  (mk2 y (S (shape1 phi))) rank_mat sigma reduction Hv) as Hok.
    destruct (_rank_loss_deephit _ _ _ _ _); simpl in *; tauto.
Qed.

Lemma rank_loss_deephit_single_fails_iff_witness :
  fails (rank_loss_deephit_single phi_zero [2%Z] [1] (mk2 [[0]] 1) 1 "mean") <->
  Exists (fun d => (d < 0 \/ Z.of_nat (shape1 phi_zero) < d)%Z) [2%Z].
Proof.
  apply (rank_loss_deephit_single_fails_iff phi_zero [2%Z] [1] (mk2 [[0]] 1) 1 "mean").
  - repeat constructor.
  - discriminate.
  - repeat split. repeat constructor.
  - reflexivity.
  - right; left; reflexivity.
Defined.

Lemma vsum_vmul_zeros (k : nat) (l : list R) : vsum (vmul (repeat 0 k) l) = 0.
Proof.
  revert l; induction k as [|k IH]; intros [|x l]; simpl; try reflexivity.
  unfold vmul in IH. rewrite IH. ring.
Qed.

Lemma zero_rank_rows (k n : nat) (L : list (list R)) :
  length L = n ->
  map (fun r => [vmean r]) (zip_with vmul (repeat (repeat 0 k) n) L) = repeat [0] n.
Proof.
  revert L; induction n as [|n IH]; intros [|l L] H; simpl in *;
    try discriminate; try reflexivity.
  rewrite IH by lia. f_equal. f_equal.
  unfold vmean. rewrite vsum_vmul_zeros. unfold Rdiv. ring.
Qed.

Lemma vsum_concat_zeros (n : nat) : vsum (concat (repeat [0] n)) = 0.
Proof. induction n as [|n IH]; simpl; [reflexivity | rewrite IH; ring]. Qed.

(** X7: with the all-zero [rank_mat] and [sigma >= 1/80] (where
    [exp(-R / sigma)] stays finite in float32, the entries of [R] being
    differences of cumulative probabilities), on a batch of at least one
    sample with every index in [0, K], [rank_loss_deephit_single] returns
    zero in every reduction mode: a column of zeros for ['none'], 0 for
    ['mean'] and ['sum']. *)
Theorem rank_loss_deephit_single_zero_rank_mat (phi : tensor2) (idx : list Z)
    (events : list R) (sigma : R) :
  wf2 phi ->
  batch_rank_ok phi idx ->
  Forall (fun d => (0 <= d <= Z.of_nat (shape1 phi))%Z) idx ->
  1 / 80 <= sigma ->
  let n := length (rows phi) in
  rank_loss_deephit_single phi idx events (zeros n) sigma "none"
    = Ok (Mat (repeat [0] n)) /\
  rank_loss_deephit_single phi idx events (zeros n) sigma "mean" = Ok (Scalar 0) /\
  rank_loss_deephit_single phi idx events (zeros n) sigma "sum" = Ok (Scalar 0).
Proof.
  intros _ [Hne Hl] Hidx _ n.
  assert (Hrows : length (rows (softmax1 (pad_col phi))) = n).
  { unfold softmax1, pad_col. cbn [rows]. rewrite !length_map. reflexivity. }
  destruct (scatter_ok (S (shape1 phi)) n idx Hl) as (y & Hy & Hly).
  { eapply Forall_impl; [|exact Hidx]. simpl. intros; lia. }
  assert (Hnone : rank_loss_deephit_single phi idx events (zeros n) sigma "none"
                  = Ok (Mat (repeat [0] n))).
  { unfold rank_loss_deephit_single. cbv zeta.
    change (shape1 (softmax1 (pad_col phi))) with (S (shape1 phi)).
    rewrite Hrows, Hy. cbn [bind].
    unfold _rank_loss_deephit. cbv zeta. rewrite reduction_none.
    pose proof (length_rows_diff_cdf (softmax1 (pad_col phi)) (mk2 y (S (shape1 phi))))
      as Hr.
    cbn [rows] in Hr. rewrite Hrows, Hly, Nat.min_id in Hr.
    set (r := _diff_cdf_at_time_i (softmax1 (pad_col phi)) (mk2 y (S (shape1 phi)))) in *.
    clearbody r.
    unfold mean1_keepdim, mmul, mmap, zeros. cbn [rows].
    rewrite zero_rank_rows by (rewrite length_map; exact Hr).
    reflexivity. }
  destruct (rank_loss_deephit_single_consistent phi idx events (zeros n) sigma)
    as [Hsum Hmean].
  split; [exact Hnone|]. split.
  - rewrite Hmean, Hnone. cbn [fmap bind]. f_equal. f_equal.
    unfold out_mean, vmean. cbn [out_entries]. rewrite vsum_concat_zeros.
    unfold Rdiv. ring.
  - rewrite Hsum, Hnone. cbn [fmap bind]. f_equal. f_equal.
    unfold out_sum. cbn [out_entries]. apply vsum_concat_zeros.
Qed.

Lemma rank_loss_deephit_single_zero_rank_mat_witness :
  let n := length (rows phi_zero) in
  rank_loss_deephit_single phi_zero [1%Z] [1] (zeros n) 1 "none"
    = Ok (Mat (repeat [0] n)) /\
  rank_loss_deephit_single phi_zero [1%Z] [1] (zeros n) 1 "mean" = Ok (Scalar 0) /\
  rank_loss_deephit_single phi_zero [1%Z] [1] (zeros n) 1 "sum" = Ok (Scalar 0).
Proof.
  apply (rank_loss_deephit_single_zero_rank_mat phi_zero [1%Z] [1] 1).
  - repeat constructor.
  - split; [discriminate | reflexivity].
  - repeat constructor; simpl; lia.
  - lra.
Defined.

(** ** The pmf of the rank loss *)

Lemma vsum_exp_pos (l : list R) : l <> [] -> 0 < vsum (map exp l).
Proof.
  destruct l as [|x l]; [congruence|]. intros _. simpl.
  pose proof (exp_pos x). pose proof (vsum_exp_nonneg l). lra.
Qed.

(** X9: every row of the pmf that [rank_loss_deephit_single] builds,
    [pad_col(phi).softmax(1)], has positive entries that sum to one over
    its [K + 1] columns. *)
Theorem padded_softmax_is_pmf (phi : tensor2) :
  Forall (fun row => vsum row = 1 /\ Forall (fun p => 0 < p) row)
    (rows (softmax1 (pad_col phi))).
Proof.
  unfold softmax1, pad_col. cbn [rows]. rewrite map_map.
  apply Forall_forall. intros row Hin. apply in_map_iff in Hin.
  destruct Hin as (r & <- & _).
  assert (HS : 0 < vsum (map exp (r ++ [0]))).
  { apply vsum_exp_pos. destruct r; discriminate. }
  unfold softmax, vexp. split.
  - rewrite vsum_map_div. field. lra.
  - apply Forall_forall. intros p Hp. apply in_map_iff in Hp.
    destruct Hp as (e & <- & He). apply in_map_iff in He.
    destruct He as (x & <- & _).
    apply Rdiv_lt_0_compat; [apply exp_pos | exact HS].
Qed.

(** ** [DeepHitSingleLoss.forward] without reduction *)

Lemma row_add_singleton (u : list R) (y : R) :
  row_add u [y] = map (fun a => a + y) u.
Proof. destruct u as [|x [|x' u]]; reflexivity. Qed.

Lemma rank_loss_deephit_single_none (phi : tensor2) (idx : list Z)
    (events : list R) (rank_mat : tensor2) (sigma : R) :
  length idx = length (rows phi) ->
  Forall (fun d => (0 <= d <= Z.of_nat (shape1 phi))%Z) idx ->
  length (rows rank_mat) = length (rows phi) ->
  exists rl,
    rank_loss_deephit_single phi idx events rank_mat sigma "none"
      = Ok (Mat (map (fun x => [x]) rl)) /\
    length rl = length (rows phi).
Proof.
  intros Hl Hidx Hrm.
  assert (Hrows : length (rows (softmax1 (pad_col phi))) = length (rows phi)).
  { unfold softmax1, pad_col. cbn [rows]. rewrite !length_map. reflexivity. }
  destruct (scatter_ok (S (shape1 phi)) (length (rows phi)) idx Hl) as (y & Hy & Hly).
  { eapply Forall_impl; [|exact Hidx]. simpl. intros; lia. }
  unfold rank_loss_deephit_single. cbv zeta.
  change (shape1 (softmax1 (pad_col phi))) with (S (shape1 phi)).
  rewrite Hrows, Hy. cbn [bind].
  unfold _rank_loss_deephit. cbv zeta. rewrite reduction_none.
  pose proof (length_rows_diff_cdf (softmax1 (pad_col phi)) (mk2 y (S (shape1 phi))))
    as Hr.
  cbn [rows] in Hr. rewrite Hrows, Hly, Nat.min_id in Hr.
  set (r := _diff_cdf_at_time_i (softmax1 (pad_col phi)) (mk2 y (S (shape1 phi)))) in *.
  clearbody r.
  exists (map vmean (rows (mmul rank_mat (mmap (fun x => exp (- x / sigma)) r)))).
  split.
  - unfold mean1_keepdim. cbn [rows]. rewrite map_map. reflexivity.
  - unfold mmul, mmap. cbn [rows].
    rewrite length_map, length_zip_with, length_map. lia.
Qed.

(** X10: with [reduction = 'none'], [DeepHitSingleLoss.forward] adds the
    likelihood vector of shape [n] to the rank loss of shape [n, 1]; the
    backend broadcasts, and the result is an [n] by [n] matrix whose entry
    [(i, j)] is [alpha * nll_j + (1 - alpha) * rank_loss_i], not one loss
    per sample.  ([rank_mat] is the [n] by [n] matrix of the batch.) *)
Theorem DeepHitSingleLoss_forward_none_is_square (phi : tensor2) (idx : list Z)
    (events : list R) (rank_mat : tensor2) (alpha sigma : R) :
  batch_ok phi idx events ->
  Forall (fun d => (0 <= d < Z.of_nat (shape1 phi))%Z) idx ->
  square (length (rows phi)) rank_mat ->
  let self := mkDeepHitSingleLoss "none" alpha sigma in
  let n := length (rows phi) in
  exists nll rl m,
    nll_pmf phi idx events "none" epsilon_default = Ok (Vec nll) /\
    rank_loss_deephit_single phi idx events rank_mat sigma "none"
      = Ok (Mat (map (fun x => [x]) rl)) /\
    length nll = n /\ length rl = n /\
    DeepHitSingleLoss_forward phi idx events rank_mat self = (self, Ok (Mat m)) /\
    length m = n /\
    forall i, (i < n)%nat ->
      length (nth i m []) = n /\
      forall j, (j < n)%nat ->
        nth j (nth i m []) 0 = alpha * nth j nll 0 + (1 - alpha) * nth i rl 0.
Proof.
  intros Hb Hidx (_ & Hrm & _) self n.
  destruct (nll_pmf_value phi idx events epsilon_default Hb Hidx)
    as (nll & Hred & Hlen & _).
  destruct Hb as (_ & _ & Hli & _).
  destruct (rank_loss_deephit_single_none phi idx events rank_mat sigma Hli)
    as (rl & Hrank & Hlrl); [|exact Hrm|].
  { eapply Forall_impl; [|exact Hidx]. simpl. intros; lia. }
  exists nll, rl. eexists.
  split; [rewrite Hred; reflexivity|]. split; [exact Hrank|].
  split; [exact Hlen|]. split; [exact Hlrl|].
  split.
  { unfold DeepHitSingleLoss_forward, mbind, getattr, lift, ret, self.
    cbn [dhs_reduction dhs_sigma dhs_alpha].
    rewrite Hred, reduction_none, Hrank. cbn [out_scale out_add]. reflexivity. }
  split.
  { rewrite !length_map. exact Hlrl. }
  intros i Hi.
  rewrite (nth_map_in (row_add (map (Rmult alpha) nll)) _ i [] [])
    by (rewrite !length_map; lia).
  rewrite (nth_map_in (map (Rmult (1 - alpha))) _ i [] [])
    by (rewrite length_map; lia).
  rewrite (nth_map_in (fun x => [x]) rl i [] 0) by lia.
  cbn [map]. rewrite row_add_singleton. split.
  - rewrite !length_map. exact Hlen.
  - intros j Hj.
    rewrite (nth_map_in (fun a => a + (1 - alpha) * nth i rl 0) _ j 0 0)
      by (rewrite length_map; lia).
    rewrite (nth_map_in (Rmult alpha) nll j 0 0) by lia.
    reflexivity.
Qed.

Lemma DeepHitSingleLoss_forward_none_is_square_witness :
  let self := mkDeepHitSingleLoss "none" (1/2) 1 in
  let n := length (rows phi_two) in
  exists nll rl m,
    nll_pmf phi_two [1%Z; 0%Z] [1; 0] "none" epsilon_default = Ok (Vec nll) /\
    rank_loss_deephit_single phi_two [1%Z; 0%Z] [1; 0] rank_mat_two 1 "none"
      = Ok (Mat (map (fun x => [x]) rl)) /\
    length nll = n /\ length rl = n /\
    DeepHitSingleLoss_forward phi_two [1%Z; 0%Z] [1; 0] rank_mat_two self
      = (self, Ok (Mat m)) /\
    length m = n /\
    forall i, (i < n)%nat ->
      length (nth i m []) = n /\
      forall j, (j < n)%nat ->
        nth j (nth i m []) 0 = 1/2 * nth j nll 0 + (1 - 1/2) * nth i rl 0.
Proof.
  apply (DeepHitSingleLoss_forward_none_is_square phi_two [1%Z; 0%Z] [1; 0]
           rank_mat_two (1/2) 1).
  - unfold batch_ok, wf2, phi_two; simpl.
    repeat split; [repeat constructor | discriminate].
  - repeat constructor; simpl; lia.
  - repeat split. repeat constructor.
Defined.

(** ** Samples without a risk in [rank_loss_deephit_cr] *)

Lemma assign_one_hot_ok (n_risks n_durations batch_size : nat) (idx : list Z) :
  Forall (fun d => (- Z.of_nat n_durations <= d < Z.of_nat n_durations)%Z) idx ->
  exists y, assign_one_hot n_risks n_durations batch_size idx = Ok y.
Proof.
  revert idx; induction batch_size as [|b IH]; intros [|d idx] H; simpl;
    try (eexists; reflexivity).
  inversion H; subst.
  destruct (py_index_from_end n_durations d) as [E Hr]; [assumption|].
  rewrite E, py_index_in_range by exact Hr. cbn [bind].
  destruct (IH idx) as (y & Hy); [assumption|].
  rewrite Hy. cbn [bind]. eexists; reflexivity.
Qed.

Lemma rank_loss_deephit_none_ok pmf y rank_mat sigma :
  exists o, _rank_loss_deephit pmf y rank_mat sigma "none" = Ok o.
Proof. unfold _rank_loss_deephit. cbv zeta. rewrite reduction_none. eexists; reflexivity. Qed.

Lemma rank_loss_per_risk_ok pmf y events rank_mat sigma risks :
  exists loss, rank_loss_per_risk pmf y events rank_mat sigma risks = Ok loss.
Proof.
  induction risks as [|r risks [l Hl]]; cbn [rank_loss_per_risk].
  - eexists; reflexivity.
  - destruct (rank_loss_deephit_none_ok (select_risk pmf r) (select_risk y r)
                rank_mat sigma) as (o & Ho).
    rewrite Ho, Hl. cbn [bind]. eexists; reflexivity.
Qed.

Lemma nth_vmul_masked (a b : list R) (i : nat) :
  nth i b 0 = 0 -> nth i (vmul a b) 0 = 0.
Proof.
  revert b i; induction a as [|x a IH]; intros [|y b] [|i] H; simpl in *;
    try reflexivity.
  - rewrite H. ring.
  - apply IH. exact H.
Qed.

Lemma nth_eq_float_other (c : Z) (v : list Z) (i : nat) :
  nth i v 0%Z <> c -> nth i (eq_float c v) 0 = 0.
Proof.
  revert i; induction v as [|e v IH]; intros [|i] H; simpl in *; try reflexivity.
  - destruct (Z.eqb_spec e c); [congruence | reflexivity].
  - apply IH. exact H.
Qed.

Lemma rank_loss_per_risk_masked pmf y events rank_mat sigma risks (i : nat) :
  (forall r, In r risks -> nth i events 0%Z <> Z.of_nat r) ->
  exists loss,
    rank_loss_per_risk pmf y events rank_mat sigma risks = Ok loss /\
    Forall (fun lo => nth i (out_entries lo) 0 = 0) loss.
Proof.
  induction risks as [|r risks IH]; intros H; cbn [rank_loss_per_risk].
  - exists []. split; [reflexivity | constructor].
  - destruct (rank_loss_deephit_none_ok (select_risk pmf r) (select_risk y r)
                rank_mat sigma) as (o & Ho).
    rewrite Ho. cbn [bind].
    destruct IH as (loss & Hloss & Hall).
    { intros r' Hr'. apply H. right. exact Hr'. }
    rewrite Hloss. cbn [bind]. eexists; split; [reflexivity|].
    constructor; [|exact Hall].
    cbn [out_entries]. apply nth_vmul_masked. apply nth_eq_float_other.
    apply H. left. reflexivity.
Qed.

Lemma nth_vadd (a v : list R) (i : nat) :
  length a = length v -> nth i (vadd a v) 0 = nth i a 0 + nth i v 0.
Proof.
  revert v i; induction a as [|x a IH]; intros [|y v] [|i] H; simpl in *;
    try discriminate; try ring.
  apply IH. lia.
Qed.

Lemma fold_vectors_entry (n : nat) (loss : list out) (a : list R) (i : nat) :
  vectors_of_length n loss -> length a = n ->
  Forall (fun lo => nth i (out_entries lo) 0 = 0) loss ->
  exists s, fold_left out_add loss (Vec a) = Vec s /\ nth i s 0 = nth i a 0.
Proof.
  revert a; induction loss as [|lo loss IH]; intros a Hv Ha Hz.
  - exists a. split; reflexivity.
  - inversion Hv as [|? ? (v & -> & Hlv) Hrest]; subst.
    inversion Hz as [|? ? Hz0 Hzrest]; subst. cbn [out_entries] in Hz0.
    simpl fold_left. rewrite row_add_same_length by lia.
    destruct (IH (vadd a v) Hrest) as (s & Hs & Hnth).
    { unfold vadd. rewrite length_zip_with. lia. }
    { exact Hzrest. }
    exists s. split; [exact Hs|].
    rewrite Hnth, nth_vadd by lia. rewrite Hz0. ring.
Qed.

Lemma nth_map_plus0 (v : list R) (i : nat) :
  nth i (map (Rplus 0) v) 0 = nth i v 0.
Proof.
  revert i; induction v as [|x v IH]; intros [|i]; simpl; try reflexivity.
  - ring.
  - apply IH.
Qed.

(** X11: [rank_loss_deephit_cr] masks each per-risk loss with
    [events - 1 == risk]: on a batch of [n >= 1] samples with at least one
    risk, one index in [-K, K) and one label per sample and an [n] by [n]
    [rank_mat], the ['none'] call returns, and a sample whose label is no
    risk in [1, n_risks] (a censored sample, label 0, or a label out of
    range, which is not rejected) has the loss 0 (over the reals). *)
Theorem rank_loss_deephit_cr_ignores_unlabelled (phi : tensor3) (idx events : list Z)
    (rank_mat : tensor2) (sigma : R) :
  wf3 phi -> samples phi <> [] -> (1 <= shape3_1 phi)%nat ->
  length idx = length (samples phi) -> length events = length (samples phi) ->
  square (length (samples phi)) rank_mat ->
  Forall (fun d => (- Z.of_nat (shape3_2 phi) <= d < Z.of_nat (shape3_2 phi))%Z) idx ->
  exists o,
    rank_loss_deephit_cr phi idx events rank_mat sigma "none" = Ok o /\
    forall i, (i < length events)%nat ->
      (nth i events 0 <= 0 \/ Z.of_nat (shape3_1 phi) < nth i events 0)%Z ->
      nth i (out_entries o) 0 = 0.
Proof.
  intros _ _ _ _ _ _ Hidx.
  destruct (assign_one_hot_ok (shape3_1 phi) (shape3_2 phi) (length (samples phi))
              idx Hidx) as (y & Hy).
  unfold rank_loss_deephit_cr. cbv zeta. rewrite Hy. cbn [bind].
  set (pmf := joint_softmax phi).
  set (y3 := mk3 y (shape3_1 phi) (shape3_2 phi)).
  destruct (rank_loss_per_risk_ok pmf y3 (minus_one events) rank_mat sigma
              (seq 0 (shape3_1 phi))) as (loss & E).
  rewrite E.
  cbn [bind]. simpl String.eqb. cbv iota.
  eexists; split; [reflexivity|].
  intros i Hi Hlabel.
  pose proof (rank_loss_per_risk_vectors _ _ _ _ _ _ _ E) as Hvec.
  destruct (rank_loss_per_risk_masked pmf y3 (minus_one events) rank_mat sigma
              (seq 0 (shape3_1 phi)) i) as (loss' & E' & Hzero).
  { intros r Hr. apply in_seq in Hr. unfold minus_one.
    rewrite (nth_map_in (fun e => (e - 1)%Z) events i 0%Z 0%Z) by exact Hi.
    lia. }
  rewrite E in E'. injection E' as <-.
  unfold py_sum. destruct loss as [|lo loss].
  - simpl. destruct i as [|[|i]]; reflexivity.
  - inversion Hvec as [|? ? (v & -> & Hlv) Hrest]; subst.
    inversion Hzero as [|? ? Hz0 Hzrest]; subst. cbn [out_entries] in Hz0.
    simpl fold_left.
    destruct (fold_vectors_entry _ loss (map (Rplus 0) v) i Hrest)
      as (s & Hs & Hnth); [rewrite length_map; exact Hlv | exact Hzrest |].
    rewrite Hs. cbn [out_entries]. rewrite Hnth, nth_map_plus0. exact Hz0.
Qed.

Lemma rank_loss_deephit_cr_ignores_unlabelled_witness :
  exists o,
    rank_loss_deephit_cr phi3_zero [0%Z] [0%Z] (mk2 [[1]] 1) 1 "none" = Ok o /\
    forall i, (i < length [0%Z])%nat ->
      (nth i [0%Z] 0 <= 0 \/ Z.of_nat (shape3_1 phi3_zero) < nth i [0%Z] 0)%Z ->
      nth i (out_entries o) 0 = 0.
Proof.
  apply (rank_loss_deephit_cr_ignores_unlabelled phi3_zero [0%Z] [0%Z]
           (mk2 [[1]] 1) 1).
  - repeat constructor.
  - discriminate.
  - simpl; lia.
  - reflexivity.
  - reflexivity.
  - repeat split. repeat constructor.
  - repeat constructor; simpl; lia.
Defined.

(** ** [LabTransCoxTime]: fitting, transforming, the inverse map *)

Import LabelTransforms.

Lemma fit_transform_fitted (self : LabTransCoxTime) (durations events : list R) :
  durations <> [] ->
  fit_transform durations events self =
    (fitted self durations,
     Ok (map (fitted_value self durations) durations, events)).
Proof.
  intros Hne.
  assert (Hpre : (if log_duration self then map log1p durations else durations)
                 = map (pre_scale self) durations).
  { unfold pre_scale. destruct (log_duration self); [reflexivity|].
    symmetry. apply map_id. }
  assert (Hy : map (pre_scale self) durations <> []).
  { destruct durations; [congruence | discriminate]. }
  unfold fit_transform, mbind, getattr, on_scaler, setattr, ret.
  rewrite Hpre.
  destruct (map (pre_scale self) durations) as [|y0 y] eqn:Ey; [congruence|].
  unfold scaler_fit_transform, mbind, setattr, getattr, lift, scaler_transform.
  cbn [mean_ scale_ with_mean with_std log_duration duration_scaler
       _inverse_duration_map].
  unfold fitted, fitted_value. rewrite Ey.
  assert (Hmap : forall m s,
            (let x := if with_mean (duration_scaler self)
                      then map (fun v => v - m) (y0 :: y) else y0 :: y in
             if with_std (duration_scaler self) then map (fun v => v / s) x else x)
            = map (fun x => scale_value (with_mean (duration_scaler self))
                              (with_std (duration_scaler self)) m s (pre_scale self x))
                durations).
  { intros m s. rewrite <- (map_map (pre_scale self)), Ey. cbv zeta.
    unfold scale_value.
    destruct (with_mean (duration_scaler self)), (with_std (duration_scaler self));
      rewrite ?map_map, ?map_id; reflexivity. }
  cbv zeta in Hmap. rewrite Hmap. reflexivity.
Qed.

(** X12: [map_scaled_to_orig] is there only after a successful fit: on a
    fresh instance it raises the [ValueError] of the property, a [fit] on no
    duration raises and leaves the instance unfitted, and after a [fit] on
    training durations the property returns the lookup. *)
Theorem map_scaled_to_orig_needs_fit (log wm ws : bool) (durations events : list R) :
  durations <> [] ->
  let fresh := LabTransCoxTime_init log wm ws in
  fails (snd (map_scaled_to_orig fresh)) /\
  (exists e, LabTransCoxTime_fit [] events fresh = (fresh, Raise e)) /\
  exists self' f,
    LabTransCoxTime_fit durations events fresh = (self', Ok tt) /\
    map_scaled_to_orig self' = (self', Ok f).
Proof.
  intros Hne fresh. split; [exact I|]. split.
  - unfold LabTransCoxTime_fit, fit_transform, mbind, getattr, on_scaler, fresh.
    simpl. destruct log; eexists; reflexivity.
  - unfold LabTransCoxTime_fit, mbind.
    rewrite (fit_transform_fitted fresh durations events Hne).
    eexists. eexists. split; reflexivity.
Qed.

Lemma map_scaled_to_orig_needs_fit_witness :
  let fresh := LabTransCoxTime_init false true true in
  fails (snd (map_scaled_to_orig fresh)) /\
  (exists e, LabTransCoxTime_fit [] [1; 0; 1; 1] fresh = (fresh, Raise e)) /\
  exists self' f,
    LabTransCoxTime_fit durations_example [1; 0; 1; 1] fresh = (self', Ok tt) /\
    map_scaled_to_orig self' = (self', Ok f).
Proof.
  apply (map_scaled_to_orig_needs_fit false true true durations_example [1; 0; 1; 1]).
  discriminate.
Defined.

(** X13: [transform] agrees with [fit_transform]: after fitting on training
    durations, [transform] maps any durations by the same fitted function
    (so the training durations to what [fit_transform] returned) and leaves
    the instance as it is; before any fit it raises. *)
Theorem transform_agrees_with_fit_transform (self : LabTransCoxTime)
    (durations events x events2 : list R) :
  durations <> [] -> x <> [] ->
  exists self' scaled,
    fit_transform durations events self = (self', Ok (scaled, events)) /\
    LabTransCoxTime_transform durations events2 self' = (self', Ok (scaled, events2)) /\
    LabTransCoxTime_transform x events2 self'
      = (self', Ok (map (fitted_value self durations) x, events2)) /\
    fails (snd (LabTransCoxTime_transform x events2
                  (LabTransCoxTime_init (log_duration self)
                     (with_mean (duration_scaler self))
                     (with_std (duration_scaler self))))).
Proof.
  intros Hne Hx.
  exists (fitted self durations), (map (fitted_value self durations) durations).
  split; [apply fit_transform_fitted; exact Hne|].
  assert (Ht : forall z, z <> [] ->
            LabTransCoxTime_transform z events2 (fitted self durations)
            = (fitted self durations, Ok (map (fitted_value self durations) z, events2))).
  { intros z Hz.
    assert (Hpre : (if log_duration self then map log1p z else z)
                   = map (pre_scale self) z).
    { unfold pre_scale. destruct (log_duration self); [reflexivity|].
      symmetry. apply map_id. }
    unfold LabTransCoxTime_transform, mbind, getattr, on_scaler, ret, fitted.
    cbn [log_duration duration_scaler _inverse_duration_map].
    rewrite Hpre.
    unfold scaler_transform_method, mbind, getattr, lift, raise, scaler_transform.
    cbn [mean_ scale_ with_mean with_std].
    destruct (map (pre_scale self) z) as [|y0 y] eqn:Ey.
    { destruct z; [congruence | discriminate]. }
    rewrite <- Ey. f_equal. f_equal. f_equal.
    unfold fitted_value, scale_value.
    destruct (with_mean (duration_scaler self)), (with_std (duration_scaler self));
      rewrite ?map_map, ?map_id; reflexivity. }
  split; [apply Ht; exact Hne|]. split; [apply Ht; exact Hx|].
  unfold LabTransCoxTime_transform, LabTransCoxTime_init, mbind, getattr, on_scaler.
  simpl. exact I.
Qed.

Lemma transform_agrees_with_fit_transform_witness :
  exists self' scaled,
    fit_transform durations_example [1; 0; 1; 1] (LabTransCoxTime_init false true true)
      = (self', Ok (scaled, [1; 0; 1; 1])) /\
    LabTransCoxTime_transform durations_example [0] self' = (self', Ok (scaled, [0])) /\
    LabTransCoxTime_transform [3] [0] self'
      = (self', Ok (map (fitted_value (LabTransCoxTime_init false true true)
                           durations_example) [3], [0])) /\
    fails (snd (LabTransCoxTime_transform [3] [0]
                  (LabTransCoxTime_init
                     (log_duration (LabTransCoxTime_init false true true))
                     (with_mean (duration_scaler (LabTransCoxTime_init false true true)))
                     (with_std (duration_scaler (LabTransCoxTime_init false true true)))))).
Proof.
  apply (transform_agrees_with_fit_transform (LabTransCoxTime_init false true true)
           durations_example [1; 0; 1; 1] [3] [0]); discriminate.
Defined.

Lemma handle_zeros_pos (s : R) : 0 <= s -> 0 < handle_zeros_in_scale s.
Proof.
  intros H. unfold handle_zeros_in_scale. destruct (Req_dec_T s 0); lra.
Qed.

Lemma scale_value_increasing wm ws m s (u v : R) :
  0 < s -> u < v -> scale_value wm ws m s u < scale_value wm ws m s v.
Proof.
  intros Hs Huv. unfold scale_value.
  assert (Hdiv : forall a b, a < b -> a / s < b / s).
  { intros a b H. unfold Rdiv. apply Rmult_lt_compat_r; [|exact H].
    apply Rinv_0_lt_compat. exact Hs. }
  destruct wm, ws; try apply Hdiv; lra.
Qed.

Lemma fitted_value_increasing (self : LabTransCoxTime) (durations : list R) (u v : R) :
  (log_duration self = true -> -1 < u) ->
  u < v ->
  fitted_value self durations u < fitted_value self durations v.
Proof.
  intros Hlog Huv. unfold fitted_value. cbv zeta.
  apply scale_value_increasing.
  - apply handle_zeros_pos. apply sqrt_pos.
  - unfold pre_scale. destruct (log_duration self); [|exact Huv].
    specialize (Hlog eq_refl). unfold log1p. apply ln_increasing; lra.
Qed.

(** X14: over the reals, the durations [fit_transform] returns keep the
    order of the training durations (taken above -1 when the logarithm is
    on): a smaller duration gets a smaller transformed duration.  (In the
    float64 arithmetic of the code two durations can get one transformed
    value.) *)
Theorem fit_transform_keeps_order (self : LabTransCoxTime) (durations events : list R) :
  durations <> [] ->
  (log_duration self = true -> Forall (fun x => -1 < x) durations) ->
  exists self' scaled,
    fit_transform durations events self = (self', Ok (scaled, events)) /\
    length scaled = length durations /\
    forall i j, (i < length durations)%nat -> (j < length durations)%nat ->
      nth i durations 0 < nth j durations 0 ->
      nth i scaled 0 < nth j scaled 0.
Proof.
  intros Hne Hlog.
  exists (fitted self durations), (map (fitted_value self durations) durations).
  split; [apply fit_transform_fitted; exact Hne|].
  split; [apply length_map|].
  intros i j Hi Hj Hlt.
  rewrite !(nth_map_in (fitted_value self durations) durations _ 0 0) by assumption.
  apply fitted_value_increasing; [|exact Hlt].
  intros E. specialize (Hlog E). rewrite Forall_forall in Hlog.
  apply Hlog. apply nth_In. exact Hi.
Qed.

Lemma fit_transform_keeps_order_witness :
  exists self' scaled,
    fit_transform durations_example [1; 0; 1; 1] (LabTransCoxTime_init true true true)
      = (self', Ok (scaled, [1; 0; 1; 1])) /\
    length scaled = length durations_example /\
    forall i j, (i < length durations_example)%nat ->
                (j < length durations_example)%nat ->
      nth i durations_example 0 < nth j durations_example 0 ->
      nth i scaled 0 < nth j scaled 0.
Proof.
  apply (fit_transform_keeps_order (LabTransCoxTime_init true true true)
           durations_example [1; 0; 1; 1]).
  - discriminate.
  - intros _. unfold durations_example. repeat constructor; lra.
Defined.

Lemma vsum_map_minus (m : R) (y : list R) :
  vsum (map (fun v => v - m) y) = vsum y - INR (length y) * m.
Proof.
  induction y as [|x y IH].
  - simpl. ring.
  - cbn [map vsum fold_right length] in *. rewrite S_INR.
    change (fold_right Rplus 0 (map (fun v => v - m) y))
      with (vsum (map (fun v => v - m) y)).
    rewrite IH. unfold vsum. ring.
Qed.

Lemma vsum_centred (y : list R) :
  y <> [] -> vsum (map (fun v => v - vmean y) y) = 0.
Proof.
  intros Hne. rewrite vsum_map_minus. unfold vmean. field.
  apply not_0_INR. destruct y; [congruence | discriminate].
Qed.

(** X15: when the scaler centres ([with_mean]), the durations
    [fit_transform] returns sum to zero: the training set is transformed
    to mean zero. *)
Theorem fit_transform_centres (self : LabTransCoxTime) (durations events : list R) :
  durations <> [] ->
  with_mean (duration_scaler self) = true ->
  exists self' scaled,
    fit_transform durations events self = (self', Ok (scaled, events)) /\
    vsum scaled = 0.
Proof.
  intros Hne Hwm.
  exists (fitted self durations), (map (fitted_value self durations) durations).
  split; [apply fit_transform_fitted; exact Hne|].
  unfold fitted_value. cbv zeta. rewrite Hwm.
  set (y := map (pre_scale self) durations).
  assert (Hy : y <> []).
  { unfold y. destruct durations; [congruence | discriminate]. }
  rewrite <- (map_map (pre_scale self)
                (scale_value true (with_std (duration_scaler self)) (vmean y)
                   (handle_zeros_in_scale (sqrt (variance y))))).
  fold y. unfold scale_value.
  destruct (with_std (duration_scaler self)).
  - rewrite <- (map_map (fun v => v - vmean y)
                  (fun v => v / handle_zeros_in_scale (sqrt (variance y)))).
    rewrite vsum_map_div, vsum_centred by exact Hy. unfold Rdiv. ring.
  - apply vsum_centred. exact Hy.
Qed.

Lemma fit_transform_centres_witness :
  exists self' scaled,
    fit_transform durations_example [1; 0; 1; 1] (LabTransCoxTime_init false true true)
      = (self', Ok (scaled, [1; 0; 1; 1])) /\
    vsum scaled = 0.
Proof.
  apply (fit_transform_centres (LabTransCoxTime_init false true true)
           durations_example [1; 0; 1; 1]).
  - discriminate.
  - reflexivity.
Defined.

(** ** [LabTransDiscreteSurv]: the state of an instance *)

(** X16: on every instance [__init__] returns, whatever the [cuts] argument,
    [transform] before [fit] raises on the missing attribute [idu] and
    leaves the instance as it is; on an instance built on an array of cuts
    [fit_transform] raises it too. *)
Theorem transform_needs_fit
    (make_cuts : cuts_arg -> list R -> list R -> R -> result (list R))
    (idu_transform : list R -> list R -> list R -> result (list Z * list R))
    (c : cuts_arg) (lo : R) (self : LabTransDiscreteSurv) (durations events : list R) :
  LabTransDiscreteSurv_init c lo = Ok self ->
  transform idu_transform durations events self
    = (self, Raise (AttributeError "idu")) /\
  (_predefinded_cuts self = true ->
   snd (LabTransDiscreteSurv_fit_transform make_cuts idu_transform durations events self)
     = Raise (AttributeError "idu")).
Proof.
  intros Hinit.
  assert (Hidu : idu self = None).
  { destruct c as [n | s n | [|x a]]; simpl in Hinit; try discriminate;
      injection Hinit as <-; reflexivity. }
  split.
  - unfold transform, mbind, getattr, raise. rewrite Hidu. reflexivity.
  - intros Hpre.
    unfold LabTransDiscreteSurv_fit_transform, fit, transform, mbind, getattr,
      setattr, raise.
    rewrite Hpre. cbn [idu]. rewrite Hidu. reflexivity.
Qed.

Lemma transform_needs_fit_witness :
  transform (fun _ _ _ => Ok ([], [])) [1] [1]
    (mkLabTransDiscreteSurv true (CutsArray [0; 1]) 0 None None [])
    = (mkLabTransDiscreteSurv true (CutsArray [0; 1]) 0 None None [],
       Raise (AttributeError "idu")) /\
  (_predefinded_cuts (mkLabTransDiscreteSurv true (CutsArray [0; 1]) 0 None None [])
     = true ->
   snd (LabTransDiscreteSurv_fit_transform (fun _ _ _ _ => Ok [0; 1])
          (fun _ _ _ => Ok ([], [])) [1] [1]
          (mkLabTransDiscreteSurv true (CutsArray [0; 1]) 0 None None []))
     = Raise (AttributeError "idu")).
Proof.
  apply (transform_needs_fit (fun _ _ _ _ => Ok [0; 1]) (fun _ _ _ => Ok ([], []))
           (CutsArray [0; 1]) 0
           (mkLabTransDiscreteSurv true (CutsArray [0; 1]) 0 None None []) [1] [1]).
  reflexivity.
Defined.

(** X17: [fit] keeps the index mapper on the current cuts and never touches
    what the constructor stored: after [fit], returned or raised, [idu] is
    built on [cuts], and [_cuts], [min_] and [_predefinded_cuts] are as
    before; a [fit] that raises leaves the whole instance as it was, and
    [transform] never changes the instance. *)
Theorem fit_keeps_mapper_on_cuts
    (make_cuts : cuts_arg -> list R -> list R -> R -> result (list R))
    (idu_transform : list R -> list R -> list R -> result (list Z * list R))
    (self : LabTransDiscreteSurv) (durations events : list R) :
  mapper_on_cuts self ->
  let self' := fst (fit make_cuts durations events self) in
  mapper_on_cuts self' /\
  _cuts self' = _cuts self /\ min_ self' = min_ self /\
  _predefinded_cuts self' = _predefinded_cuts self /\
  (fails (snd (fit make_cuts durations events self)) -> self' = self) /\
  fst (transform idu_transform durations events self) = self.
Proof.
  intros Hinv self'. subst self'. unfold mapper_on_cuts in *.
  unfold fit, transform, mbind, getattr, setattr, lift, raise.
  destruct (_predefinded_cuts self) eqn:Ep.
  - simpl. repeat split; try assumption; try tauto.
    destruct (idu self); reflexivity.
  - destruct (make_cuts (_cuts self) durations events (min_ self)) as [c|e];
      simpl; repeat split; try assumption; try tauto; try (symmetry; exact Ep);
      destruct (idu self); reflexivity.
Qed.

Lemma fit_keeps_mapper_on_cuts_witness :
  let self := mkLabTransDiscreteSurv false (CutsScheme "equidistant" 3) 0 None None [] in
  let self' := fst (fit (fun _ _ _ _ => Ok [0; 2; 4]) [1; 4] [1; 0] self) in
  mapper_on_cuts self' /\
  _cuts self' = _cuts self /\ min_ self' = min_ self /\
  _predefinded_cuts self' = _predefinded_cuts self /\
  (fails (snd (fit (fun _ _ _ _ => Ok [0; 2; 4]) [1; 4] [1; 0] self)) -> self' = self) /\
  fst (transform (fun _ _ _ => Ok ([], [])) [1; 4] [1; 0] self) = self.
Proof.
  apply (fit_keeps_mapper_on_cuts (fun _ _ _ _ => Ok [0; 2; 4])
           (fun _ _ _ => Ok ([], []))
           (mkLabTransDiscreteSurv false (CutsScheme "equidistant" 3) 0 None None [])
           [1; 4] [1; 0]).
  reflexivity.
Defined.

(** X18: on an instance without pre-supplied cuts, [fit_transform] is [fit]
    followed by [transform]: when [make_cuts] returns [c] the instance holds
    [c] as cuts and mapper (also when it was fitted before: the cuts are
    computed anew) and the result is the mapper's transform on [c]; when
    [make_cuts] raises, that exception is the result and the instance is
    unchanged. *)
Theorem fit_transform_discrete
    (make_cuts : cuts_arg -> list R -> list R -> R -> result (list R))
    (idu_transform : list R -> list R -> list R -> result (list Z * list R))
    (self : LabTransDiscreteSurv) (durations events : list R) :
  _predefinded_cuts self = false ->
  match make_cuts (_cuts self) durations events (min_ self) with
  | Ok c =>
      LabTransDiscreteSurv_fit_transform make_cuts idu_transform durations events self
        = (with_cuts self c, idu_transform c durations events)
  | Raise e =>
      LabTransDiscreteSurv_fit_transform make_cuts idu_transform durations events self
        = (self, Raise e)
  end.
Proof.
  intros Hp.
  unfold LabTransDiscreteSurv_fit_transform, fit, transform, mbind, getattr,
    setattr, lift, raise, with_cuts.
  cbv beta. rewrite Hp.
  destruct (make_cuts (_cuts self) durations events (min_ self)) as [c|e];
    cbn; rewrite ?Hp; reflexivity.
Qed.

Lemma fit_transform_discrete_witness :
  LabTransDiscreteSurv_fit_transform (fun _ _ _ _ => Ok [0; 2; 4])
    (fun c _ _ => Ok ([1%Z; 2%Z], c)) [1; 4] [1; 0]
    (mkLabTransDiscreteSurv false (CutsScheme "equidistant" 3) 0 None None [])
  = (with_cuts (mkLabTransDiscreteSurv false (CutsScheme "equidistant" 3) 0 None None [])
       [0; 2; 4],
     Ok ([1%Z; 2%Z], [0; 2; 4])).
Proof.
  apply (fit_transform_discrete (fun _ _ _ _ => Ok [0; 2; 4])
           (fun c _ _ => Ok ([1%Z; 2%Z], c))
           (mkLabTransDiscreteSurv false (CutsScheme "equidistant" 3) 0 None None [])
           [1; 4] [1; 0]).
  reflexivity.
Defined.

(** ** When [nll_pmf_cr] fails *)

Lemma out_of_bounds_dec (size : nat) (i : Z) :
  {out_of_bounds size i} + {(- Z.of_nat size <= i < Z.of_nat size)%Z}.
Proof.
  unfold out_of_bounds.
  destruct (Z_lt_dec i (- Z.of_nat size)); [left; tauto|].
  destruct (Z_le_dec (Z.of_nat size) i); [left; tauto|].
  right. lia.
Qed.

Lemma py_index_out_of_bounds (size : nat) (i : Z) :
  out_of_bounds size i -> py_index size i = Raise IndexError.
Proof.
  intros [H | H]; [|apply py_index_too_large; exact H].
  unfold py_index.
  replace ((0 <=? i)%Z && (i <? Z.of_nat size)%Z) with false
    by (symmetry; apply andb_false_iff; left; apply Z.leb_gt; lia).
  replace ((- Z.of_nat size <=? i)%Z && (i <? 0)%Z) with false
    by (symmetry; apply andb_false_iff; left; apply Z.leb_gt; lia).
  reflexivity.
Qed.

Lemma py_index_in_bounds (size : nat) (i : Z) :
  (- Z.of_nat size <= i < Z.of_nat size)%Z -> exists k, py_index size i = Ok k.
Proof.
  intros H. destruct (py_index_from_end size i H) as [E Hr].
  rewrite E, py_index_in_range by exact Hr. eexists; reflexivity.
Qed.

Lemma index3_fails_iff n_risks n_durations sm events idx :
  length events = length sm -> length idx = length sm ->
  (fails (index3 n_risks n_durations sm events idx) <->
   Exists (out_of_bounds n_durations) idx \/ Exists (out_of_bounds n_risks) events).
Proof.
  revert events idx; induction sm as [|s sm IH]; intros [|e events] [|d idx] Hle Hli;
    simpl in *; try discriminate.
  - split; [intros [] | intros [H | H]; inversion H].
  - destruct (out_of_bounds_dec n_risks e) as [He | He].
    { rewrite py_index_out_of_bounds by exact He. simpl.
      split; [intros _; right; left; exact He | tauto]. }
    destruct (py_index_in_bounds n_risks e He) as (r & ->). cbn [bind].
    destruct (out_of_bounds_dec n_durations d) as [Hd | Hd].
    { rewrite py_index_out_of_bounds by exact Hd. simpl.
      split; [intros _; left; left; exact Hd | tauto]. }
    destruct (py_index_in_bounds n_durations d Hd) as (k & ->). cbn [bind].
    specialize (IH events idx ltac:(lia) ltac:(lia)).
    assert (Hnd : ~ out_of_bounds n_durations d) by (unfold out_of_bounds; lia).
    assert (Hne : ~ out_of_bounds n_risks e) by (unfold out_of_bounds; lia).
    destruct (index3 n_risks n_durations sm events idx); cbn [bind]; simpl in *.
    + split; [intros []|]. intros [H | H]; inversion H; subst; tauto.
    + split; [|tauto]. intros _.
      destruct (proj1 IH I) as [H | H]; [left | right]; right; exact H.
Qed.

Lemma index_all_risks_in_bounds n_durations c idx :
  Forall (fun d => (- Z.of_nat n_durations <= d < Z.of_nat n_durations)%Z) idx ->
  exists v, index_all_risks n_durations c idx = Ok v.
Proof.
  revert idx; induction c as [|s c IH]; intros [|d idx] H; simpl;
    try (eexists; reflexivity).
  inversion H; subst.
  destruct (py_index_in_bounds n_durations d) as (k & ->); [assumption|].
  cbn [bind]. destruct (IH idx) as (v & ->); [assumption|].
  cbn [bind]. eexists; reflexivity.
Qed.

(** X19: on a batch of at least one sample, with one label and one index
    per sample and a valid mode, [nll_pmf_cr] fails exactly when some bin index lies outside [-K, K) or
    some remapped label [events - 1] lies outside [-n_risks, n_risks): only
    the indexing of the backend rejects an input, so the label
    [n_risks + 1] fails while the labels below 0 down to [1 - n_risks] are
    read as risks from the end. *)
Theorem nll_pmf_cr_fails_iff (phi : tensor3) (idx events : list Z)
    (reduction : string) (eps : R) :
  wf3 phi -> samples phi <> [] ->
  length idx = length (samples phi) ->
  length events = length (samples phi) ->
  valid_reduction reduction ->
  (fails (nll_pmf_cr phi idx events reduction eps) <->
   Exists (out_of_bounds (shape3_2 phi)) idx \/
   Exists (out_of_bounds (shape3_1 phi)) (minus_one events)).
Proof.
  intros _ _ Hli Hle Hv.
  pose proof (index3_fails_iff (shape3_1 phi) (shape3_2 phi)
                (samples (joint_softmax phi)) (minus_one events) idx) as H3.
  rewrite length_joint_softmax in H3.
  specialize (H3 ltac:(unfold minus_one; rewrite length_map; exact Hle) Hli).
  unfold nll_pmf_cr. cbv zeta.
  change (shape3_1 (joint_softmax phi)) with (shape3_1 phi).
  change (shape3_2 (joint_softmax phi)) with (shape3_2 phi).
  destruct (index3 (shape3_1 phi) (shape3_2 phi) (samples (joint_softmax phi))
              (minus_one events) idx) as [g|e]; cbn [bind].
  - assert (Hgood : Forall (fun d => (- Z.of_nat (shape3_2 phi) <= d
                                       < Z.of_nat (shape3_2 phi))%Z) idx).
    { apply Forall_forall. intros d Hd.
      destruct (out_of_bounds_dec (shape3_2 phi) d) as [Hb | Hb]; [|exact Hb].
      exfalso. apply (proj2 H3). left. apply Exists_exists. exists d. tauto. }
    destruct (index_all_risks_in_bounds (shape3_2 phi)
                (map (map cumsum) (samples (joint_softmax phi))) idx Hgood)
      as (c & ->).
    cbn [bind].
    match goal with
    | |- fails (_reduction ?l reduction) <-> _ =>
        pose proof (reduction_valid_ok l reduction Hv) as Hok;
        destruct (_reduction l reduction)
    end; simpl in *; tauto.
  - simpl in *. tauto.
Qed.

Lemma nll_pmf_cr_fails_iff_witness :
  fails (nll_pmf_cr phi3_zero [0%Z] [2%Z] "mean" epsilon_default) <->
  Exists (out_of_bounds (shape3_2 phi3_zero)) [0%Z] \/
  Exists (out_of_bounds (shape3_1 phi3_zero)) (minus_one [2%Z]).
Proof.
  apply (nll_pmf_cr_fails_iff phi3_zero [0%Z] [2%Z] "mean" epsilon_default).
  - repeat constructor.
  - discriminate.
  - reflexivity.
  - reflexivity.
  - right; left; reflexivity.
Defined.

(** * Revised statements *)

(** ** The round trip of [LabTransCoxTime] over binary64 *)

Import CoxTimeFloat.

Lemma fdict_get_some (d : fdict) (k v : PrimFloat.float) :
  fdict_get d k = Some v ->
  exists k', In (k', v) d /\ PrimFloat.eqb k' k = true.
Proof.
  induction d as [|[k' v'] d IH]; simpl; [discriminate|].
  destruct (PrimFloat.eqb k' k) eqn:E.
  - intros H. injection H as ->. exists k'. split; [left; reflexivity | exact E].
  - intros H. destruct (IH H) as (k'' & Hin & Hk). exists k''. split; [right|]; assumption.
Qed.

Lemma fdict_get_bound (d : fdict) (k k' v : PrimFloat.float) :
  In (k', v) d -> PrimFloat.eqb k' k = true -> fdict_get d k <> None.
Proof.
  induction d as [|[k0 v0] d IH]; simpl; [tauto|].
  intros [H | H] Hk.
  - injection H as -> ->. rewrite Hk. discriminate.
  - destruct (PrimFloat.eqb k0 k); [discriminate | apply IH; assumption].
Qed.

Lemma inverse_map64_bindings (pairs : list (PrimFloat.float * PrimFloat.float))
    (acc : fdict) :
  fold_left (fun d os => fdict_set d (snd os) (fst os)) pairs acc =
    rev (map (fun os => (snd os, fst os)) pairs) ++ acc.
Proof.
  revert acc; induction pairs as [|p pairs IH]; intros acc; simpl.
  - reflexivity.
  - rewrite IH. unfold fdict_set. rewrite <- app_assoc. reflexivity.
Qed.

Lemma in_combine_nth (a b : list PrimFloat.float) (x y : PrimFloat.float) :
  length a = length b ->
  (In (x, y) (combine a b) <->
   exists j, (j < length a)%nat /\ nth j a fzero = x /\ nth j b fzero = y).
Proof.
  revert b; induction a as [|a0 a IH]; intros [|b0 b] Hl; simpl in *;
    try discriminate.
  - split; [tauto | intros (j & Hj & _); lia].
  - rewrite IH by lia. split.
    + intros [H | (j & Hj & Ha & Hb)].
      * injection H as <- <-. exists 0%nat. repeat split. lia.
      * exists (S j). repeat split; [lia | assumption | assumption].
    + intros ([|j] & Hj & Ha & Hb).
      * left. simpl in *. congruence.
      * right. exists j. repeat split; [lia | assumption | assumption].
Qed.

(** The dictionary [fit_transform] builds from the training durations and
    their transformed values, whatever the arithmetic that gave them. *)
Lemma inverse_lookup64 (train scaled : list PrimFloat.float) :
  length scaled = length train ->
  let d := fold_left (fun d os => fdict_set d (snd os) (fst os))
             (combine train scaled) [] in
  (forall i, (i < length train)%nat -> separated train scaled i ->
     fdict_get d (nth i scaled fzero) = Some (nth i train fzero)) /\
  (forall x, (forall s, In s scaled -> PrimFloat.eqb s x = false) ->
     fdict_get d x = None).
Proof.
  intros Hl d.
  assert (Hd : forall k v, In (k, v) d <->
            exists j, (j < length train)%nat /\
                      nth j train fzero = v /\ nth j scaled fzero = k).
  { intros k v. unfold d. rewrite inverse_map64_bindings, app_nil_r.
    rewrite <- in_rev, in_map_iff.
    rewrite <- (in_combine_nth train scaled v k) by lia. split.
    - intros ([o s] & Heq & Hin). simpl in Heq. injection Heq as <- <-. exact Hin.
    - intros Hin. exists (v, k). split; [reflexivity | exact Hin]. }
  split.
  - intros i Hi [Hself Hsep].
    destruct (fdict_get d (nth i scaled fzero)) as [v|] eqn:E.
    + destruct (fdict_get_some _ _ _ E) as (k' & Hin & Hk).
      apply Hd in Hin. destruct Hin as (j & Hj & <- & <-).
      f_equal. apply Hsep; assumption.
    + exfalso.
      apply (fdict_get_bound d (nth i scaled fzero) (nth i scaled fzero)
               (nth i train fzero)); [|exact Hself | exact E].
      apply Hd. exists i. repeat split. exact Hi.
  - intros x Hx. destruct (fdict_get d x) as [v|] eqn:E; [|reflexivity].
    exfalso. destruct (fdict_get_some _ _ _ E) as (k' & Hin & Hk).
    apply Hd in Hin. destruct Hin as (j & Hj & _ & <-).
    rewrite Hx in Hk; [discriminate|]. apply nth_In. lia.
Qed.

Lemma scaler_fit_transform64_value (sc : StandardScaler64) (x : list PrimFloat.float) :
  x <> [] ->
  exists sc' y,
    scaler_fit_transform64 x sc = (sc', Ok y) /\ length y = length x.
Proof.
  intros Hx. destruct x as [|x0 x]; [congruence|].
  unfold scaler_fit_transform64, mbind, setattr, getattr, ret.
  cbn [with_mean64 with_std64].
  eexists. eexists. split; [reflexivity|].
  destruct (with_mean64 sc), (with_std64 sc); rewrite ?length_map; reflexivity.
Qed.

(** C7, amended: after [fit_transform] on training durations,
    [map_scaled_to_orig] applied to the transformed durations returns, for
    each training sample whose transformed value is no [nan] and is shared
    with no sample of another duration, the original duration itself; a
    value equal to no transformed training duration is answered [None].
    (Over the reals the scaling separates all durations; the float64
    arithmetic of the code need not.) *)
Theorem fit_transform64_round_trip
    (log1p64 to_float32 : PrimFloat.float -> PrimFloat.float)
    (self : LabTransCoxTime64) (durations events : list PrimFloat.float) :
  durations <> [] ->
  exists self' scaled f,
    fit_transform64 log1p64 to_float32 durations events self
      = (self', Ok (scaled, map to_float32 events)) /\
    length scaled = length durations /\
    map_scaled_to_orig64 self' = (self', Ok f) /\
    (forall i, (i < length durations)%nat -> separated durations scaled i ->
       nth i (f scaled) None = Some (nth i durations fzero)) /\
    (forall x, (forall s, In s scaled -> PrimFloat.eqb s x = false) ->
       f [x] = [None]).
Proof.
  intros Hne.
  set (pre := if log_duration64 self then map log1p64 durations else durations).
  assert (Hpre : pre <> [] /\ length pre = length durations).
  { unfold pre. destruct (log_duration64 self); [|tauto].
    rewrite length_map. split; [|reflexivity].
    destruct durations; [congruence | discriminate]. }
  destruct Hpre as [Hpne Hplen].
  destruct (scaler_fit_transform64_value (duration_scaler64 self) pre Hpne)
    as (sc' & scaled & Hfit & Hlen).
  rewrite Hplen in Hlen.
  destruct (inverse_lookup64 durations scaled Hlen) as [Hround Hunseen].
  eexists. exists scaled. eexists.
  split.
  { unfold fit_transform64, mbind, getattr, on_scaler64, setattr, ret.
    fold pre. rewrite Hfit. reflexivity. }
  split; [exact Hlen|]. split; [reflexivity|]. split.
  - intros i Hi Hsep.
    rewrite (nth_map_in _ scaled i None fzero) by lia.
    apply Hround; assumption.
  - intros x Hx. simpl. rewrite (Hunseen x Hx). reflexivity.
Qed.

Lemma fit_transform64_round_trip_witness :
  exists self' scaled f,
    fit_transform64 (fun x => x) (fun x => x) durations_plain [fone; fzero; fone; fone]
      (LabTransCoxTime64_init false true true)
      = (self', Ok (scaled, map (fun x => x) [fone; fzero; fone; fone])) /\
    length scaled = length durations_plain /\
    map_scaled_to_orig64 self' = (self', Ok f) /\
    (forall i, (i < length durations_plain)%nat ->
       separated durations_plain scaled i ->
       nth i (f scaled) None = Some (nth i durations_plain fzero)) /\
    (forall x, (forall s, In s scaled -> PrimFloat.eqb s x = false) ->
       f [x] = [None]).
Proof.
  apply (fit_transform64_round_trip (fun x => x) (fun x => x)
           (LabTransCoxTime64_init false true true) durations_plain
           [fone; fzero; fone; fone]).
  discriminate.
Defined.

(** On the four ordinary durations [[1, 2.5, 4, 4]] every sample is
    separated and the round trip is exact. *)
Example round_trip_plain :
  exists self' scaled ev f,
    fit_transform64 (fun x => x) (fun x => x) durations_plain [fone; fzero; fone; fone]
      (LabTransCoxTime64_init false true true) = (self', Ok (scaled, ev)) /\
    map_scaled_to_orig64 self' = (self', Ok f) /\
    f scaled = map Some durations_plain.
Proof.
  eexists. eexists. eexists. eexists.
  split; [vm_compute; reflexivity|]. split; [reflexivity|].
  vm_compute. reflexivity.
Qed.

(** C7, as stated, fails on the code's float64 arithmetic: fitted on
    [[1e-20, 2e-20, 1e10]] the scaler gives the first two durations one
    transformed value, the dictionary keeps the later binding, and the round
    trip returns [[2e-20, 2e-20, 1e10]]. *)
Lemma round_trip_collides :
  exists self' scaled ev f,
    fit_transform64 (fun x => x) (fun x => x) durations_collide []
      (LabTransCoxTime64_init false true true) = (self', Ok (scaled, ev)) /\
    map_scaled_to_orig64 self' = (self', Ok f) /\
    f scaled = looked_up_collide /\
    f scaled <> map Some durations_collide.
Proof.
  eexists. eexists. eexists. eexists.
  split; [vm_compute; reflexivity|]. split; [reflexivity|].
  split.
  - vm_compute. reflexivity.
  - intros H.
    assert (Hb : match map Some durations_collide with
                 | Some x :: _ => PrimFloat.eqb x f2e_20
                 | _ => false
                 end = true).
    { rewrite <- H. vm_compute. reflexivity. }
    vm_compute in Hb. discriminate.
Qed.

(** ** One risk: how far [nll_pmf_cr] is from [nll_pmf] *)

Lemma ln_monotone (x y : R) : 0 < x -> x <= y -> ln x <= ln y.
Proof.
  intros Hx [H | ->]; [left; apply ln_increasing; assumption | right; reflexivity].
Qed.

Lemma ln_le_minus_one (y : R) : 0 < y -> ln y <= y - 1.
Proof.
  intros Hy. pose proof (exp_ineq1_le (y - 1)) as H.
  replace (1 + (y - 1)) with y in H by ring.
  rewrite <- (ln_exp (y - 1)). apply ln_monotone; assumption.
Qed.

Lemma ln_quot (x y : R) : 0 < x -> 0 < y -> ln (x / y) = ln x - ln y.
Proof.
  intros Hx Hy. unfold Rdiv.
  rewrite ln_mult by (try apply Rinv_0_lt_compat; assumption).
  rewrite ln_Rinv by assumption. ring.
Qed.

(** What the floor adds to a logarithm. *)
Lemma ln_gap (a eps : R) :
  0 < a -> 0 <= eps -> 0 <= ln (a + eps) - ln a <= eps / a.
Proof.
  intros Ha He. split.
  - assert (ln a <= ln (a + eps)) by (apply ln_monotone; lra). lra.
  - rewrite <- ln_quot by lra.
    assert (Hq : (a + eps) / a = 1 + eps / a) by (field; lra).
    rewrite Hq.
    assert (0 <= eps / a) by (apply Rmult_le_pos; [lra | left; apply Rinv_0_lt_compat; lra]).
    pose proof (ln_le_minus_one (1 + eps / a) ltac:(lra)). lra.
Qed.

Lemma ln_gap_decreasing (x y eps : R) :
  0 < x -> x <= y -> 0 <= eps ->
  ln (y + eps) - ln y <= ln (x + eps) - ln x.
Proof.
  intros Hx Hxy He.
  rewrite <- !ln_quot by lra.
  apply ln_monotone.
  - apply Rdiv_lt_0_compat; lra.
  - assert (Hy : 0 < y) by lra.
    apply Rmult_le_reg_r with (x * y); [nra|].
    replace ((y + eps) / y * (x * y)) with ((y + eps) * x) by (field; lra).
    replace ((x + eps) / x * (x * y)) with ((x + eps) * y) by (field; lra).
    nra.
Qed.

Lemma fold_left_Rmax_in (t : list R) (x : R) : In (fold_left Rmax t x) (x :: t).
Proof.
  revert x; induction t as [|y t IH]; intros x; simpl.
  - left. reflexivity.
  - destruct (IH (Rmax x y)) as [H | H].
    + rewrite <- H. unfold Rmax. destruct (Rle_dec x y); [right; left | left]; reflexivity.
    + right. right. exact H.
Qed.

Lemma row_max_in (l : list R) : l <> [] -> In (row_max l) l.
Proof.
  destruct l as [|x t]; [congruence|]. intros _. apply fold_left_Rmax_in.
Qed.

Lemma vsum_exp_ge_member (x : R) (l : list R) :
  In x l -> exp x <= vsum (map exp l).
Proof.
  induction l as [|y l IH]; simpl; [tauto|].
  pose proof (vsum_exp_nonneg l) as Hn. pose proof (exp_pos y) as Hy.
  intros [-> | Hin]; [lra | specialize (IH Hin); lra].
Qed.

(** The shifted partition sum holds the term [exp(max - max) = 1]. *)
Lemma shifted_partition_ge_one (r : list R) :
  1 <= vsum (map exp (r ++ [0])) * exp (- row_max (r ++ [0])).
Proof.
  set (p := r ++ [0]).
  assert (Hp : p <> []) by (unfold p; destruct r; discriminate).
  pose proof (vsum_exp_ge_member _ _ (row_max_in p Hp)) as H.
  pose proof (exp_pos (- row_max p)) as Hg.
  replace 1 with (exp (row_max p) * exp (- row_max p))
    by (rewrite <- exp_plus, Rplus_opp_r; apply exp_0).
  apply Rmult_le_compat_r; lra.
Qed.

(** The event terms of the two losses on one row: [P] is the softmax
    probability of the observed bin. *)
Lemma event_gap (r : list R) (d : nat) (eps : R) :
  (d < length r)%nat -> 0 < eps ->
  let g := row_max (r ++ [0]) in
  let S := vsum (map exp (r ++ [0])) in
  let P := exp (nth d r 0) / S in
  0 < P /\
  0 <= - (nth d r 0 - g - ln (relu (S * exp (- g)) + eps)) - - ln (relu P + eps)
    <= eps * (1 + / P).
Proof.
  intros Hd He g S P.
  destruct (partition_sum_pos r d) as [HS _]. fold S in HS.
  pose proof (shifted_partition_ge_one r) as Hone. fold g S in Hone.
  pose proof (exp_pos (nth d r 0)) as Hx. pose proof (exp_pos (- g)) as Hg.
  assert (HP : 0 < P) by (unfold P; apply Rdiv_lt_0_compat; lra).
  split; [exact HP|].
  set (S' := S * exp (- g)) in *.
  assert (HS' : 0 < S') by lra.
  rewrite !relu_pos by assumption.
  assert (Hx' : nth d r 0 - g = ln P + ln S').
  { rewrite <- ln_mult by assumption.
    replace (P * S') with (exp (nth d r 0 - g)).
    - symmetry. apply ln_exp.
    - unfold P, S', Rminus. rewrite exp_plus. field. lra. }
  rewrite Hx'.
  destruct (ln_gap S' eps HS' ltac:(lra)) as [Hs1 Hs2].
  destruct (ln_gap P eps HP ltac:(lra)) as [Hp1 Hp2].
  assert (Hle : eps / S' <= eps).
  { unfold Rdiv. rewrite <- (Rmult_1_r eps) at 2.
    apply Rmult_le_compat_l; [lra|].
    rewrite <- Rinv_1. apply Rinv_le_contravar; lra. }
  unfold Rdiv in Hp2. split; [lra|].
  replace (eps * (1 + / P)) with (eps + eps * / P) by ring. lra.
Qed.

(** The censored terms of the two losses on one row: [Q] is the softmax
    probability of surviving past the observed bin. *)
Lemma censored_gap (r : list R) (d : nat) (eps : R) :
  (d < length r)%nat -> 0 < eps ->
  let g := row_max (r ++ [0]) in
  let S := vsum (map exp (r ++ [0])) in
  let A := vsum (map exp (firstn (Datatypes.S d) r)) in
  let Q := 1 - (A / S + 0) in
  0 < Q /\
  0 <= - (ln (relu (S * exp (- g) - A * exp (- g)) + eps)
          - ln (relu (S * exp (- g)) + eps))
       - - ln (relu Q + eps)
    <= eps * (1 + / Q).
Proof.
  intros Hd He g S A Q.
  destruct (partition_sum_pos r d) as [HS HA]. fold S A in HS, HA.
  pose proof (shifted_partition_ge_one r) as Hone. fold g S in Hone.
  pose proof (exp_pos (- g)) as Hg.
  assert (Ha : 0 < S * exp (- g) - A * exp (- g)).
  { replace (S * exp (- g) - A * exp (- g)) with ((S - A) * exp (- g)) by ring.
    apply Rmult_lt_0_compat; lra. }
  assert (HQ : Q = (S * exp (- g) - A * exp (- g)) / (S * exp (- g))).
  { unfold Q. field. split; lra. }
  set (a := S * exp (- g) - A * exp (- g)) in *.
  set (b := S * exp (- g)) in *.
  assert (Hb : 0 < b) by lra.
  assert (HQpos : 0 < Q) by (rewrite HQ; apply Rdiv_lt_0_compat; assumption).
  split; [exact HQpos|].
  rewrite !relu_pos by assumption.
  assert (HQa : Q <= a).
  { rewrite HQ. unfold Rdiv. rewrite <- (Rmult_1_r a) at 2.
    apply Rmult_le_compat_l; [lra|].
    rewrite <- Rinv_1. apply Rinv_le_contravar; lra. }
  assert (HlnQ : ln Q = ln a - ln b) by (rewrite HQ; apply ln_quot; assumption).
  destruct (ln_gap b eps Hb ltac:(lra)) as [Hb1 Hb2].
  destruct (ln_gap Q eps HQpos ltac:(lra)) as [Hq1 Hq2].
  destruct (ln_gap a eps Ha ltac:(lra)) as [Ha1 Ha2].
  pose proof (ln_gap_decreasing Q a eps HQpos HQa ltac:(lra)) as Hdec.
  assert (Hle : eps / b <= eps).
  { unfold Rdiv. rewrite <- (Rmult_1_r eps) at 2.
    apply Rmult_le_compat_l; [lra|].
    rewrite <- Rinv_1. apply Rinv_le_contravar; lra. }
  unfold Rdiv in Hq2. split; [lra|].
  replace (eps * (1 + / Q)) with (eps + eps * / Q) by ring. lra.
Qed.

(** C3, amended: with one risk, indices in [0, K), labels in {0, 1} and a
    floor [epsilon > 0] (the default included), [nll_pmf_cr] and [nll_pmf]
    on the reshaped [phi] reduce, in every mode, two per-sample vectors
    with [0 <= nll_pmf_i - nll_pmf_cr_i <= epsilon * (1 + 1 / p_i)], where
    [p_i > 0] is the probability the softmax gives the observed outcome
    (over the reals): the two agree within a tolerance only where [p_i] is
    large against [epsilon]. *)
Theorem nll_pmf_cr_single_risk_gap (phi : tensor3) (idx events : list Z) (eps : R) :
  wf3 phi -> shape3_1 phi = 1%nat -> samples phi <> [] ->
  length idx = length (samples phi) -> length events = length (samples phi) ->
  Forall (fun d => (0 <= d < Z.of_nat (shape3_2 phi))%Z) idx ->
  Forall (fun e => e = 0%Z \/ e = 1%Z) events ->
  0 < eps ->
  exists loss_cr loss_pmf,
    (forall reduction,
       nll_pmf_cr phi idx events reduction eps = _reduction (Vec loss_cr) reduction) /\
    (forall reduction,
       nll_pmf (flatten3 phi) idx (map IZR events) reduction eps
         = _reduction (Vec loss_pmf) reduction) /\
    length loss_cr = length (samples phi) /\
    length loss_pmf = length (samples phi) /\
    forall i, (i < length (samples phi))%nat ->
      let p := outcome_probability phi i (nth i events 0%Z)
                 (Z.to_nat (nth i idx 0%Z)) in
      0 < p /\
      0 <= nth i loss_pmf 0 - nth i loss_cr 0 <= eps * (1 + / p).
Proof.
  intros Hwf H1 Hne Hli Hle Hidx Hev Heps.
  destruct (single_risk_shapes phi idx events Hwf H1 Hne Hli Hle Hidx Hev)
    as (Hcr & Hb & Hidx2).
  destruct (nll_pmf_cr_value phi idx events eps Hcr) as (l1 & Hred1 & Hlen1 & Hval1).
  destruct (nll_pmf_value (flatten3 phi) idx (map IZR events) eps Hb Hidx2)
    as (l2 & Hred2 & Hlen2 & Hval2).
  assert (Hrows : length (rows (flatten3 phi)) = length (samples phi))
    by (unfold flatten3; cbn [rows]; apply length_map).
  exists l1, l2.
  split; [exact Hred1|]. split; [exact Hred2|].
  split; [exact Hlen1|]. split; [lia|].
  intros i Hi. cbv zeta.
  rewrite (Hval1 i Hi). rewrite (Hval2 i) by lia. cbv zeta.
  destruct (single_risk_sample phi i Hwf H1 Hi) as (r & Hr & Hpad & Hsm).
  assert (Hd : (Z.to_nat (nth i idx 0%Z) < length r)%nat).
  { rewrite Forall_forall in Hidx.
    assert (Hin : In (nth i idx 0%Z) idx) by (apply nth_In; lia).
    specialize (Hidx _ Hin). lia. }
  set (d := Z.to_nat (nth i idx 0%Z)) in *.
  rewrite (nth_map_in IZR events i 0 0%Z) by lia.
  assert (He : nth i events 0%Z = 0%Z \/ nth i events 0%Z = 1%Z).
  { rewrite Forall_forall in Hev. apply Hev. apply nth_In. lia. }
  unfold outcome_probability, cr_censored_loss, cr_event_loss, sum_at, cumsum_at,
    gamma_at.
  rewrite Hsm, Hpad.
  destruct He as [E | E]; rewrite E.
  - simpl Z.eqb. cbv iota. cbn [map vsum fold_right].
    rewrite softmax_cumsum by exact Hd.
    rewrite !(shifted_sum r d) by exact Hd.
    rewrite shifted_cumsum by exact Hd.
    destruct (censored_gap r d eps Hd Heps) as [Hpos Hgap]. cbv zeta in Hpos, Hgap.
    split; [exact Hpos|].
    match goal with
    | |- 0 <= ?x - ?y <= ?z =>
        match type of Hgap with
        | 0 <= ?x' - ?y' <= ?z' =>
            replace x with x' by ring; replace y with y' by ring
        end
    end.
    exact Hgap.
  - simpl Z.eqb. cbv iota. simpl Z.sub. simpl Z.to_nat. cbn [nth].
    rewrite (softmax_entry r d Hd).
    rewrite !(shifted_sum r d) by exact Hd.
    rewrite app_nth1 by exact Hd.
    destruct (event_gap r d eps Hd Heps) as [Hpos Hgap]. cbv zeta in Hpos, Hgap.
    split; [exact Hpos|].
    match goal with
    | |- 0 <= ?x - ?y <= ?z =>
        match type of Hgap with
        | 0 <= ?x' - ?y' <= ?z' =>
            replace x with x' by ring; replace y with y' by ring
        end
    end.
    exact Hgap.
Qed.

Lemma nll_pmf_cr_single_risk_gap_witness :
  exists loss_cr loss_pmf,
    (forall reduction,
       nll_pmf_cr phi3_low [0%Z] [1%Z] reduction epsilon_default
         = _reduction (Vec loss_cr) reduction) /\
    (forall reduction,
       nll_pmf (flatten3 phi3_low) [0%Z] (map IZR [1%Z]) reduction epsilon_default
         = _reduction (Vec loss_pmf) reduction) /\
    length loss_cr = length (samples phi3_low) /\
    length loss_pmf = length (samples phi3_low) /\
    forall i, (i < length (samples phi3_low))%nat ->
      let p := outcome_probability phi3_low i (nth i [1%Z] 0%Z)
                 (Z.to_nat (nth i [0%Z] 0%Z)) in
      0 < p /\
      0 <= nth i loss_pmf 0 - nth i loss_cr 0 <= epsilon_default * (1 + / p).
Proof.
  apply (nll_pmf_cr_single_risk_gap phi3_low [0%Z] [1%Z] epsilon_default).
  - repeat constructor.
  - reflexivity.
  - discriminate.
  - reflexivity.
  - reflexivity.
  - repeat constructor; simpl; lia.
  - constructor; [right; reflexivity | constructor].
  - unfold epsilon_default. lra.
Defined.
